(** * book-reader: chunking, generation pipeline and playback engine

  A shallow embedding of the logic of [src/App.tsx] (the playback
  engine), of the audio controller component (the chunker and the
  generation pipeline) and of [src/utils/audioUtils.ts], followed by the
  properties of the specification that were checked against it.

  Conventions.
  - A JavaScript string is the list of its UTF-16 code units.
  - JavaScript numbers that carry times (seconds on the audio clock,
    offsets, rates, durations) are rationals; the constants the code
    uses ([0.1], [24000], [32768]) are exact there.
  - React state and refs live together in one record; a handler is a
    function on that record, and the effects a render commits are
    functions that receive the reading of the audio clock. *)

From Stdlib Require Import Ascii String DecimalString DecimalN.
From Stdlib Require Import List Bool Arith NArith ZArith QArith Qminmax Qround.
From Stdlib Require Import Lia Lqa Sorted.
Import ListNotations.

Close Scope Q_scope.
Set Implicit Arguments.

(** ** JavaScript strings *)

Module JsString.

Definition jschar := N.
Definition jsstring := list jschar.

(** An ASCII literal as a JavaScript string. *)
Definition lit (s : string) : jsstring :=
  map N_of_ascii (list_ascii_of_string s).

(** The class [\s] of a regular expression without the [u] flag, which is
    also what [String.prototype.trim] strips: WhiteSpace and
    LineTerminator code points. *)
Definition is_ws (c : jschar) : bool :=
  ((9 <=? c) && (c <=? 13) || (c =? 32) || (c =? 160) || (c =? 5760)
   || (8192 <=? c) && (c <=? 8202) || (c =? 8232) || (c =? 8233)
   || (c =? 8239) || (c =? 8287) || (c =? 12288) || (c =? 65279))%N.

(** The class [[.!?\n\r]]. *)
Definition is_terminator (c : jschar) : bool :=
  ((c =? 46) || (c =? 33) || (c =? 63) || (c =? 10) || (c =? 13))%N.

Fixpoint trimStart (s : jsstring) : jsstring :=
  match s with
  | c :: s' => if is_ws c then trimStart s' else s
  | [] => []
  end.

Definition trimEnd (s : jsstring) : jsstring := rev (trimStart (rev s)).

Definition trim (s : jsstring) : jsstring := trimEnd (trimStart s).

(** Truthiness of a string: [s] is truthy unless it is empty. *)
Definition truthy (s : jsstring) : bool :=
  match s with [] => false | _ :: _ => true end.

(** [s.substring(i, j)] for [i <= j]; both ends are clamped to the
    length, as [firstn] and [skipn] do. *)
Definition substring (i j : nat) (s : jsstring) : jsstring :=
  firstn (j - i) (skipn i s).

(** The longest prefix of [\s] characters and what follows it: a greedy
    match of [\s*]. *)
Fixpoint span_ws (s : jsstring) : jsstring * jsstring :=
  match s with
  | c :: s' =>
      if is_ws c then let (w, r) := span_ws s' in (c :: w, r) else ([], s)
  | [] => ([], [])
  end.

(** A sticky match of [/(?<=[.!?\n\r]+)\s*/] at the position whose
    preceding code unit is [prev] and whose remaining input is [rest].
    The lookbehind needs one terminator just before the position; the
    match itself is the whitespace run, possibly empty. *)
Definition sep_match (prev : option jschar) (rest : jsstring)
  : option (jsstring * jsstring) :=
  match prev with
  | Some c => if is_terminator c then Some (span_ws rest) else None
  | None => None
  end.

(** The loop of [RegExp.prototype[Symbol.split]] for that separator.
    With [S] the subject, [p] the start of the pending piece and [q] the
    position tried: [piece] is [S[p..q)], [rest] is [S[q..)] and [prev] is
    [S[q-1]].  A match that ends at [e = p] (an empty match where the
    pending piece is empty) only advances [q]; any other match pushes
    [S[p..q)] and sets [p = q = e].  When [q] reaches the end the pending
    piece is pushed. *)
Fixpoint split_loop (fuel : nat) (prev : option jschar)
         (piece rest : jsstring) : list jsstring :=
  match fuel with
  | O => []
  | S fuel' =>
      match rest with
      | [] => [piece]
      | c :: rest' =>
          match sep_match prev rest with
          | None => split_loop fuel' (Some c) (piece ++ [c]) rest'
          | Some (w, r) =>
              match piece, w with
              | [], [] => split_loop fuel' (Some c) (piece ++ [c]) rest'
              | _, [] => piece :: split_loop fuel' prev [] r
              | _, _ :: _ => piece :: split_loop fuel' (Some (last w c)) [] r
              end
          end
      end
  end.

(** [s.split(/(?<=[.!?\n\r]+)\s*/)].  Two turns of the loop move past at
    least one code unit, so the fuel given is never exhausted
    ([split_loop_fuel] below). *)
Definition split_sentences (s : jsstring) : list jsstring :=
  split_loop (2 * length s + 2) None [] s.

(** What the split leaves of a subject, pieces joined: whitespace is
    dropped while [t] holds, that is right after a terminator and on to
    the end of the whitespace run there. *)
Fixpoint squeeze (t : bool) (s : jsstring) : jsstring :=
  match s with
  | [] => []
  | c :: s' =>
      if t && is_ws c then squeeze true s'
      else c :: squeeze (is_terminator c) s'
  end.

(** Whether the lookbehind holds after [prev]. *)
Definition after (prev : option jschar) : bool :=
  match prev with Some c => is_terminator c | None => false end.

(** The turns left to [split_loop]: two for each code unit still to
    read, one more while a piece is pending. *)
Definition turns (piece rest : jsstring) : nat :=
  2 * length rest + match piece with [] => 0 | _ :: _ => 1 end.

End JsString.

(** ** The chunker ([getSentencesFromText], [calculateChunks]) *)

Module Chunker.
Import JsString.

Definition MAX_CHARS_PER_REQUEST : nat := 4500.

(** [!text.trim()] *)
Definition blank (text : jsstring) : bool := negb (truthy (trim text)).

(** [s && s.trim().length > 0] *)
Definition keeps (s : jsstring) : bool :=
  truthy s && (0 <? length (trim s)).

Definition getSentencesFromText (text : jsstring) : list jsstring :=
  if negb (truthy text) || blank text then []
  else filter keeps (split_sentences text).

(** [for (let i = 0; i < sentence.length; i += maxChars)
       textChunks.push(sentence.substring(i, i + maxChars))] *)
Fixpoint hardSplit_loop (fuel maxChars : nat) (sentence : jsstring) (i : nat)
  : list jsstring :=
  match fuel with
  | O => []
  | S fuel' =>
      if i <? length sentence
      then substring i (i + maxChars) sentence
           :: hardSplit_loop fuel' maxChars sentence (i + maxChars)
      else []
  end.

Definition hardSplit (maxChars : nat) (sentence : jsstring) : list jsstring :=
  hardSplit_loop (S (length sentence)) maxChars sentence 0.

(** The loop variables of [calculateChunks]. *)
Record packing := { textChunks : list jsstring; currentChunk : jsstring }.

(** [textChunks.push(currentChunk)] when [currentChunk] is truthy. *)
Definition flush (st : packing) : list jsstring :=
  if truthy (currentChunk st)
  then textChunks st ++ [currentChunk st]
  else textChunks st.

(** One turn of [for (const sentence of sentences)]. *)
Definition pack (maxChars : nat) (st : packing) (sentence : jsstring)
  : packing :=
  if maxChars <? length sentence then
    {| textChunks := flush st ++ hardSplit maxChars sentence;
       currentChunk := [] |}
  else if maxChars <? length (currentChunk st ++ sentence) then
    {| textChunks := textChunks st ++ [currentChunk st];
       currentChunk := sentence |}
  else
    {| textChunks := textChunks st;
       currentChunk := currentChunk st ++ sentence |}.

(** [calculateChunks], with the budget the source fixes at
    [MAX_CHARS_PER_REQUEST] as a parameter. *)
Definition calculateChunksWith (maxChars : nat) (text : jsstring)
  : list jsstring :=
  if blank text then []
  else
    flush (fold_left (pack maxChars) (getSentencesFromText text)
                     {| textChunks := []; currentChunk := [] |}).

Definition calculateChunks : jsstring -> list jsstring :=
  calculateChunksWith MAX_CHARS_PER_REQUEST.

(** [dropsWhitespace s r]: [r] is [s] with some of its whitespace code
    units deleted, and nothing else changed. *)
Inductive dropsWhitespace : jsstring -> jsstring -> Prop :=
| dw_nil : dropsWhitespace [] []
| dw_keep c s r : dropsWhitespace s r -> dropsWhitespace (c :: s) (c :: r)
| dw_drop c s r :
    is_ws c = true -> dropsWhitespace s r -> dropsWhitespace (c :: s) r.

(** The code units of [s] that are not whitespace, in order. *)
Definition visible (s : jsstring) : jsstring :=
  filter (fun c => negb (is_ws c)) s.

(** What the sentence units of a text concatenate to: nothing for a blank
    text; otherwise the text without the whitespace runs that follow a
    terminator, and without its leading whitespace when that holds a line
    break. *)
Definition stripped (text : jsstring) : jsstring :=
  if blank text then []
  else
    let (w, r) := span_ws text in
    if existsb is_terminator w then squeeze false r else squeeze false text.

(** The pending piece holds a visible code unit, or is empty before one. *)
Definition settled (piece rest : jsstring) : Prop :=
  existsb (fun c => negb (is_ws c)) piece = true
  \/ (piece = []
      /\ match rest with [] => True | d :: _ => is_ws d = false end).

(** Everything packed so far, in order. *)
Definition content (st : packing) : jsstring :=
  concat (textChunks st) ++ currentChunk st.

(** The loop invariant behind the size bound: every closed chunk and the
    running chunk fit the budget. *)
Definition fits (maxChars : nat) (st : packing) : Prop :=
  Forall (fun c => length c <= maxChars) (textChunks st)
  /\ length (currentChunk st) <= maxChars.

End Chunker.

(** ** Audio buffers ([src/utils/audioUtils.ts]) and segments ([src/types.ts]) *)

Module Audio.
Import JsString.

(** The part of a Web Audio [AudioBuffer] the program reads: [length] is
    the number of frames, [channelData] the samples of each channel. *)
Record AudioBuffer := {
  numberOfChannels : nat;
  length : nat;
  sampleRate : Q;
  channelData : list (list Q)
}.

(** [ctx.createBuffer(numberOfChannels, length, sampleRate)]: silence. *)
Definition createBuffer (channels len : nat) (rate : Q) : AudioBuffer :=
  {| numberOfChannels := channels; length := len; sampleRate := rate;
     channelData := repeat (repeat 0%Q len) channels |}.

(** [buffer.duration], in seconds. *)
Definition audioDuration (b : AudioBuffer) : Q :=
  (inject_Z (Z.of_nat (length b)) / sampleRate b)%Q.

Definition getChannelData (b : AudioBuffer) (channel : nat) : list Q :=
  nth channel (channelData b) [].

(** [new Int16Array(data.buffer)]: little-endian signed 16-bit values;
    a [RangeError] ([None]) when the byte length is odd. *)
Fixpoint int16Array (data : list Z) : option (list Z) :=
  match data with
  | [] => Some []
  | lo :: hi :: data' =>
      let v := (lo + 256 * hi)%Z in
      let v := if (32768 <=? v)%Z then (v - 65536)%Z else v in
      option_map (cons v) (int16Array data')
  | [_] => None
  end.

(** [decodeAudioData]: mono, 24000 Hz, each sample divided by 32768. *)
Definition decodeAudioData (data : list Z) : option AudioBuffer :=
  match int16Array data with
  | Some dataInt16 =>
      Some {| numberOfChannels := 1;
              length := List.length dataInt16;
              sampleRate := 24000%Q;
              channelData := [map (fun v => inject_Z v / 32768)%Q dataInt16] |}
  | None => None
  end.

(** [concatAudioBuffers(buffers, ctx)] with [ctx.sampleRate = ctxRate]. *)
Definition concatAudioBuffers (buffers : list AudioBuffer) (ctxRate : Q)
  : AudioBuffer :=
  match buffers with
  | [] => createBuffer 1 1 ctxRate
  | first :: _ =>
      {| numberOfChannels := numberOfChannels first;
         length := fold_left (fun acc b => acc + length b) buffers 0;
         sampleRate := sampleRate first;
         channelData :=
           map (fun channel =>
                  concat (map (fun b => getChannelData b channel) buffers))
               (seq 0 (numberOfChannels first)) |}
  end.

Record PageRange := { from : nat; to : nat }.

Record AudioSegment := {
  id : jsstring;
  text : jsstring;
  audio : AudioBuffer;
  pageRange : PageRange
}.

Definition jsstring_eqb (a b : jsstring) : bool :=
  if list_eq_dec N.eq_dec a b then true else false.

(** [a?.id === b.id] for an optional segment [a]. *)
Definition sameId (a : option AudioSegment) (b : AudioSegment) : bool :=
  match a with
  | Some a' => jsstring_eqb (id a') (id b)
  | None => false
  end.

(** Decimal text of a number, as a template literal prints an integer. *)
Definition decimal (n : N) : jsstring :=
  lit (NilEmpty.string_of_uint (N.to_uint n)).

End Audio.

(** ** The playback engine ([src/App.tsx]) *)

Module Playback.
Import JsString Audio.
Local Open Scope Q_scope.

(** An [AudioBufferSourceNode] the main effect created, with what its
    [onended] closure captured: the [duration] of the render that ran the
    effect.  [startedAt] is the offset passed to [source.start]. *)
Record SourceNode := {
  nodeId : nat;
  buffer : AudioBuffer;
  nodePlaybackRate : Q;
  startedAt : Q;
  closureDuration : Q
}.

(** The state of [App] and its refs, as they stand after a render.
    [playbackRateRef], [audioSegmentsRef] and [currentSegmentRef] are
    assigned from the state on every render, so they are read as the
    fields [playbackRate], [audioSegments] and [currentSegment].
    [audioContextRef] stands for the audio context and its gain node,
    which the mount effect creates together.  [animationFrameRef] holds
    the [duration] captured by the scheduled [tick] closure.  The book
    and the theme are left out. *)
Record App := {
  audioSegments : list AudioSegment;
  currentSegment : option AudioSegment;
  isPlaying : bool;
  error : option jsstring;
  currentPage : nat;
  duration : Q;
  currentTime : Q;
  playbackRate : Q;
  audioContextRef : bool;
  sourceNodeRef : option SourceNode;
  animationFrameRef : option Q;
  startOffsetRef : Q;
  contextStartTimeRef : Q;
  nodesCreated : nat
}.

Definition setAudioSegments (v : list AudioSegment) (st : App) : App :=
  {| audioSegments := v; currentSegment := currentSegment st;
     isPlaying := isPlaying st; error := error st;
     currentPage := currentPage st; duration := duration st;
     currentTime := currentTime st; playbackRate := playbackRate st;
     audioContextRef := audioContextRef st;
     sourceNodeRef := sourceNodeRef st;
     animationFrameRef := animationFrameRef st;
     startOffsetRef := startOffsetRef st;
     contextStartTimeRef := contextStartTimeRef st;
     nodesCreated := nodesCreated st |}.

Definition setCurrentSegment (v : option AudioSegment) (st : App) : App :=
  {| audioSegments := audioSegments st; currentSegment := v;
     isPlaying := isPlaying st; error := error st;
     currentPage := currentPage st; duration := duration st;
     currentTime := currentTime st; playbackRate := playbackRate st;
     audioContextRef := audioContextRef st;
     sourceNodeRef := sourceNodeRef st;
     animationFrameRef := animationFrameRef st;
     startOffsetRef := startOffsetRef st;
     contextStartTimeRef := contextStartTimeRef st;
     nodesCreated := nodesCreated st |}.

Definition setIsPlaying (v : bool) (st : App) : App :=
  {| audioSegments := audioSegments st;
     currentSegment := currentSegment st; isPlaying := v;
     error := error st; currentPage := currentPage st;
     duration := duration st; currentTime := currentTime st;
     playbackRate := playbackRate st;
     audioContextRef := audioContextRef st;
     sourceNodeRef := sourceNodeRef st;
     animationFrameRef := animationFrameRef st;
     startOffsetRef := startOffsetRef st;
     contextStartTimeRef := contextStartTimeRef st;
     nodesCreated := nodesCreated st |}.

Definition setError (v : option jsstring) (st : App) : App :=
  {| audioSegments := audioSegments st;
     currentSegment := currentSegment st; isPlaying := isPlaying st;
     error := v; currentPage := currentPage st; duration := duration st;
     currentTime := currentTime st; playbackRate := playbackRate st;
     audioContextRef := audioContextRef st;
     sourceNodeRef := sourceNodeRef st;
     animationFrameRef := animationFrameRef st;
     startOffsetRef := startOffsetRef st;
     contextStartTimeRef := contextStartTimeRef st;
     nodesCreated := nodesCreated st |}.

Definition setCurrentPage (v : nat) (st : App) : App :=
  {| audioSegments := audioSegments st;
     currentSegment := currentSegment st; isPlaying := isPlaying st;
     error := error st; currentPage := v; duration := duration st;
     currentTime := currentTime st; playbackRate := playbackRate st;
     audioContextRef := audioContextRef st;
     sourceNodeRef := sourceNodeRef st;
     animationFrameRef := animationFrameRef st;
     startOffsetRef := startOffsetRef st;
     contextStartTimeRef := contextStartTimeRef st;
     nodesCreated := nodesCreated st |}.

Definition setDuration (v : Q) (st : App) : App :=
  {| audioSegments := audioSegments st;
     currentSegment := currentSegment st; isPlaying := isPlaying st;
     error := error st; currentPage := currentPage st; duration := v;
     currentTime := currentTime st; playbackRate := playbackRate st;
     audioContextRef := audioContextRef st;
     sourceNodeRef := sourceNodeRef st;
     animationFrameRef := animationFrameRef st;
     startOffsetRef := startOffsetRef st;
     contextStartTimeRef := contextStartTimeRef st;
     nodesCreated := nodesCreated st |}.

Definition setCurrentTime (v : Q) (st : App) : App :=
  {| audioSegments := audioSegments st;
     currentSegment := currentSegment st; isPlaying := isPlaying st;
     error := error st; currentPage := currentPage st;
     duration := duration st; currentTime := v;
     playbackRate := playbackRate st;
     audioContextRef := audioContextRef st;
     sourceNodeRef := sourceNodeRef st;
     animationFrameRef := animationFrameRef st;
     startOffsetRef := startOffsetRef st;
     contextStartTimeRef := contextStartTimeRef st;
     nodesCreated := nodesCreated st |}.

Definition setPlaybackRate (v : Q) (st : App) : App :=
  {| audioSegments := audioSegments st;
     currentSegment := currentSegment st; isPlaying := isPlaying st;
     error := error st; currentPage := currentPage st;
     duration := duration st; currentTime := currentTime st;
     playbackRate := v; audioContextRef := audioContextRef st;
     sourceNodeRef := sourceNodeRef st;
     animationFrameRef := animationFrameRef st;
     startOffsetRef := startOffsetRef st;
     contextStartTimeRef := contextStartTimeRef st;
     nodesCreated := nodesCreated st |}.

Definition set_sourceNodeRef (v : option SourceNode) (st : App) : App :=
  {| audioSegments := audioSegments st;
     currentSegment := currentSegment st; isPlaying := isPlaying st;
     error := error st; currentPage := currentPage st;
     duration := duration st; currentTime := currentTime st;
     playbackRate := playbackRate st;
     audioContextRef := audioContextRef st; sourceNodeRef := v;
     animationFrameRef := animationFrameRef st;
     startOffsetRef := startOffsetRef st;
     contextStartTimeRef := contextStartTimeRef st;
     nodesCreated := nodesCreated st |}.

Definition set_animationFrameRef (v : option Q) (st : App) : App :=
  {| audioSegments := audioSegments st;
     currentSegment := currentSegment st; isPlaying := isPlaying st;
     error := error st; currentPage := currentPage st;
     duration := duration st; currentTime := currentTime st;
     playbackRate := playbackRate st;
     audioContextRef := audioContextRef st;
     sourceNodeRef := sourceNodeRef st; animationFrameRef := v;
     startOffsetRef := startOffsetRef st;
     contextStartTimeRef := contextStartTimeRef st;
     nodesCreated := nodesCreated st |}.

Definition set_startOffsetRef (v : Q) (st : App) : App :=
  {| audioSegments := audioSegments st;
     currentSegment := currentSegment st; isPlaying := isPlaying st;
     error := error st; currentPage := currentPage st;
     duration := duration st; currentTime := currentTime st;
     playbackRate := playbackRate st;
     audioContextRef := audioContextRef st;
     sourceNodeRef := sourceNodeRef st;
     animationFrameRef := animationFrameRef st; startOffsetRef := v;
     contextStartTimeRef := contextStartTimeRef st;
     nodesCreated := nodesCreated st |}.

Definition set_contextStartTimeRef (v : Q) (st : App) : App :=
  {| audioSegments := audioSegments st;
     currentSegment := currentSegment st; isPlaying := isPlaying st;
     error := error st; currentPage := currentPage st;
     duration := duration st; currentTime := currentTime st;
     playbackRate := playbackRate st;
     audioContextRef := audioContextRef st;
     sourceNodeRef := sourceNodeRef st;
     animationFrameRef := animationFrameRef st;
     startOffsetRef := startOffsetRef st; contextStartTimeRef := v;
     nodesCreated := nodesCreated st |}.

Definition set_nodesCreated (v : nat) (st : App) : App :=
  {| audioSegments := audioSegments st;
     currentSegment := currentSegment st; isPlaying := isPlaying st;
     error := error st; currentPage := currentPage st;
     duration := duration st; currentTime := currentTime st;
     playbackRate := playbackRate st;
     audioContextRef := audioContextRef st;
     sourceNodeRef := sourceNodeRef st;
     animationFrameRef := animationFrameRef st;
     startOffsetRef := startOffsetRef st;
     contextStartTimeRef := contextStartTimeRef st; nodesCreated := v |}.

(** The state after the mount effect. *)
Definition mounted : App :=
  {| audioSegments := []; currentSegment := None; isPlaying := false;
     error := None; currentPage := 1%nat; duration := 0; currentTime := 0;
     playbackRate := 1; audioContextRef := true; sourceNodeRef := None;
     animationFrameRef := None; startOffsetRef := 0;
     contextStartTimeRef := 0; nodesCreated := 0%nat |}.

(** *** Audio logic *)

Definition cleanupAudio (st : App) : App :=
  set_animationFrameRef None (set_sourceNodeRef None st).

(** [segments.findIndex(pred)], with [None] for [-1]. *)
Fixpoint findIndex (A : Type) (pred : A -> bool) (l : list A) : option nat :=
  match l with
  | [] => None
  | x :: l' => if pred x then Some 0%nat else option_map S (findIndex pred l')
  end.

Definition handleTrackEnd (st : App) : App :=
  let segments := audioSegments st in
  let current := currentSegment st in
  match findIndex (fun s => sameId current s) segments with
  | Some currentIndex =>
      if (Z.of_nat currentIndex <? Z.of_nat (List.length segments) - 1)%Z
      then setCurrentSegment (nth_error segments (currentIndex + 1)) st
      else setIsPlaying false st
  | None => setIsPlaying false st
  end.

(** The effect on [playbackRate]. *)
Definition rateEffect (st : App) : App :=
  match sourceNodeRef st with
  | Some node =>
      set_sourceNodeRef
        (Some {| nodeId := nodeId node; buffer := buffer node;
                 nodePlaybackRate := playbackRate st;
                 startedAt := startedAt node;
                 closureDuration := closureDuration node |}) st
  | None => st
  end.

(** One animation frame: the [tick] closure scheduled by the main effect,
    run when the audio clock reads [now]. *)
Definition tick (now : Q) (st : App) : App :=
  match animationFrameRef st with
  | Some closedDuration =>
      let currentRate := playbackRate st in
      let playbackTime := (now - contextStartTimeRef st) * currentRate in
      setCurrentTime (Qmin (startOffsetRef st + playbackTime) closedDuration) st
  | None => st
  end.

(** The [onended] handler the main effect attached to [source], run when
    the audio clock reads [now]. *)
Definition onended (source : SourceNode) (now : Q) (st : App) : App :=
  match sourceNodeRef st with
  | Some node =>
      if (nodeId node =? nodeId source)%nat then
        let finalTime :=
          startOffsetRef st
          + (now - contextStartTimeRef st) * playbackRate st in
        let hasCompleted :=
          Qle_bool (closureDuration source - (1 # 10)) finalTime in
        if hasCompleted then handleTrackEnd st else setIsPlaying false st
      else st
  | None => st
  end.

(** The main playback effect, run when the audio clock reads [now]. *)
Definition playbackEffect (now : Q) (st : App) : App :=
  match currentSegment st with
  | Some segment =>
      if negb (audioContextRef st) then
        setCurrentTime 0 (setDuration 0 (cleanupAudio st))
      else if isPlaying st then
        let st := cleanupAudio st in
        let source :=
          {| nodeId := nodesCreated st; buffer := audio segment;
             nodePlaybackRate := playbackRate st;
             startedAt := startOffsetRef st;
             closureDuration := duration st |} in
        set_animationFrameRef (Some (duration st))
          (set_contextStartTimeRef now
             (set_sourceNodeRef (Some source)
                (set_nodesCreated (S (nodesCreated st)) st)))
      else
        match sourceNodeRef st with
        | Some _ =>
            let currentRate := playbackRate st in
            let elapsed := (now - contextStartTimeRef st) * currentRate in
            cleanupAudio
              (set_startOffsetRef
                 (Qmin (startOffsetRef st + elapsed) (duration st)) st)
        | None => st
        end
  | None => setCurrentTime 0 (setDuration 0 (cleanupAudio st))
  end.

(** The effect on [currentSegment]. *)
Definition segmentEffect (st : App) : App :=
  match currentSegment st with
  | Some segment =>
      setCurrentPage (from (pageRange segment))
        (set_startOffsetRef 0
           (setCurrentTime 0 (setDuration (audioDuration (audio segment)) st)))
  | None => st
  end.

(** *** Rendering

    After a handler has run, React renders and runs, in the order of
    their declaration, the effects whose dependencies differ from the
    previous render.  A segment is identified by its [id]. *)

Definition segmentChanged (a b : option AudioSegment) : bool :=
  match a, b with
  | None, None => false
  | _, Some b' => negb (sameId a b')
  | Some _, None => true
  end.

Definition playbackDepsChanged (prev st : App) : bool :=
  segmentChanged (currentSegment prev) (currentSegment st)
  || negb (Bool.eqb (isPlaying prev) (isPlaying st))
  || negb (Qeq_bool (duration prev) (duration st)).

Definition commit (now : Q) (prev st : App) : App :=
  let st1 :=
    if negb (Qeq_bool (playbackRate prev) (playbackRate st))
    then rateEffect st else st in
  let st2 :=
    if playbackDepsChanged prev st then playbackEffect now st1 else st1 in
  if segmentChanged (currentSegment prev) (currentSegment st)
  then segmentEffect st2 else st2.

(** An effect that sets state schedules another render; the effects
    only set [duration], [currentTime] and [currentPage], so the third
    render changes nothing more. *)
Definition render (now : Q) (prev st : App) : App :=
  let st1 := commit now prev st in
  let st2 := commit now st st1 in
  commit now st1 st2.

(** *** UI handlers *)

Definition handlePlaybackRequest (segmentToPlay : AudioSegment) (st : App)
  : App :=
  if sameId (currentSegment st) segmentToPlay
  then setIsPlaying (negb (isPlaying st)) st
  else setIsPlaying true (setCurrentSegment (Some segmentToPlay) st).

Definition handleMainPlayPause (newIsPlayingState : bool) (st : App) : App :=
  match currentSegment st with
  | Some _ => setIsPlaying newIsPlayingState st
  | None =>
      match audioSegments st with
      | first :: _ => setIsPlaying true (setCurrentSegment (Some first) st)
      | [] => st
      end
  end.

(** [handleAutoplayFirstSegment] is memoised on [isPlaying] and
    [currentSegment]: the callback tests the values of the render that
    created it, given here as [closedIsPlaying] and [closedSegment]. *)
Definition handleAutoplayFirstSegment (closedIsPlaying : bool)
           (closedSegment : option AudioSegment) (segment : AudioSegment)
           (st : App) : App :=
  match closedIsPlaying, closedSegment with
  | false, None => setIsPlaying true (setCurrentSegment (Some segment) st)
  | _, _ => st
  end.

(** [handleSeek], up to the timer it may set; [seekTimeout] is the
    callback of that timer. *)
Definition handleSeek (newTime : Q) (st : App) : App :=
  if negb (audioContextRef st) then st
  else
    let st := set_startOffsetRef newTime (setCurrentTime newTime st) in
    if isPlaying st then setIsPlaying false st else st.

Definition seekTimeout (st : App) : App := setIsPlaying true st.

Definition handlePlaybackRateChange (newRate : Q) (st : App) : App :=
  setPlaybackRate newRate st.

Definition resetState (st : App) : App :=
  setCurrentPage 1
    (setIsPlaying false
       (setError None (setCurrentSegment None (setAudioSegments [] st)))).

(** *** Events of the running page

    Each event is a handler followed by the render it causes, at the
    reading [now] of the audio clock. *)
Inductive Event :=
| ClickSegment (segment : AudioSegment)
| ClickPlayPause
| SeekTo (newTime : Q)
| SetRate (newRate : Q)
| AnimationFrame
| SourceEnded (source : SourceNode).

Definition dispatch (now : Q) (ev : Event) (st : App) : App :=
  match ev with
  | ClickSegment segment => render now st (handlePlaybackRequest segment st)
  | ClickPlayPause =>
      render now st (handleMainPlayPause (negb (isPlaying st)) st)
  | SeekTo newTime =>
      let wasPlaying := isPlaying st && audioContextRef st in
      let st1 := render now st (handleSeek newTime st) in
      if wasPlaying then render now st1 (seekTimeout st1) else st1
  | SetRate newRate => render now st (handlePlaybackRateChange newRate st)
  | AnimationFrame => render now st (tick now st)
  | SourceEnded source => render now st (onended source now st)
  end.

(** *** Vocabulary of the statements *)

(** The position the engine computes from its anchor: [finalTime] in
    [onended], and the value [tick] clamps. *)
Definition computedPosition (now : Q) (st : App) : Q :=
  startOffsetRef st + (now - contextStartTimeRef st) * playbackRate st.

(** The test [hasCompleted] of [onended]. *)
Definition naturalEnd (now : Q) (st : App) : Prop :=
  duration st - (1 # 10) <= computedPosition now st.

(** [st] plays [cur] through the source node [source], created by the
    main effect in the render that established [duration st]. *)
Definition rendering (st : App) (cur : AudioSegment) (source : SourceNode)
  : Prop :=
  audioContextRef st = true /\ isPlaying st = true
  /\ currentSegment st = Some cur /\ sourceNodeRef st = Some source
  /\ closureDuration source = duration st.

(** The index [handleTrackEnd] finds for the current segment. *)
Definition currentIndex (st : App) : option nat :=
  findIndex (fun s => sameId (currentSegment st) s) (audioSegments st).

(** [t] clamped to [[lo, hi]]. *)
Definition clamp (lo hi t : Q) : Q := Qmax lo (Qmin t hi).

End Playback.

(** ** The generation pipeline (the audio controller component) *)

Module Generation.
Import JsString Chunker Audio Playback.

Definition SECONDS_PER_CHUNK : Q := 12 # 10.

Record Book := { title : jsstring; pages : list jsstring }.

Record GenerationStatus := {
  isGenerating : bool;
  progress : nat;
  total : nat;
  message : jsstring;
  estimatedTime : Q
}.

Definition idleStatus : GenerationStatus :=
  {| isGenerating := false; progress := 0; total := 0; message := [];
     estimatedTime := 0 |}.

(** The state of the controller, its ref [isCancelledRef], and the state
    of [App] it reads and sets through its props.  [fromPage] and
    [toPage] are a positive number or the empty string ([None]). *)
Record World := {
  app : App;
  fromPage : option nat;
  toPage : option nat;
  generationStatus : GenerationStatus;
  isCancelledRef : bool
}.

Definition set_app (v : App) (w : World) : World :=
  {| app := v; fromPage := fromPage w; toPage := toPage w;
     generationStatus := generationStatus w;
     isCancelledRef := isCancelledRef w |}.

Definition setGenerationStatus (v : GenerationStatus) (w : World) : World :=
  {| app := app w; fromPage := fromPage w; toPage := toPage w;
     generationStatus := v; isCancelledRef := isCancelledRef w |}.

Definition set_isCancelledRef (v : bool) (w : World) : World :=
  {| app := app w; fromPage := fromPage w; toPage := toPage w;
     generationStatus := generationStatus w; isCancelledRef := v |}.

(** [setGenerationStatus(prev => ({ ...prev, message }))] *)
Definition setMessage (m : jsstring) (w : World) : World :=
  let prev := generationStatus w in
  setGenerationStatus
    {| isGenerating := isGenerating prev; progress := progress prev;
       total := total prev; message := m;
       estimatedTime := estimatedTime prev |} w.

(** [setGenerationStatus(prev => ({ ...prev, progress: prev.progress + 1 }))] *)
Definition incrementProgress (w : World) : World :=
  let prev := generationStatus w in
  setGenerationStatus
    {| isGenerating := isGenerating prev; progress := progress prev + 1;
       total := total prev; message := message prev;
       estimatedTime := estimatedTime prev |} w.

(** The callback of the one-second interval the countdown effect sets
    while [isGenerating && estimatedTime > 0]. *)
Definition countdown (w : World) : World :=
  let prev := generationStatus w in
  if isGenerating prev && negb (Qle_bool (estimatedTime prev) 0) then
    setGenerationStatus
      {| isGenerating := isGenerating prev; progress := progress prev;
         total := total prev; message := message prev;
         estimatedTime := Qmax 0 (estimatedTime prev - 1) |} w
  else w.

Definition handleStop (w : World) : World :=
  setMessage (lit "Cancelling generation...") (set_isCancelledRef true w).

(** *** What the run meets while it awaits

    A value a promise rejects with: an [Error] with its message, or
    something that is not an [Error]. *)
Inductive Thrown :=
| ErrorObject (msg : jsstring)
| OtherValue.

(** The outcome of [generateSpeech(chunk)] followed by [decode]: the raw
    bytes of the payload, or a rejection. *)
Inductive Reply :=
| Payload (bytes : list Z)
| Rejects (e : Thrown).

(** What happens on the page while the calls for the chunks of a page
    are awaited. *)
Inductive PageEvent :=
| Player (ev : Playback.Event)
| ClickStop.

(** The await of one page: the events delivered before the run resumes,
    each with the reading of the audio clock, the reply to each chunk
    (by index and text), the reading of the audio clock at resumption
    and the value of [Date.now()] there. *)
Record Await := {
  during : list (Q * PageEvent);
  speech : nat -> jsstring -> Reply;
  resumedAt : Q;
  dateNow : N
}.

Definition deliver (w : World) (e : Q * PageEvent) : World :=
  match snd e with
  | Player ev => set_app (dispatch (fst e) ev (app w)) w
  | ClickStop =>
      if isGenerating (generationStatus w) then handleStop w else w
  end.

(** [Promise.all]: the values in order, or the first rejection. *)
Fixpoint promiseAll (A : Type) (l : list (A + Thrown)) : list A + Thrown :=
  match l with
  | [] => inl []
  | inl a :: l' =>
      match promiseAll l' with
      | inl r => inl (a :: r)
      | inr e => inr e
      end
  | inr e :: _ => inr e
  end.

Fixpoint mapi_from (A B : Type) (f : nat -> A -> B) (i : nat) (l : list A)
  : list B :=
  match l with
  | [] => []
  | a :: l' => f i a :: mapi_from f (S i) l'
  end.

Definition replyResult (r : Reply) : list Z + Thrown :=
  match r with
  | Payload bytes => inl bytes
  | Rejects e => inr e
  end.

(** The message of the [RangeError] of [new Int16Array] on a buffer of
    odd length. *)
Definition rangeErrorMessage : jsstring :=
  lit "byte length of Int16Array should be a multiple of 2".

Definition decodeResult (bytes : list Z) : AudioBuffer + Thrown :=
  match decodeAudioData bytes with
  | Some b => inl b
  | None => inr (ErrorObject rangeErrorMessage)
  end.

(** The message of the [TypeError] of [undefined.trim()]. *)
Definition typeErrorMessage : jsstring :=
  lit "Cannot read properties of undefined (reading 'trim')".

(** *** [handleGenerate] *)

(** [Number(fromPage)] *)
Definition Number (v : option nat) : nat :=
  match v with Some n => n | None => 0 end.

Definition invalidRange (book : Book) (from to : nat) : bool :=
  (to <? from) || (from <? 1) || (List.length (pages book) <? to).

(** How one turn of the page loop ends. *)
Inductive Exit :=
| Continue
| Break
| Throw (e : Thrown).

(** The callbacks and values the running [handleGenerate] closed over
    when it was called: the book, the first page of the range and the
    [isPlaying] and [currentSegment] inside [onAutoplayFirstSegment]. *)
Record Closure := {
  book : Book;
  firstPage : nat;
  closedIsPlaying : bool;
  closedSegment : option AudioSegment
}.

Definition segmentId (now : N) (pageNum : nat) : jsstring :=
  lit "segment-" ++ decimal now ++ lit "-" ++ decimal (N.of_nat pageNum).

(** The body of [for (let pageNum = from; pageNum <= to; pageNum++)]. *)
Definition processPage (c : Closure) (schedule : nat -> Await)
           (pageNum : nat) (w : World) : World * Exit :=
  if isCancelledRef w then (w, Break)
  else
    let pageIndex := pageNum - 1 in
    let w :=
      setMessage (lit "Processing page " ++ decimal (N.of_nat pageNum)
                    ++ lit "...") w in
    match nth_error (pages (book c)) pageIndex with
    | None => (w, Throw (ErrorObject typeErrorMessage))
    | Some textToProcess =>
        if blank textToProcess then (incrementProgress w, Continue)
        else
          let textChunks := calculateChunks textToProcess in
          let a := schedule pageNum in
          let w := fold_left deliver (during a) w in
          match promiseAll
                  (mapi_from (fun i chunk => replyResult (speech a i chunk))
                             0 textChunks) with
          | inr e => (w, Throw e)
          | inl base64AudioChunks =>
              match promiseAll (map decodeResult base64AudioChunks) with
              | inr e => (w, Throw e)
              | inl audioBuffers =>
                  if isCancelledRef w then (w, Break)
                  else
                    match audioBuffers with
                    | [] => (incrementProgress w, Continue)
                    | first :: more =>
                        let combinedAudioBuffer :=
                          match more with
                          | [] => first
                          | _ :: _ => concatAudioBuffers audioBuffers 24000
                          end in
                        let newSegment :=
                          {| id := segmentId (dateNow a) pageNum;
                             text := textToProcess;
                             audio := combinedAudioBuffer;
                             pageRange := {| from := pageNum; to := pageNum |}
                          |} in
                        let st :=
                          setAudioSegments
                            (audioSegments (app w) ++ [newSegment]) (app w) in
                        let st :=
                          if pageNum =? firstPage c
                          then handleAutoplayFirstSegment
                                 (closedIsPlaying c) (closedSegment c)
                                 newSegment st
                          else st in
                        (incrementProgress
                           (set_app (render (resumedAt a) (app w) st) w),
                         Continue)
                    end
              end
          end
    end.

(** The page loop over the pages still to visit. *)
Fixpoint pageLoop (c : Closure) (schedule : nat -> Await)
         (pageNums : list nat) (w : World) : World * Exit :=
  match pageNums with
  | [] => (w, Continue)
  | pageNum :: rest =>
      match processPage c schedule pageNum w with
      | (w', Continue) => pageLoop c schedule rest w'
      | stopped => stopped
      end
  end.

(** The number of chunks of the pages of the range, for the estimate. *)
Definition totalChunks (book : Book) (pageNums : list nat) : nat :=
  fold_left
    (fun acc i => acc + List.length (calculateChunks (nth (i - 1) (pages book) [])))
    pageNums 0.

(** From the range check to the entry of the [try] block. *)
Definition startRun (book : Book) (from to : nat) (w : World) : World :=
  let w := set_app (setError None (app w)) (set_isCancelledRef false w) in
  let initialEstimate :=
    (inject_Z (Z.of_nat (totalChunks book (seq from (to - from + 1))))
     * SECONDS_PER_CHUNK)%Q in
  setGenerationStatus
    {| isGenerating := true; progress := 0; total := to - from + 1;
       message := lit "Starting generation...";
       estimatedTime := initialEstimate |} w.

Definition cancelledMessage : jsstring :=
  lit "Audio generation was cancelled by the user.".

(** The [catch] and [finally] blocks. *)
Definition finishRun (r : World * Exit) : World :=
  let (w, exit) := r in
  let w :=
    match exit with
    | Throw err =>
        if isCancelledRef w then w
        else
          set_app
            (setError
               (Some match err with
                     | ErrorObject msg => msg
                     | OtherValue =>
                         lit "An unknown error occurred during audio generation."
                     end)
               (app w)) w
    | _ => w
    end in
  let w :=
    if isCancelledRef w
    then set_app (setError (Some cancelledMessage) (app w)) w
    else w in
  setGenerationStatus idleStatus (set_isCancelledRef false w).

Definition closureOf (book : Book) (from : nat) (w : World) : Closure :=
  {| book := book; firstPage := from;
     closedIsPlaying := isPlaying (app w);
     closedSegment := currentSegment (app w) |}.

(** The state when the loop is left, before [catch] and [finally]. *)
Definition runLoop (book : Book) (schedule : nat -> Await) (w : World)
  : World * Exit :=
  let from := Number (fromPage w) in
  let to := Number (toPage w) in
  pageLoop (closureOf book from w) schedule (seq from (to - from + 1))
           (startRun book from to w).

Definition handleGenerate (book : Book) (schedule : nat -> Await) (w : World)
  : World :=
  let from := Number (fromPage w) in
  let to := Number (toPage w) in
  if invalidRange book from to
  then set_app (setError (Some (lit "Invalid page range.")) (app w)) w
  else finishRun (runLoop book schedule w).

(** *** Vocabulary of the statements *)

(** Every call for a chunk is answered by a payload that decodes. *)
Definition succeeds (a : Await) : Prop :=
  forall i chunk, exists bytes buf,
    speech a i chunk = Payload bytes /\ decodeAudioData bytes = Some buf.

(** The call for some chunk of [text] is rejected. *)
Definition failsOn (a : Await) (text : jsstring) : Prop :=
  exists i chunk e,
    nth_error (calculateChunks text) i = Some chunk
    /\ speech a i chunk = Rejects e.

(** The stop button is not clicked during the await. *)
Definition undisturbed (a : Await) : Prop :=
  Forall (fun e => snd e <> ClickStop) (during a).

(** The stop button is clicked during the await. *)
Definition stopped (a : Await) : Prop :=
  exists now, In (now, ClickStop) (during a).

(** What the events of an await keep: the playlist and the counters of
    the status; a cancellation once signalled stays. *)
Definition preserves (w w' : World) : Prop :=
  audioSegments (app w') = audioSegments (app w)
  /\ isGenerating (generationStatus w') = isGenerating (generationStatus w)
  /\ progress (generationStatus w') = progress (generationStatus w)
  /\ total (generationStatus w') = total (generationStatus w)
  /\ (isCancelledRef w = true -> isCancelledRef w' = true).

(** Whether the closure lets page [pageNum] autoplay: it is the first
    page of the range, and the callback closed over [isPlaying = false]
    and no current segment. *)
Definition autoplays (c : Closure) (pageNum : nat) : bool :=
  (pageNum =? firstPage c) && negb (closedIsPlaying c)
  && match closedSegment c with None => true | Some _ => false end.

(** A controller that is not generating, over a given [App]. *)
Definition idle (st : App) (fromPage toPage : option nat) : World :=
  {| app := st; fromPage := fromPage; toPage := toPage;
     generationStatus := idleStatus; isCancelledRef := false |}.

End Generation.

(** ** Concrete sessions *)

Module Scenario.
Import JsString Chunker Audio Playback Generation.
Local Open Scope Q_scope.

(** A fifth of a second of audio at 24000 Hz. *)
Definition fifthOfSecond : AudioBuffer := createBuffer 1 4800 24000.

Definition segmentOf (pageNum : nat) : AudioSegment :=
  {| id := segmentId 1762000000000 pageNum;
     text := lit "Some text.";
     audio := fifthOfSecond;
     pageRange := {| from := pageNum; to := pageNum |} |}.

(** A playlist of two segments, none selected. *)
Definition loaded : App := setAudioSegments [segmentOf 1; segmentOf 2] mounted.

(** The play button is clicked when the audio clock reads 0: the first
    segment is selected and plays. *)
Definition playingFirst : App := dispatch 0 ClickPlayPause loaded.

(** ... and paused again when the clock reads 1/10. *)
Definition pausedFirst : App := dispatch (1 # 10) ClickPlayPause playingFirst.

(** The second, last segment is started at clock 0; the rate is 2 until
    the clock reads 1/20 and 1 from there on, so that its 0.2 seconds of
    audio are rendered when the clock reads 3/20. *)
Definition playingLast : App :=
  dispatch (1 # 20) (SetRate 1)
    (dispatch 0 (SetRate 2) (dispatch 0 (ClickSegment (segmentOf 2)) loaded)).

(** The source node a state holds. *)
Definition sourceOf (st : App) : SourceNode :=
  match sourceNodeRef st with
  | Some node => node
  | None =>
      {| nodeId := 0; buffer := fifthOfSecond; nodePlaybackRate := 1;
         startedAt := 0; closureDuration := 0 |}
  end.

(** *** Generation runs *)

(** A book of five pages; the first and the fourth are blank. *)
Definition novel : Book :=
  {| title := lit "Novel";
     pages := [lit "   "; lit "Second page. It has two sentences.";
               lit "Third page."; lit " "; lit "Fifth page!"] |}.

(** Two frames of audio for every chunk. *)
Definition twoFrames : Reply := Payload [0; 16; 0; 240]%Z.

(** Every call succeeds and nothing happens on the page meanwhile. *)
Definition quiet : nat -> Await :=
  fun pageNum =>
    {| during := []; speech := fun _ _ => twoFrames;
       resumedAt := inject_Z (Z.of_nat pageNum);
       dateNow := (1762000000000 + N.of_nat pageNum)%N |}.

(** The calls for [page] are rejected. *)
Definition failingAt (page : nat) : nat -> Await :=
  fun pageNum =>
    {| during := [];
       speech := fun _ _ =>
                   if pageNum =? page
                   then Rejects (ErrorObject (lit "503 Service Unavailable"))
                   else twoFrames;
       resumedAt := inject_Z (Z.of_nat pageNum);
       dateNow := (1762000000000 + N.of_nat pageNum)%N |}.

(** The stop button is clicked while the calls for [page] are awaited. *)
Definition stoppedAt (page : nat) : nat -> Await :=
  fun pageNum =>
    {| during := if pageNum =? page
                 then [(inject_Z (Z.of_nat pageNum), ClickStop)] else [];
       speech := fun _ _ => twoFrames;
       resumedAt := inject_Z (Z.of_nat pageNum);
       dateNow := (1762000000000 + N.of_nat pageNum)%N |}.

(** The play button is clicked while the calls for [page] are awaited. *)
Definition playClickedAt (page : nat) : nat -> Await :=
  fun pageNum =>
    {| during := if pageNum =? page
                 then [(inject_Z (Z.of_nat pageNum), Player ClickPlayPause)]
                 else [];
       speech := fun _ _ => twoFrames;
       resumedAt := inject_Z (Z.of_nat pageNum) + (1 # 2);
       dateNow := (1762000000000 + N.of_nat pageNum)%N |}.

(** A fresh session asked for pages 1 to 2: page 1 is blank, so the run
    leaves one segment, for page 2, and selects nothing. *)
Definition afterFirstRun : World :=
  handleGenerate novel quiet (idle mounted (Some 1%nat) (Some 2%nat)).

(** The same session, now asked for page 3 alone. *)
Definition secondRequest : World :=
  idle (app afterFirstRun) (Some 3%nat) (Some 3%nat).

End Scenario.

(** ** Further parts of the program and vocabulary *)

Module ChunkerTerms.
Import JsString Chunker.

(** No code unit of [s] is a terminator of the sentence splitter. *)
Definition terminatorFree (s : jsstring) : bool :=
  forallb (fun c => negb (is_terminator c)) s.

(** The invariant of the splitting loop: in the piece being read only
    the last code unit, which is [prev], may be a terminator. *)
Definition pending (prev : option jschar) (piece : jsstring) : Prop :=
  piece = []
  \/ exists before x,
      piece = before ++ [x] /\ prev = Some x /\ terminatorFree before = true.

End ChunkerTerms.

Module AudioTerms.
Import JsString Audio.

(** The elements of a [Uint8Array]. *)
Definition bytes (data : list Z) : Prop :=
  Forall (fun b => (0 <= b < 256)%Z) data.



End AudioTerms.

Module Format.
Import JsString Audio.
Local Open Scope Q_scope.

(** [formatTime] of [utils/audioUtils.ts] and [formatCountdown] of
    [AudioController].  Times are rationals, as in the playback engine. *)

(** [Math.trunc]: towards zero. *)
Definition truncate (x : Q) : Z :=
  if Qle_bool 0 x then Qfloor x else Qceiling x.

(** [a % b] on numbers: the remainder has the sign of [a]. *)
Definition remainder (a b : Q) : Q := a - b * inject_Z (truncate (a / b)).

(** [String(n)] for a whole number that is not negative. *)
Definition String_ (n : Z) : jsstring := decimal (Z.to_N n).

(** [s.padStart(2, '0')] *)
Definition padStart2 (s : jsstring) : jsstring :=
  repeat 48%N (2 - List.length s) ++ s.

(** [formatTime(seconds)]; a rational is never [NaN]. *)
Definition formatTime (seconds : Q) : jsstring :=
  if negb (Qle_bool 0 seconds) then lit "00:00"
  else
    let minutes := Qfloor (seconds / 60) in
    let remainingSeconds := Qfloor (remainder seconds 60) in
    let formattedMinutes := padStart2 (String_ minutes) in
    let formattedSeconds := padStart2 (String_ remainingSeconds) in
    formattedMinutes ++ lit ":" ++ formattedSeconds.

(** [formatCountdown(seconds)] *)
Definition formatCountdown (seconds : Q) : jsstring :=
  let totalSeconds := Qceiling seconds in
  if (totalSeconds <=? 0)%Z then []
  else if (totalSeconds <? 5)%Z then lit "Finishing up..."
  else if (totalSeconds <? 60)%Z then
    lit "About " ++ String_ totalSeconds ++ lit " seconds remaining"
  else
    let minutes := Qfloor (inject_Z totalSeconds / 60) in
    let remainingSeconds := Z.rem totalSeconds 60 in
    let plural := if (1 <? minutes)%Z then lit "s" else [] in
    if (remainingSeconds =? 0)%Z then
      lit "About " ++ String_ minutes ++ lit " minute" ++ plural
          ++ lit " remaining"
    else
      lit "About " ++ String_ minutes ++ lit " minute" ++ plural ++ lit ", "
          ++ String_ remainingSeconds ++ lit " seconds remaining".

End Format.

Module GenerationTerms.
Import JsString Chunker Audio Playback Generation.

(** The page a segment reads. *)
Definition pageOf (segment : AudioSegment) : nat := from (pageRange segment).

(** [n] firings of the one-second interval. *)
Definition ticks (n : nat) (w : World) : World := Nat.iter n countdown w.

(** The pages of a list that have text to speak. *)
Definition spokenPages (bk : Book) (pageNums : list nat) : list nat :=
  filter (fun p => negb (blank (nth (p - 1) (pages bk) []))) pageNums.



End GenerationTerms.

Module Controls.
Import JsString Audio Playback.
Local Open Scope Q_scope.

(** What [AudioController] computes for the seek bar and the playlist,
    and the button for a new book of [App]. *)

(** [progressPercent] of the seek bar of [AudioController]. *)
Definition progressPercent (duration currentTime : Q) : Q :=
  if negb (Qle_bool duration 0) then (currentTime / duration) * 100 else 0.

(** [getSegmentTitle] of the playlist. *)
Definition getSegmentTitle (segment : AudioSegment) : jsstring :=
  if (from (pageRange segment) =? to (pageRange segment))%nat
  then lit "Page " ++ decimal (N.of_nat (from (pageRange segment)))
  else lit "Pages " ++ decimal (N.of_nat (from (pageRange segment)))
       ++ lit " - " ++ decimal (N.of_nat (to (pageRange segment))).

(** The render that follows the button [New Book]. *)
Definition newBook (now : Q) (st : App) : App :=
  render now st (resetState st).

End Controls.

Module BookParser.
Import JsString.

(** The pagination of an EPUB in [parseEpub]: the text of the chapters,
    read from the archive, is cut into pages of a fixed number of code
    units. *)

Definition CHARS_PER_PAGE_EPUB : nat := 2000.

(** The last loop of [parseEpub]:
    [for (let i = 0; i < fullText.length; i += CHARS_PER_PAGE_EPUB)
       pages.push(fullText.substring(i, i + CHARS_PER_PAGE_EPUB))] *)
Fixpoint epubPages_loop (fuel : nat) (fullText : jsstring) (i : nat)
  : list jsstring :=
  match fuel with
  | O => []
  | S fuel' =>
      if i <? length fullText
      then substring i (i + CHARS_PER_PAGE_EPUB) fullText
           :: epubPages_loop fuel' fullText (i + CHARS_PER_PAGE_EPUB)
      else []
  end.

Definition epubPages (fullText : jsstring) : list jsstring :=
  epubPages_loop (S (length fullText)) fullText 0.

End BookParser.

Module Reader.
Import JsString Audio Playback Generation.

(** [BookReader], for a book that is loaded: the text of the current
    page and the two buttons that turn the page. *)

(** [book.pages[currentPage - 1] ?? 'Page not found.'] *)
Definition pageText (bk : Book) (currentPage : nat) : jsstring :=
  match currentPage with
  | O => lit "Page not found."
  | S pageIndex =>
      match nth_error (pages bk) pageIndex with
      | Some text => text
      | None => lit "Page not found."
      end
  end.

(** The two buttons under the page; a disabled button hears no click. *)
Inductive Button := PreviousPage | NextPage.

Definition disabled (bk : Book) (b : Button) (st : App) : bool :=
  match b with
  | PreviousPage => currentPage st <=? 1
  | NextPage => List.length (pages bk) <=? currentPage st
  end.

Definition onPageChange (b : Button) (st : App) : App :=
  match b with
  | PreviousPage => setCurrentPage (currentPage st - 1) st
  | NextPage => setCurrentPage (currentPage st + 1) st
  end.

(** A click at the reading [now] of the audio clock and the render it
    causes. *)
Definition click (bk : Book) (st : App) (e : Q * Button) : App :=
  if disabled bk (snd e) st then st
  else render (fst e) st (onPageChange (snd e) st).

(** The page is one of the book. *)
Definition inBook (bk : Book) (st : App) : Prop :=
  1 <= currentPage st <= List.length (pages bk).

End Reader.

Unset Implicit Arguments.

(** * Properties *)

(** ** Strings and the chunker *)

Module ChunkerSpec.
Import JsString Chunker.

Lemma trimStart_nil (s : jsstring) :
  trimStart s = [] <-> forallb is_ws s = true.
Proof.
  induction s as [|c s IH]; simpl; [tauto|].
  destruct (is_ws c); simpl; [exact IH|].
  split; discriminate.
Qed.

Lemma trimStart_head (s : jsstring) c r :
  trimStart s = c :: r -> is_ws c = false.
Proof.
  induction s as [|d s IH]; simpl; [discriminate|].
  destruct (is_ws d) eqn:E; [exact IH|].
  intros H; injection H as -> _; exact E.
Qed.

(** [!text.trim()] holds exactly for the texts made of whitespace. *)
Lemma blank_forallb (s : jsstring) : blank s = forallb is_ws s.
Proof.
  unfold blank, trim, trimEnd.
  destruct (forallb is_ws s) eqn:E.
  - apply trimStart_nil in E; rewrite E; reflexivity.
  - destruct (trimStart s) as [|c r] eqn:Es.
    + apply trimStart_nil in Es; congruence.
    + destruct (trimStart (rev (c :: r))) as [|d r'] eqn:Er.
      * apply trimStart_nil in Er.
        rewrite forallb_forall in Er.
        assert (is_ws c = true) by (apply Er, in_rev; rewrite rev_involutive; left; reflexivity).
        apply trimStart_head in Es; congruence.
      * destruct (rev (d :: r')) eqn:R; [|reflexivity].
        apply (f_equal (@rev _)) in R; rewrite rev_involutive in R; discriminate.
Qed.

Lemma keeps_not_blank (s : jsstring) : keeps s = negb (forallb is_ws s).
Proof.
  unfold keeps.
  pose proof (blank_forallb s) as B; unfold blank in B.
  destruct s as [|c s]; [reflexivity|].
  cbn [truthy andb].
  destruct (trim (c :: s)); cbn [truthy negb] in B; rewrite <- B; reflexivity.
Qed.

(** *** Deleting whitespace *)

Lemma dw_refl (s : jsstring) : dropsWhitespace s s.
Proof. induction s; constructor; assumption. Qed.

Lemma dw_blank (w : jsstring) :
  forallb is_ws w = true -> dropsWhitespace w [].
Proof.
  induction w as [|c w IH]; simpl; [constructor|].
  intros H; apply andb_prop in H as [Hc Hw].
  apply dw_drop; auto.
Qed.

Lemma dw_app (a a' b b' : jsstring) :
  dropsWhitespace a a' -> dropsWhitespace b b' ->
  dropsWhitespace (a ++ b) (a' ++ b').
Proof.
  induction 1; simpl; intros Hb; auto; constructor; auto.
Qed.

Lemma dw_trans (a b c : jsstring) :
  dropsWhitespace a b -> dropsWhitespace b c -> dropsWhitespace a c.
Proof.
  intros Hab; revert c.
  induction Hab as [|x s r _ IH|x s r Hx _ IH]; intros c Hbc.
  - exact Hbc.
  - inversion Hbc; subst.
    + apply dw_keep; auto.
    + apply dw_drop; auto.
  - apply dw_drop; auto.
Qed.

Lemma dw_visible (s r : jsstring) :
  dropsWhitespace s r -> visible r = visible s.
Proof.
  unfold visible.
  induction 1 as [|c s r _ IH|c s r Hc _ IH]; simpl.
  - reflexivity.
  - rewrite IH; reflexivity.
  - rewrite Hc; simpl; exact IH.
Qed.

(** Dropping the pieces that [keeps] rejects deletes whitespace only. *)
Lemma dw_filter_keeps (ps : list jsstring) :
  dropsWhitespace (concat ps) (concat (filter keeps ps)).
Proof.
  induction ps as [|p ps IH]; simpl; [constructor|].
  rewrite keeps_not_blank.
  destruct (forallb is_ws p) eqn:E; simpl.
  - change (concat (filter keeps ps)) with ([] ++ concat (filter keeps ps)).
    apply dw_app; [apply dw_blank; exact E|exact IH].
  - apply dw_app; [apply dw_refl|exact IH].
Qed.

(** *** The split *)

Lemma span_ws_spec (s w r : jsstring) :
  span_ws s = (w, r) -> s = w ++ r /\ forallb is_ws w = true.
Proof.
  revert w r; induction s as [|c s IH]; simpl; intros w r H.
  - injection H as <- <-; auto.
  - destruct (is_ws c) eqn:E.
    + destruct (span_ws s) as [w' r'] eqn:Es.
      injection H as <- <-.
      destruct (IH _ _ eq_refl) as [-> Hw].
      simpl; rewrite E, Hw; auto.
    + injection H as <- <-; auto.
Qed.

(** With fuel for its turns, the loop returns pieces whose concatenation
    is the subject without the whitespace the separators matched. *)
Lemma split_loop_fuel (fuel : nat) :
  forall prev piece rest,
    turns piece rest < fuel ->
    dropsWhitespace (piece ++ rest)
                    (concat (split_loop fuel prev piece rest)).
Proof.
  induction fuel as [|fuel IH]; intros prev piece rest Hf; [lia|].
  assert (Hadv : forall c rest', rest = c :: rest' ->
            dropsWhitespace (piece ++ rest)
              (concat (split_loop fuel (Some c) (piece ++ [c]) rest'))).
  { intros c rest' ->.
    replace (piece ++ c :: rest') with ((piece ++ [c]) ++ rest')
      by (rewrite <- app_assoc; reflexivity).
    apply IH. unfold turns in *; simpl in *.
    destruct (piece ++ [c]); lia. }
  destruct rest as [|c rest']; cbn [split_loop].
  - simpl; rewrite app_nil_r; apply dw_refl.
  - destruct (sep_match prev (c :: rest')) as [[w r]|] eqn:Em;
      [|apply Hadv; reflexivity].
    unfold sep_match in Em.
    destruct prev as [p|]; [|discriminate].
    destruct (is_terminator p); [|discriminate].
    assert (Es : span_ws (c :: rest') = (w, r)) by congruence.
    apply span_ws_spec in Es as [Er Hw].
    assert (Hpush : forall prev', piece <> [] \/ w <> [] ->
              dropsWhitespace (piece ++ c :: rest')
                (concat (piece :: split_loop fuel prev' [] r))).
    { intros prev' Hne. cbn [concat]. rewrite Er.
      apply dw_app; [apply dw_refl|].
      apply dw_trans with (b := r).
      - change r with ([] ++ r) at 2.
        apply dw_app; [apply dw_blank; exact Hw|apply dw_refl].
      - apply (IH prev' [] r).
        apply (f_equal (@length _)) in Er; rewrite length_app in Er.
        unfold turns in *; simpl in *.
        destruct Hne as [Hp|Hw'].
        + destruct piece; [congruence|lia].
        + destruct w; [congruence|]. simpl in Er. destruct piece; lia. }
    destruct piece as [|a piece], w as [|b w].
    + apply Hadv; reflexivity.
    + apply Hpush; right; discriminate.
    + apply Hpush; left; discriminate.
    + apply Hpush; left; discriminate.
Qed.

Lemma split_sentences_dw (s : jsstring) :
  dropsWhitespace s (concat (split_sentences s)).
Proof.
  apply (split_loop_fuel (2 * length s + 2) None [] s).
  unfold turns; lia.
Qed.

Lemma getSentencesFromText_dw (text : jsstring) :
  dropsWhitespace text (concat (getSentencesFromText text)).
Proof.
  unfold getSentencesFromText.
  destruct (negb (truthy text) || blank text) eqn:E.
  - apply dw_blank. rewrite <- blank_forallb.
    destruct text; [reflexivity|]. exact E.
  - eapply dw_trans; [apply split_sentences_dw|apply dw_filter_keeps].
Qed.

(** *** The split, exactly *)

Lemma span_ws_rest (s w r : jsstring) :
  span_ws s = (w, r) ->
  match r with [] => True | d :: _ => is_ws d = false end.
Proof.
  revert w r; induction s as [|c s IH]; simpl; intros w r H.
  - injection H as <- <-; exact I.
  - destruct (is_ws c) eqn:E.
    + destruct (span_ws s) as [w' r'] eqn:Es.
      injection H as <- <-. apply (IH w' r' eq_refl).
    + injection H as <- <-; exact E.
Qed.

Lemma squeeze_head (t t' : bool) (r : jsstring) :
  match r with [] => True | d :: _ => is_ws d = false end ->
  squeeze t r = squeeze t' r.
Proof.
  destruct r as [|d r]; simpl; [reflexivity|].
  intros ->; rewrite !andb_false_r; reflexivity.
Qed.

Lemma squeeze_blank (w r : jsstring) :
  forallb is_ws w = true -> squeeze true (w ++ r) = squeeze true r.
Proof.
  induction w as [|c w IH]; simpl; [reflexivity|].
  intros H; apply andb_prop in H as [-> Hw]; simpl; auto.
Qed.

Lemma split_loop_squeeze (fuel : nat) :
  forall prev piece rest,
    turns piece rest < fuel ->
    concat (split_loop fuel prev piece rest)
    = piece ++ squeeze (after prev) rest.
Proof.
  induction fuel as [|fuel IH]; intros prev piece rest Hf; [lia|].
  assert (Hadv : forall c rest', rest = c :: rest' ->
            after prev && is_ws c = false ->
            concat (split_loop fuel (Some c) (piece ++ [c]) rest')
            = piece ++ squeeze (after prev) rest).
  { intros c rest' -> Hk.
    rewrite IH by (unfold turns in *; simpl in *; destruct (piece ++ [c]); lia).
    simpl; rewrite Hk, <- app_assoc; reflexivity. }
  destruct rest as [|c rest']; cbn [split_loop].
  - simpl; reflexivity.
  - destruct (sep_match prev (c :: rest')) as [[w r]|] eqn:Em.
    + unfold sep_match in Em.
      destruct prev as [p|]; [|discriminate].
      destruct (is_terminator p) eqn:Ep; [|discriminate].
      assert (Es : span_ws (c :: rest') = (w, r)) by congruence.
      pose proof (span_ws_rest _ _ _ Es) as Hr.
      apply span_ws_spec in Es as [Er Hw].
      assert (Hpush : forall prev', piece <> [] \/ w <> [] ->
                concat (piece :: split_loop fuel prev' [] r)
                = piece ++ squeeze (after (Some p)) (c :: rest')).
      { intros prev' Hne. cbn [concat].
        rewrite IH.
        - cbn [app after]. rewrite Ep, Er, (squeeze_blank w r Hw).
          rewrite (squeeze_head (after prev') true r Hr); reflexivity.
        - apply (f_equal (@length _)) in Er; rewrite length_app in Er.
          unfold turns in *; simpl in *.
          destruct Hne as [Hp|Hw'].
          + destruct piece; [congruence|lia].
          + destruct w; [congruence|]. simpl in Er. destruct piece; lia. }
      destruct piece as [|a piece], w as [|b w].
      * apply Hadv; [reflexivity|].
        simpl in Er; subst r. simpl in Hr. rewrite Hr; apply andb_false_r.
      * apply Hpush; right; discriminate.
      * apply Hpush; left; discriminate.
      * apply Hpush; left; discriminate.
    + apply Hadv; [reflexivity|].
      unfold sep_match in Em. destruct prev as [p|]; [|reflexivity].
      simpl. destruct (is_terminator p); [discriminate|reflexivity].
Qed.

Lemma split_sentences_squeeze (s : jsstring) :
  concat (split_sentences s) = squeeze false s.
Proof.
  unfold split_sentences.
  rewrite split_loop_squeeze by (unfold turns; lia). reflexivity.
Qed.

Lemma keeps_visible (p : jsstring) :
  existsb (fun c => negb (is_ws c)) p = true -> keeps p = true.
Proof.
  intros H; rewrite keeps_not_blank.
  destruct (forallb is_ws p) eqn:E; [|reflexivity].
  apply existsb_exists in H as (c & Hin & Hc).
  rewrite forallb_forall in E. rewrite (E c Hin) in Hc; discriminate.
Qed.

(** Once the pending piece holds a visible code unit, or is empty before
    one, every piece pushed is empty or kept by the filter. *)
Lemma split_loop_pieces (fuel : nat) :
  forall prev piece rest,
    settled piece rest ->
    Forall (fun p => p = [] \/ keeps p = true)
           (split_loop fuel prev piece rest).
Proof.
  induction fuel as [|fuel IH]; intros prev piece rest Hs; [constructor|].
  assert (Hpiece : piece = [] \/ keeps piece = true).
  { destruct Hs as [Hv|[-> _]]; [right; apply keeps_visible; exact Hv|left; reflexivity]. }
  assert (Hadv : forall c rest', rest = c :: rest' ->
            Forall (fun p => p = [] \/ keeps p = true)
                   (split_loop fuel (Some c) (piece ++ [c]) rest')).
  { intros c rest' ->. apply IH. left.
    rewrite existsb_app. destruct Hs as [->|[-> Hc]]; [reflexivity|].
    simpl; rewrite Hc; reflexivity. }
  destruct rest as [|c rest']; cbn [split_loop].
  - constructor; [exact Hpiece|constructor].
  - destruct (sep_match prev (c :: rest')) as [[w r]|] eqn:Em;
      [|apply Hadv; reflexivity].
    unfold sep_match in Em.
    destruct prev as [p|]; [|discriminate].
    destruct (is_terminator p); [|discriminate].
    assert (Es : span_ws (c :: rest') = (w, r)) by congruence.
    pose proof (span_ws_rest _ _ _ Es) as Hr.
    assert (Hpush : forall prev',
              Forall (fun p => p = [] \/ keeps p = true)
                     (piece :: split_loop fuel prev' [] r)).
    { intros prev'; constructor; [exact Hpiece|].
      apply IH; right; split; [reflexivity|exact Hr]. }
    destruct piece as [|a piece], w as [|b w]; try apply Hpush.
    apply Hadv; reflexivity.
Qed.

Lemma filter_keeps_concat (ps : list jsstring) :
  Forall (fun p => p = [] \/ keeps p = true) ps ->
  concat (filter keeps ps) = concat ps.
Proof.
  induction 1 as [|p ps [->|Hp] _ IH]; simpl; [reflexivity|exact IH|].
  rewrite Hp; simpl; rewrite IH; reflexivity.
Qed.

Lemma span_ws_app (w r : jsstring) :
  forallb is_ws w = true ->
  match r with [] => True | d :: _ => is_ws d = false end ->
  span_ws (w ++ r) = (w, r).
Proof.
  intros Hw Hr; induction w as [|c w IH]; simpl.
  - destruct r as [|d r]; [reflexivity|]. simpl; rewrite Hr; reflexivity.
  - simpl in Hw; apply andb_prop in Hw as [-> Hw].
    rewrite (IH Hw); reflexivity.
Qed.

Lemma keeps_blank (p : jsstring) : forallb is_ws p = true -> keeps p = false.
Proof. intros H; rewrite keeps_not_blank, H; reflexivity. Qed.

(** The loop on the leading whitespace [w] of a subject [w ++ r]. *)
Lemma split_loop_leading (w : jsstring) :
  forall fuel prev piece r,
    forallb is_ws w = true ->
    forallb is_ws piece = true ->
    after prev = false ->
    match r with [] => False | d :: _ => is_ws d = false end ->
    turns piece (w ++ r) < fuel ->
    concat (filter keeps (split_loop fuel prev piece (w ++ r)))
    = if existsb is_terminator w then squeeze false r
      else piece ++ squeeze false (w ++ r).
Proof.
  induction w as [|c w IH]; intros fuel prev piece r Hw Hp Ha Hr Hf.
  - destruct fuel as [|fuel]; [lia|].
    destruct r as [|d r']; [contradiction|].
    cbn [app existsb split_loop].
    replace (sep_match prev (d :: r')) with (@None (jsstring * jsstring))
      by (unfold sep_match; destruct prev as [q|]; [|reflexivity];
          simpl in Ha; rewrite Ha; reflexivity).
    rewrite filter_keeps_concat, split_loop_squeeze.
    + simpl; rewrite <- app_assoc; reflexivity.
    + unfold turns in *; simpl in *; destruct (piece ++ [d]); lia.
    + apply split_loop_pieces; left.
      rewrite existsb_app; simpl; rewrite Hr; simpl; apply orb_true_r.
  - destruct fuel as [|fuel]; [lia|].
    simpl in Hw; apply andb_prop in Hw as [Hc Hw].
    cbn [app split_loop].
    replace (sep_match prev (c :: w ++ r)) with (@None (jsstring * jsstring))
      by (unfold sep_match; destruct prev as [q|]; [|reflexivity];
          simpl in Ha; rewrite Ha; reflexivity).
    assert (Hp' : forallb is_ws (piece ++ [c]) = true)
      by (rewrite forallb_app, Hp; simpl; rewrite Hc; reflexivity).
    destruct (is_terminator c) eqn:Et.
    + cbn [existsb]; rewrite Et; cbn [orb].
      destruct fuel as [|fuel];
        [unfold turns in Hf; simpl in Hf; lia|].
      assert (Hr' : match r with [] => True | d :: _ => is_ws d = false end)
        by (destruct r; [exact I|exact Hr]).
      assert (Hne : exists x rest', w ++ r = x :: rest').
      { destruct w; [destruct r; [contradiction|]|]; simpl; eauto. }
      destruct Hne as (x & rest' & Hx).
      cbn [split_loop]. rewrite Hx. cbn [sep_match]. rewrite Et, <- Hx.
      rewrite (span_ws_app w r Hw Hr').
      assert (Hpush : forall prev',
                concat (filter keeps
                          ((piece ++ [c]) :: split_loop fuel prev' [] r))
                = squeeze false r).
      { intros prev'. cbn [filter]. rewrite (keeps_blank _ Hp').
        rewrite filter_keeps_concat
          by (apply split_loop_pieces; right; split; [reflexivity|exact Hr']).
        rewrite split_loop_squeeze.
        - apply squeeze_head; exact Hr'.
        - unfold turns in *; simpl in *.
          rewrite length_app in Hf. lia. }
      destruct (piece ++ [c]) as [|a pc] eqn:Epc;
        [destruct piece; discriminate|].
      destruct w as [|b w']; apply Hpush.
    + cbn [existsb]; rewrite Et; cbn [orb].
      rewrite (IH fuel (Some c) (piece ++ [c]) r Hw Hp'); auto.
      * destruct (existsb is_terminator w); [reflexivity|].
        simpl; rewrite Et, <- app_assoc; reflexivity.
      * unfold turns in *; simpl in *. destruct (piece ++ [c]); lia.
Qed.

Lemma getSentencesFromText_stripped (text : jsstring) :
  concat (getSentencesFromText text) = stripped text.
Proof.
  unfold getSentencesFromText, stripped.
  destruct (blank text) eqn:B.
  - rewrite orb_true_r; reflexivity.
  - assert (truthy text = true) by (destruct text; [discriminate|reflexivity]).
    rewrite H; cbn [negb orb].
    destruct (span_ws text) as [w r] eqn:Es.
    pose proof (span_ws_rest _ _ _ Es) as Hr.
    apply span_ws_spec in Es as [-> Hw].
    assert (Hr' : match r with [] => False | d :: _ => is_ws d = false end).
    { destruct r; [|exact Hr].
      rewrite blank_forallb, app_nil_r, Hw in B; discriminate. }
    unfold split_sentences.
    rewrite (split_loop_leading w _ None [] r Hw eq_refl eq_refl Hr')
      by (unfold turns; lia).
    reflexivity.
Qed.

(** *** Packing *)

Lemma hardSplit_loop_concat (maxChars : nat) (sentence : jsstring) :
  0 < maxChars ->
  forall fuel i,
    length sentence - i < fuel ->
    concat (hardSplit_loop fuel maxChars sentence i) = skipn i sentence.
Proof.
  intros Hmax; induction fuel as [|fuel IH]; intros i Hf; [lia|].
  cbn [hardSplit_loop].
  destruct (i <? length sentence) eqn:E.
  - apply Nat.ltb_lt in E.
    cbn [concat]; rewrite IH by lia.
    unfold substring.
    replace (i + maxChars - i) with maxChars by lia.
    rewrite Nat.add_comm, <- skipn_skipn.
    apply firstn_skipn.
  - apply Nat.ltb_ge in E.
    symmetry; apply skipn_all2; exact E.
Qed.

Lemma hardSplit_concat (maxChars : nat) (sentence : jsstring) :
  0 < maxChars -> concat (hardSplit maxChars sentence) = sentence.
Proof.
  intros Hmax; unfold hardSplit.
  rewrite hardSplit_loop_concat by (assumption || lia).
  reflexivity.
Qed.

Lemma hardSplit_loop_bound (maxChars : nat) (sentence : jsstring) :
  forall fuel i,
    Forall (fun c => length c <= maxChars)
           (hardSplit_loop fuel maxChars sentence i).
Proof.
  induction fuel as [|fuel IH]; intros i; cbn [hardSplit_loop].
  - constructor.
  - destruct (i <? length sentence); constructor; [|apply IH].
    unfold substring.
    rewrite length_firstn. lia.
Qed.

Lemma concat_snoc (l : list jsstring) (x : jsstring) :
  concat (l ++ [x]) = concat l ++ x.
Proof. rewrite concat_app; simpl; rewrite app_nil_r; reflexivity. Qed.

Lemma flush_content (st : packing) : concat (flush st) = content st.
Proof.
  unfold flush, content.
  destruct (currentChunk st); simpl.
  - rewrite app_nil_r; reflexivity.
  - apply concat_snoc.
Qed.

Lemma pack_content (maxChars : nat) (st : packing) (sentence : jsstring) :
  0 < maxChars ->
  content (pack maxChars st sentence) = content st ++ sentence.
Proof.
  intros Hmax; unfold pack.
  destruct (maxChars <? length sentence).
  - unfold content at 1; cbn [textChunks currentChunk].
    rewrite app_nil_r, concat_app, flush_content, hardSplit_concat by assumption.
    reflexivity.
  - destruct (maxChars <? length (currentChunk st ++ sentence));
      unfold content; cbn [textChunks currentChunk].
    + rewrite concat_snoc; reflexivity.
    + rewrite app_assoc; reflexivity.
Qed.

Lemma fold_pack_content (maxChars : nat) (sentences : list jsstring) :
  0 < maxChars ->
  forall st,
    content (fold_left (pack maxChars) sentences st)
    = content st ++ concat sentences.
Proof.
  intros Hmax; induction sentences as [|x xs IH]; intros st; simpl.
  - rewrite app_nil_r; reflexivity.
  - rewrite IH, pack_content by assumption.
    rewrite <- app_assoc; reflexivity.
Qed.

Lemma calculateChunksWith_concat (maxChars : nat) (text : jsstring) :
  0 < maxChars ->
  concat (calculateChunksWith maxChars text)
  = concat (getSentencesFromText text).
Proof.
  intros Hmax; unfold calculateChunksWith, getSentencesFromText.
  destruct (blank text) eqn:B.
  - rewrite orb_true_r; reflexivity.
  - rewrite flush_content, fold_pack_content by assumption.
    reflexivity.
Qed.

Lemma flush_fits (maxChars : nat) (st : packing) :
  fits maxChars st -> Forall (fun c => length c <= maxChars) (flush st).
Proof.
  intros [Hc Hr]; unfold flush.
  destruct (truthy (currentChunk st)); [|exact Hc].
  apply Forall_app; split; [exact Hc|repeat constructor; exact Hr].
Qed.

Lemma pack_fits (maxChars : nat) (st : packing) (sentence : jsstring) :
  fits maxChars st -> fits maxChars (pack maxChars st sentence).
Proof.
  intros F; pose proof F as [Hc Hr]; unfold pack.
  destruct (maxChars <? length sentence) eqn:E1.
  - split; cbn [textChunks currentChunk]; [|simpl; lia].
    apply Forall_app; split; [apply flush_fits; exact F|].
    apply hardSplit_loop_bound.
  - apply Nat.ltb_ge in E1.
    destruct (maxChars <? length (currentChunk st ++ sentence)) eqn:E2;
      split; cbn [textChunks currentChunk]; auto.
    + apply Forall_app; split; [exact Hc|repeat constructor; exact Hr].
    + apply Nat.ltb_ge in E2; exact E2.
Qed.

Lemma fold_pack_fits (maxChars : nat) (sentences : list jsstring) :
  forall st,
    fits maxChars st -> fits maxChars (fold_left (pack maxChars) sentences st).
Proof.
  induction sentences as [|x xs IH]; intros st F; simpl; [exact F|].
  apply IH, pack_fits, F.
Qed.

(** *** The claims on the chunker *)

(** C1, as the specification states it, fails: the whitespace between
    two sentences is matched by the separator of the split and is in no
    chunk.  ["A. B."] comes back as the single chunk ["A.B."]. *)
Lemma chunks_lose_whitespace :
  0 < MAX_CHARS_PER_REQUEST
  /\ calculateChunksWith MAX_CHARS_PER_REQUEST (lit "A. B.") = [lit "A.B."]
  /\ concat (calculateChunksWith MAX_CHARS_PER_REQUEST (lit "A. B."))
     <> lit "A. B.".
Proof.
  split; [unfold MAX_CHARS_PER_REQUEST; lia|].
  split; [vm_compute; reflexivity|].
  vm_compute; discriminate.
Qed.

(** C1, amended: for every text and every positive budget, the chunks
    in order concatenate to the sentence units in order, which is the
    text without the whitespace runs that follow a [.], [!], [?], newline
    or carriage return and without its leading whitespace when that
    holds a line break (nothing at all for a blank text): whitespace is
    deleted and nothing else changed, so no code unit that is not
    whitespace is lost, duplicated or reordered. *)
Theorem chunks_reconstruct_up_to_whitespace
        (maxChars : nat) (text : jsstring) :
  0 < maxChars ->
  concat (calculateChunksWith maxChars text)
  = concat (getSentencesFromText text)
  /\ concat (calculateChunksWith maxChars text) = stripped text
  /\ dropsWhitespace text (concat (calculateChunksWith maxChars text))
  /\ visible (concat (calculateChunksWith maxChars text)) = visible text.
Proof.
  intros Hmax.
  pose proof (calculateChunksWith_concat maxChars text Hmax) as E.
  assert (D : dropsWhitespace text (concat (calculateChunksWith maxChars text)))
    by (rewrite E; apply getSentencesFromText_dw).
  split; [exact E|].
  split; [rewrite E; apply getSentencesFromText_stripped|].
  split; [exact D|apply dw_visible; exact D].
Qed.

Lemma chunks_reconstruct_up_to_whitespace_witness :
  0 < 6
  /\ concat (calculateChunksWith 6 (lit "One. Two!  Three?"))
     = lit "One.Two!Three?".
Proof.
  split; [lia|].
  destruct (chunks_reconstruct_up_to_whitespace 6 (lit "One. Two!  Three?"))
    as (_ & E & _); [lia|].
  rewrite E; vm_compute; reflexivity.
Defined.

(** C7: for every text and every positive budget, every chunk the
    chunker returns has at most [maxChars] code units.  The bound holds
    for the greedily packed chunks, which is what the claim asks, and
    for the slices of an over-long sentence as well. *)
Theorem chunks_within_budget (maxChars : nat) (text : jsstring) :
  0 < maxChars ->
  Forall (fun chunk => length chunk <= maxChars)
         (calculateChunksWith maxChars text).
Proof.
  intros _; unfold calculateChunksWith.
  destruct (blank text); [constructor|].
  apply flush_fits, fold_pack_fits.
  split; [constructor|simpl; lia].
Qed.

Lemma chunks_within_budget_witness :
  0 < 6
  /\ Forall (fun chunk => length chunk <= 6)
            (calculateChunksWith 6 (lit "One. Two!  Three? Abcdefghijk.")).
Proof.
  split; [lia|].
  apply (chunks_within_budget 6 (lit "One. Two!  Three? Abcdefghijk.")).
  lia.
Defined.

End ChunkerSpec.

(** ** The playback engine *)

Module PlaybackSpec.
Import JsString Audio Playback Scenario.
Local Open Scope Q_scope.

Lemma jsstring_eqb_refl (a : jsstring) : jsstring_eqb a a = true.
Proof. unfold jsstring_eqb; destruct (list_eq_dec N.eq_dec a a); congruence. Qed.

Lemma sameId_refl (s : AudioSegment) : sameId (Some s) s = true.
Proof. apply jsstring_eqb_refl. Qed.

Lemma segmentChanged_refl (o : option AudioSegment) : segmentChanged o o = false.
Proof. destruct o; simpl; [rewrite jsstring_eqb_refl|]; reflexivity. Qed.

Lemma Qeq_bool_same (x : Q) : Qeq_bool x x = true.
Proof. apply Qeq_bool_iff; reflexivity. Qed.

(** *** What the effects leave alone *)

Lemma rateEffect_state (st : App) :
  audioSegments (rateEffect st) = audioSegments st
  /\ currentSegment (rateEffect st) = currentSegment st
  /\ isPlaying (rateEffect st) = isPlaying st
  /\ duration (rateEffect st) = duration st
  /\ playbackRate (rateEffect st) = playbackRate st
  /\ audioContextRef (rateEffect st) = audioContextRef st.
Proof. unfold rateEffect; destruct (sourceNodeRef st); repeat split. Qed.

Lemma playbackEffect_state (now : Q) (st : App) :
  audioSegments (playbackEffect now st) = audioSegments st
  /\ currentSegment (playbackEffect now st) = currentSegment st
  /\ isPlaying (playbackEffect now st) = isPlaying st
  /\ playbackRate (playbackEffect now st) = playbackRate st
  /\ audioContextRef (playbackEffect now st) = audioContextRef st.
Proof.
  unfold playbackEffect.
  destruct (currentSegment st) eqn:Ec; [|repeat split; simpl; auto].
  destruct (negb (audioContextRef st)); [repeat split; simpl; auto|].
  destruct (isPlaying st) eqn:Ep; [repeat split; simpl; auto|].
  destruct (sourceNodeRef st); repeat split; simpl; auto.
Qed.

Lemma segmentEffect_state (st : App) :
  audioSegments (segmentEffect st) = audioSegments st
  /\ currentSegment (segmentEffect st) = currentSegment st
  /\ isPlaying (segmentEffect st) = isPlaying st
  /\ playbackRate (segmentEffect st) = playbackRate st
  /\ audioContextRef (segmentEffect st) = audioContextRef st.
Proof.
  unfold segmentEffect; destruct (currentSegment st) eqn:E;
    repeat split; simpl; congruence.
Qed.

Lemma commit_state (now : Q) (prev st : App) :
  audioSegments (commit now prev st) = audioSegments st
  /\ currentSegment (commit now prev st) = currentSegment st
  /\ isPlaying (commit now prev st) = isPlaying st
  /\ playbackRate (commit now prev st) = playbackRate st
  /\ audioContextRef (commit now prev st) = audioContextRef st.
Proof.
  unfold commit.
  set (st1 := if negb _ then rateEffect st else st).
  assert (H1 : audioSegments st1 = audioSegments st
               /\ currentSegment st1 = currentSegment st
               /\ isPlaying st1 = isPlaying st
               /\ playbackRate st1 = playbackRate st
               /\ audioContextRef st1 = audioContextRef st).
  { subst st1; destruct (negb _); [|repeat split].
    pose proof (rateEffect_state st); tauto. }
  set (st2 := if playbackDepsChanged prev st then playbackEffect now st1 else st1).
  assert (H2 : audioSegments st2 = audioSegments st
               /\ currentSegment st2 = currentSegment st
               /\ isPlaying st2 = isPlaying st
               /\ playbackRate st2 = playbackRate st
               /\ audioContextRef st2 = audioContextRef st).
  { subst st2; destruct (playbackDepsChanged prev st); [|exact H1].
    pose proof (playbackEffect_state now st1) as H.
    destruct H as (-> & -> & -> & -> & ->); exact H1. }
  destruct (segmentChanged _ _); [|exact H2].
  pose proof (segmentEffect_state st2) as H.
  destruct H as (-> & -> & -> & -> & ->); exact H2.
Qed.

Lemma render_state (now : Q) (prev st : App) :
  audioSegments (render now prev st) = audioSegments st
  /\ currentSegment (render now prev st) = currentSegment st
  /\ isPlaying (render now prev st) = isPlaying st
  /\ playbackRate (render now prev st) = playbackRate st
  /\ audioContextRef (render now prev st) = audioContextRef st.
Proof.
  unfold render.
  pose proof (commit_state now prev st) as H1.
  pose proof (commit_state now st (commit now prev st)) as H2.
  pose proof (commit_state now (commit now prev st)
                (commit now st (commit now prev st))) as H3.
  destruct H1 as (E1 & E2 & E3 & E4 & E5).
  destruct H2 as (F1 & F2 & F3 & F4 & F5).
  destruct H3 as (G1 & G2 & G3 & G4 & G5).
  repeat split; congruence.
Qed.

(** A render whose dependencies are those of the previous one runs no effect. *)
Lemma commit_quiet (now : Q) (prev st : App) :
  Qeq_bool (playbackRate prev) (playbackRate st) = true ->
  playbackDepsChanged prev st = false ->
  commit now prev st = st.
Proof.
  intros Hr Hd; unfold commit; rewrite Hr, Hd; simpl.
  unfold playbackDepsChanged in Hd.
  apply orb_false_elim in Hd as [Hd _].
  apply orb_false_elim in Hd as [-> _]; reflexivity.
Qed.

Lemma playbackDepsChanged_refl (st : App) : playbackDepsChanged st st = false.
Proof.
  unfold playbackDepsChanged.
  rewrite segmentChanged_refl, eqb_reflx, Qeq_bool_same; reflexivity.
Qed.

Lemma render_quiet (now : Q) (prev st : App) :
  Qeq_bool (playbackRate prev) (playbackRate st) = true ->
  playbackDepsChanged prev st = false ->
  render now prev st = st.
Proof.
  intros Hr Hd; unfold render.
  rewrite (commit_quiet now prev st Hr Hd).
  rewrite (commit_quiet now st st); auto using Qeq_bool_same, playbackDepsChanged_refl.
  apply commit_quiet; auto using Qeq_bool_same, playbackDepsChanged_refl.
Qed.

Lemma pause_render (now : Q) (st : App) (cur : AudioSegment) (source : SourceNode) :
  audioContextRef st = true ->
  isPlaying st = true ->
  currentSegment st = Some cur ->
  sourceNodeRef st = Some source ->
  render now st (setIsPlaying false st)
  = cleanupAudio
      (set_startOffsetRef (Qmin (computedPosition now st) (duration st))
         (setIsPlaying false st)).
Proof.
  intros Ha Hp Hc Hs.
  assert (R1 : commit now st (setIsPlaying false st)
               = cleanupAudio
                   (set_startOffsetRef (Qmin (computedPosition now st) (duration st))
                      (setIsPlaying false st))).
  { unfold commit, playbackDepsChanged.
    cbn [playbackRate currentSegment isPlaying duration setIsPlaying].
    rewrite !Qeq_bool_same, segmentChanged_refl, Hp. cbn [negb Bool.eqb orb].
    unfold playbackEffect.
    cbn [playbackRate currentSegment isPlaying duration setIsPlaying audioContextRef sourceNodeRef].
    rewrite Hc, Ha, Hs. reflexivity. }
  unfold render. rewrite R1.
  set (R := cleanupAudio _).
  assert (R2 : commit now (setIsPlaying false st) R = R).
  { apply commit_quiet; [apply Qeq_bool_same|].
    unfold playbackDepsChanged; cbn.
    rewrite segmentChanged_refl, Qeq_bool_same; reflexivity. }
  rewrite R2.
  apply commit_quiet; [apply Qeq_bool_same|apply playbackDepsChanged_refl].
Qed.

Lemma handleTrackEnd_next (st : App) (i : nat) (next : AudioSegment) :
  currentIndex st = Some i ->
  nth_error (audioSegments st) (i + 1) = Some next ->
  handleTrackEnd st = setCurrentSegment (Some next) st.
Proof.
  unfold currentIndex, handleTrackEnd; intros -> Hn.
  assert (i + 1 < List.length (audioSegments st))%nat
    by (apply nth_error_Some; congruence).
  destruct (Z.ltb_spec (Z.of_nat i) (Z.of_nat (List.length (audioSegments st)) - 1));
    [rewrite Hn; reflexivity|lia].
Qed.

Lemma handleTrackEnd_last (st : App) (i : nat) :
  currentIndex st = Some i ->
  nth_error (audioSegments st) (i + 1) = None ->
  handleTrackEnd st = setIsPlaying false st.
Proof.
  unfold currentIndex, handleTrackEnd; intros -> Hn.
  apply nth_error_None in Hn.
  destruct (Z.ltb_spec (Z.of_nat i) (Z.of_nat (List.length (audioSegments st)) - 1));
    [lia|reflexivity].
Qed.

Lemma onended_completed (st : App) cur source now :
  rendering st cur source -> naturalEnd now st ->
  onended source now st = handleTrackEnd st.
Proof.
  intros (_ & _ & _ & Hs & Hd) Hn; unfold onended.
  rewrite Hs, Nat.eqb_refl, Hd.
  apply Qle_bool_iff in Hn; unfold computedPosition in Hn; rewrite Hn.
  reflexivity.
Qed.

Lemma onended_interrupted (st : App) cur source now :
  rendering st cur source -> ~ naturalEnd now st ->
  onended source now st = setIsPlaying false st.
Proof.
  intros (_ & _ & _ & Hs & Hd) Hn; unfold onended.
  rewrite Hs, Nat.eqb_refl, Hd.
  destruct (Qle_bool _ _) eqn:E; [|reflexivity].
  apply Qle_bool_iff in E; contradiction.
Qed.

(** C3, amended: when the source reports its end and the computed
    position is within 0.1 seconds of the duration or beyond, the
    segment after the current one in the playlist, if there is one, is
    selected and [isPlaying] stays true; if the current segment is the
    last, the engine pauses and holds the position at the smaller of the
    computed position and the duration, hence within 0.1 seconds of the
    duration and exactly there once the computed position has reached
    it.  An end that is not natural pauses without advancing, and so does
    the pause button, after which no end of the old source is heard. *)
Theorem natural_end_advances_or_pauses
        (st : App) (cur : AudioSegment) (source : SourceNode) (i : nat) (now : Q) :
  rendering st cur source ->
  currentIndex st = Some i ->
  let ended := dispatch now (SourceEnded source) st in
  let paused := dispatch now ClickPlayPause st in
  (naturalEnd now st ->
   forall next, nth_error (audioSegments st) (i + 1) = Some next ->
     currentSegment ended = Some next /\ isPlaying ended = true)
  /\ (naturalEnd now st ->
      nth_error (audioSegments st) (i + 1) = None ->
      currentSegment ended = Some cur /\ isPlaying ended = false
      /\ startOffsetRef ended = Qmin (computedPosition now st) (duration st)
      /\ duration st - (1 # 10) <= startOffsetRef ended <= duration st
      /\ (duration st <= computedPosition now st ->
          startOffsetRef ended == duration st))
  /\ (~ naturalEnd now st ->
      currentSegment ended = Some cur /\ isPlaying ended = false)
  /\ (currentSegment paused = Some cur /\ isPlaying paused = false
      /\ sourceNodeRef paused = None
      /\ forall now' node, dispatch now' (SourceEnded node) paused = paused).
Proof.
  intros R Hi ended paused.
  pose proof R as (Ha & Hp & Hc & Hs & Hd).
  assert (Hpause : render now st (setIsPlaying false st)
                   = cleanupAudio
                       (set_startOffsetRef
                          (Qmin (computedPosition now st) (duration st))
                          (setIsPlaying false st)))
    by (eapply pause_render; eassumption).
  repeat apply conj.
  - intros Hn next Hnext; subst ended; cbn [dispatch].
    rewrite (onended_completed st cur source now R Hn), (handleTrackEnd_next st i next Hi Hnext).
    destruct (render_state now st (setCurrentSegment (Some next) st))
      as (_ & -> & -> & _).
    split; [reflexivity|exact Hp].
  - intros Hn Hlast; subst ended; cbn [dispatch].
    rewrite (onended_completed st cur source now R Hn), (handleTrackEnd_last st i Hi Hlast), Hpause.
    cbn. repeat apply conj; auto.
    + apply Q.min_glb; [exact Hn|lra].
    + apply Q.le_min_r.
    + intros Hge. apply Q.min_r; exact Hge.
  - intros Hn; subst ended; cbn [dispatch].
    rewrite (onended_interrupted st cur source now R Hn), Hpause. cbn; auto.
  - subst paused; cbn [dispatch]. unfold handleMainPlayPause.
    rewrite Hc, Hp; cbn [negb]. rewrite Hpause; exact Hc.
  - subst paused; cbn [dispatch]. unfold handleMainPlayPause.
    rewrite Hc, Hp; cbn [negb]. rewrite Hpause; reflexivity.
  - subst paused; cbn [dispatch]. unfold handleMainPlayPause.
    rewrite Hc, Hp; cbn [negb]. rewrite Hpause; reflexivity.
  - intros now' node. subst paused; cbn [dispatch]. unfold handleMainPlayPause.
    rewrite Hc, Hp; cbn [negb]. rewrite Hpause.
    unfold onended; cbn [sourceNodeRef cleanupAudio set_animationFrameRef set_sourceNodeRef].
    apply render_quiet; [apply Qeq_bool_same|apply playbackDepsChanged_refl].
Qed.

Lemma natural_end_advances_or_pauses_witness :
  rendering playingFirst (segmentOf 1) (sourceOf playingFirst)
  /\ currentIndex playingFirst = Some 0%nat
  /\ currentSegment
       (dispatch (1 # 5) (SourceEnded (sourceOf playingFirst)) playingFirst)
     = Some (segmentOf 2)
  /\ isPlaying
       (dispatch (1 # 5) (SourceEnded (sourceOf playingFirst)) playingFirst)
     = true.
Proof.
  assert (R : rendering playingFirst (segmentOf 1) (sourceOf playingFirst))
    by (unfold rendering; repeat apply conj; vm_compute; reflexivity).
  assert (I : currentIndex playingFirst = Some 0%nat)
    by (vm_compute; reflexivity).
  split; [exact R|]. split; [exact I|].
  destruct (natural_end_advances_or_pauses
              playingFirst (segmentOf 1) (sourceOf playingFirst) 0 (1 # 5) R I)
    as (Hnext & _).
  apply Hnext.
  - vm_compute; discriminate.
  - vm_compute; reflexivity.
Defined.

(** C3, as the specification states it, fails in one point: at a
    natural end of the last segment the position is not always the
    duration.  The last segment, 0.2 seconds long, is started at clock 0;
    the rate is 2 until the clock reads 1/20 and 1 afterwards, so the
    audio is over when the clock reads 3/20.  [onended] computes
    0 + 3/20 * 1, accepts it as completed (3/20 >= 1/5 - 1/10) and the
    engine pauses with the position held at 3/20, not at 1/5. *)
Lemma last_segment_not_pinned_at_duration :
  let source := sourceOf playingLast in
  let ended := dispatch (3 # 20) (SourceEnded source) playingLast in
  rendering playingLast (segmentOf 2) source
  /\ currentIndex playingLast = Some 1%nat
  /\ nth_error (audioSegments playingLast) 2 = None
  /\ naturalEnd (3 # 20) playingLast
  /\ isPlaying ended = false
  /\ startOffsetRef ended == 3 # 20
  /\ duration ended == 1 # 5
  /\ ~ startOffsetRef ended == duration ended.
Proof.
  split; [unfold rendering; repeat apply conj; vm_compute; reflexivity|].
  repeat apply conj; try (vm_compute; reflexivity); vm_compute; discriminate.
Qed.

(** *** Rate changes *)

Lemma rate_render (now r : Q) (st : App) :
  let st' := handlePlaybackRateChange r st in
  render now st st'
  = if Qeq_bool (playbackRate st) r then st' else rateEffect st'.
Proof.
  intros st'.
  assert (C1 : commit now st st'
               = if Qeq_bool (playbackRate st) r then st' else rateEffect st').
  { unfold commit, playbackDepsChanged; subst st'.
    cbn [handlePlaybackRateChange setPlaybackRate playbackRate currentSegment
         isPlaying duration].
    rewrite segmentChanged_refl, eqb_reflx, Qeq_bool_same.
    destruct (Qeq_bool (playbackRate st) r); reflexivity. }
  unfold render; rewrite C1.
  set (X := if Qeq_bool (playbackRate st) r then st' else rateEffect st').
  assert (Hx : playbackRate X = r /\ currentSegment X = currentSegment st
               /\ isPlaying X = isPlaying st /\ duration X = duration st).
  { subst X st'; destruct (Qeq_bool (playbackRate st) r);
      [repeat split|].
    unfold rateEffect; cbn.
    destruct (sourceNodeRef st); repeat split. }
  destruct Hx as (Hr & Hc & Hp & Hd).
  assert (C2 : commit now st' X = X).
  { apply commit_quiet.
    - rewrite Hr; apply Qeq_bool_same.
    - unfold playbackDepsChanged. rewrite Hc, Hp, Hd.
      subst st'; cbn.
      rewrite segmentChanged_refl, eqb_reflx, Qeq_bool_same; reflexivity. }
  rewrite C2.
  apply commit_quiet; [apply Qeq_bool_same|apply playbackDepsChanged_refl].
Qed.

Lemma tick_render (now : Q) (st : App) :
  render now st (tick now st) = tick now st.
Proof.
  apply render_quiet; unfold tick; destruct (animationFrameRef st); cbn;
    try apply Qeq_bool_same; try apply playbackDepsChanged_refl.
  unfold playbackDepsChanged; cbn.
  rewrite segmentChanged_refl, eqb_reflx, Qeq_bool_same; reflexivity.
Qed.

(** The position a frame reports: the offset plus the whole time since
    the anchor, multiplied by the rate current at the frame. *)
Lemma reported_position (now d : Q) (st : App) :
  animationFrameRef st = Some d ->
  currentTime (dispatch now AnimationFrame st)
  = Qmin (computedPosition now st) d.
Proof.
  intros H; cbn [dispatch]; rewrite tick_render.
  unfold tick; rewrite H; reflexivity.
Qed.

(** A rate change keeps the anchor and the offset, so the next frame
    applies the new rate to all the time elapsed since the anchor. *)
Lemma reported_position_after_rate_change (now r d : Q) (st : App) :
  animationFrameRef st = Some d ->
  currentTime (dispatch now AnimationFrame (dispatch now (SetRate r) st))
  = Qmin (startOffsetRef st + (now - contextStartTimeRef st) * r) d.
Proof.
  intros H.
  assert (E : animationFrameRef (dispatch now (SetRate r) st) = Some d
              /\ startOffsetRef (dispatch now (SetRate r) st) = startOffsetRef st
              /\ contextStartTimeRef (dispatch now (SetRate r) st)
                 = contextStartTimeRef st
              /\ playbackRate (dispatch now (SetRate r) st) = r).
  { cbn [dispatch]; rewrite rate_render.
    destruct (Qeq_bool (playbackRate st) r); [repeat split; exact H|].
    unfold rateEffect; cbn.
    destruct (sourceNodeRef st); repeat split; exact H. }
  destruct E as (Ea & Eo & Ec & Er).
  rewrite (reported_position now d _ Ea).
  unfold computedPosition; rewrite Eo, Ec, Er; reflexivity.
Qed.

(** C2: the claim is that a rate change in mid-playback leaves the
    reported position where it was.  The code does not do that: the
    rate effect only sets the rate of the source node, the anchor and the
    offset stay, and the next frame multiplies all the time since the
    anchor by the new rate.  The first segment plays from clock 0 at rate
    1; the frame at clock 1/20 reports 1/20; the rate is set to 2 at that
    same reading of the clock, and the frame then reports 1/10. *)
Lemma rate_change_jumps :
  let before := dispatch (1 # 20) AnimationFrame playingFirst in
  let after :=
    dispatch (1 # 20) AnimationFrame (dispatch (1 # 20) (SetRate 2) before) in
  isPlaying before = true
  /\ currentTime before == 1 # 20
  /\ currentTime after == 1 # 10
  /\ ~ currentTime after == currentTime before.
Proof.
  repeat apply conj; try (vm_compute; reflexivity).
  vm_compute; discriminate.
Qed.

(** *** Seeking *)

Lemma seek_paused_render (now t : Q) (st : App) :
  audioContextRef st = true -> isPlaying st = false ->
  dispatch now (SeekTo t) st = set_startOffsetRef t (setCurrentTime t st).
Proof.
  intros Ha Hp; cbn [dispatch]; rewrite Hp; cbn [andb].
  unfold handleSeek; rewrite Ha; cbn [negb].
  cbn [isPlaying set_startOffsetRef setCurrentTime]; rewrite Hp.
  apply render_quiet; cbn; [apply Qeq_bool_same|].
  unfold playbackDepsChanged; cbn.
  rewrite segmentChanged_refl, eqb_reflx, Qeq_bool_same; reflexivity.
Qed.

(** C6, as the specification states it, fails: [handleSeek] stores the
    time it is given.  With a segment of 0.2 seconds paused, seeking to
    25 leaves the offset and the reported position at 25, where the
    clamped value is 1/5. *)
Lemma seek_does_not_clamp :
  isPlaying pausedFirst = false
  /\ duration pausedFirst == 1 # 5
  /\ startOffsetRef (dispatch (1 # 10) (SeekTo 25) pausedFirst) == 25
  /\ currentTime (dispatch (1 # 10) (SeekTo 25) pausedFirst) == 25
  /\ clamp 0 (duration pausedFirst) 25 == 1 # 5
  /\ ~ currentTime (dispatch (1 # 10) (SeekTo 25) pausedFirst)
       == clamp 0 (duration pausedFirst) 25.
Proof.
  repeat apply conj; try (vm_compute; reflexivity).
  vm_compute; discriminate.
Qed.

(** C6, amended: [seek(t)] does not clamp; while paused it sets the
    start offset and the reported position to [t] as given, whatever
    time had elapsed before, and that is the clamped value of [t]
    whenever [0 <= t <= duration], which is the range the seek slider
    delivers. *)
Theorem seek_sets_position (st : App) (now t : Q) :
  audioContextRef st = true ->
  isPlaying st = false ->
  let st' := dispatch now (SeekTo t) st in
  startOffsetRef st' = t /\ currentTime st' = t
  /\ (0 <= t <= duration st -> currentTime st' == clamp 0 (duration st) t).
Proof.
  intros Ha Hp st'; subst st'.
  rewrite (seek_paused_render now t st Ha Hp); cbn.
  repeat split. intros [H0 Hd]. unfold clamp.
  rewrite (Q.min_l t (duration st) Hd), (Q.max_r 0 t H0); reflexivity.
Qed.

Lemma seek_sets_position_witness :
  audioContextRef pausedFirst = true /\ isPlaying pausedFirst = false
  /\ startOffsetRef (dispatch (1 # 10) (SeekTo (3 # 20)) pausedFirst) = 3 # 20
  /\ currentTime (dispatch (1 # 10) (SeekTo (3 # 20)) pausedFirst) = 3 # 20.
Proof.
  assert (Ha : audioContextRef pausedFirst = true) by (vm_compute; reflexivity).
  assert (Hp : isPlaying pausedFirst = false) by (vm_compute; reflexivity).
  destruct (seek_sets_position pausedFirst (1 # 10) (3 # 20) Ha Hp)
    as (Ho & Hc & _).
  exact (conj Ha (conj Hp (conj Ho Hc))).
Defined.

(** *** Playing with nothing selected *)

(** C9, as the specification states it, fails: with nothing selected
    and a playlist that is not empty, the play button selects the first
    segment and starts it. *)
Lemma play_selects_first_segment :
  currentSegment loaded = None
  /\ currentSegment (handleMainPlayPause true loaded) = Some (segmentOf 1)
  /\ isPlaying (handleMainPlayPause true loaded) = true
  /\ handleMainPlayPause true loaded <> loaded.
Proof.
  repeat apply conj; try (vm_compute; reflexivity).
  intros H; apply (f_equal isPlaying) in H; vm_compute in H; discriminate.
Qed.

(** C9, amended: with no segment selected, playing is a no-op (no
    state change, nothing raised) exactly when the playlist is empty;
    when the playlist has a segment, the first one is selected and
    played. *)
Theorem play_with_nothing_selected (st : App) (now : Q) (newIsPlayingState : bool) :
  currentSegment st = None ->
  (audioSegments st = [] ->
   handleMainPlayPause newIsPlayingState st = st
   /\ dispatch now ClickPlayPause st = st)
  /\ (forall first rest, audioSegments st = first :: rest ->
      handleMainPlayPause newIsPlayingState st
      = setIsPlaying true (setCurrentSegment (Some first) st)
      /\ currentSegment (dispatch now ClickPlayPause st) = Some first
      /\ isPlaying (dispatch now ClickPlayPause st) = true).
Proof.
  intros Hc; split.
  - intros Hs; cbn [dispatch]; unfold handleMainPlayPause; rewrite Hc, Hs.
    split; [reflexivity|].
    apply render_quiet; [apply Qeq_bool_same|apply playbackDepsChanged_refl].
  - intros first rest Hs; cbn [dispatch]; unfold handleMainPlayPause.
    rewrite Hc, Hs. split; [reflexivity|].
    destruct (render_state now st
                (setIsPlaying true (setCurrentSegment (Some first) st)))
      as (_ & -> & -> & _).
    split; reflexivity.
Qed.

Lemma play_with_nothing_selected_witness :
  currentSegment mounted = None
  /\ handleMainPlayPause true mounted = mounted
  /\ dispatch 0 ClickPlayPause mounted = mounted.
Proof.
  assert (Hc : currentSegment mounted = None) by reflexivity.
  split; [exact Hc|].
  apply (play_with_nothing_selected mounted 0 true Hc); reflexivity.
Defined.

End PlaybackSpec.

(** ** The generation pipeline *)

Module GenerationSpec.
Import JsString Chunker Audio Playback Generation Scenario.

(** *** Events leave the playlist alone *)

Lemma handleTrackEnd_audioSegments (st : App) :
  audioSegments (handleTrackEnd st) = audioSegments st.
Proof.
  unfold handleTrackEnd.
  destruct (findIndex _ _); [|reflexivity].
  destruct (_ <? _)%Z; reflexivity.
Qed.

Lemma dispatch_audioSegments (now : Q) (ev : Playback.Event) (st : App) :
  audioSegments (dispatch now ev st) = audioSegments st.
Proof.
  destruct ev; cbn [dispatch].
  - destruct (PlaybackSpec.render_state now st (handlePlaybackRequest segment st))
      as (-> & _).
    unfold handlePlaybackRequest; destruct (sameId _ _); reflexivity.
  - destruct (PlaybackSpec.render_state now st
                (handleMainPlayPause (negb (isPlaying st)) st)) as (-> & _).
    unfold handleMainPlayPause.
    destruct (currentSegment st); [reflexivity|].
    destruct (audioSegments st) eqn:E; [exact E|cbn; exact E].
  - assert (H : audioSegments (render now st (handleSeek newTime st))
                = audioSegments st).
    { destruct (PlaybackSpec.render_state now st (handleSeek newTime st))
        as (-> & _).
      unfold handleSeek. destruct (negb _); [reflexivity|].
      cbn [isPlaying set_startOffsetRef setCurrentTime].
      destruct (isPlaying st); reflexivity. }
    destruct (isPlaying st && audioContextRef st); [|exact H].
    destruct (PlaybackSpec.render_state now
                (render now st (handleSeek newTime st))
                (seekTimeout (render now st (handleSeek newTime st))))
      as (-> & _).
    exact H.
  - destruct (PlaybackSpec.render_state now st
                (handlePlaybackRateChange newRate st)) as (-> & _).
    reflexivity.
  - destruct (PlaybackSpec.render_state now st (tick now st)) as (-> & _).
    unfold tick; destruct (animationFrameRef st); reflexivity.
  - destruct (PlaybackSpec.render_state now st (onended source now st))
      as (-> & _).
    unfold onended. destruct (sourceNodeRef st); [|reflexivity].
    destruct (_ =? _); [|reflexivity].
    destruct (Qle_bool _ _); [apply handleTrackEnd_audioSegments|reflexivity].
Qed.

Lemma preserves_refl (w : World) : preserves w w.
Proof. repeat split; auto. Qed.

Lemma preserves_trans (a b c : World) : preserves a b -> preserves b c -> preserves a c.
Proof.
  intros (A1 & A2 & A3 & A4 & A5) (B1 & B2 & B3 & B4 & B5).
  repeat split; try congruence. auto.
Qed.

Lemma deliver_preserves (w : World) (e : Q * PageEvent) : preserves w (deliver w e).
Proof.
  unfold deliver; destruct (snd e).
  - repeat split; auto. apply dispatch_audioSegments.
  - destruct (isGenerating (generationStatus w)); repeat split; auto.
Qed.

Lemma deliveries_keep (evs : list (Q * PageEvent)) :
  forall w, preserves w (fold_left deliver evs w).
Proof.
  induction evs as [|e evs IH]; intros w; simpl; [apply preserves_refl|].
  eapply preserves_trans; [apply deliver_preserves|apply IH].
Qed.

Lemma deliveries_undisturbed (evs : list (Q * PageEvent)) :
  Forall (fun e => snd e <> ClickStop) evs ->
  forall w, isCancelledRef (fold_left deliver evs w) = isCancelledRef w.
Proof.
  induction 1 as [|e evs He _ IH]; intros w; simpl; [reflexivity|].
  rewrite IH. unfold deliver.
  destruct (snd e); [reflexivity|congruence].
Qed.

Lemma deliveries_stopped (evs : list (Q * PageEvent)) (now : Q) :
  In (now, ClickStop) evs ->
  forall w, isGenerating (generationStatus w) = true ->
            isCancelledRef (fold_left deliver evs w) = true.
Proof.
  induction evs as [|e evs IH]; intros Hin w Hg; simpl in *; [contradiction|].
  destruct Hin as [->|Hin].
  - apply (deliveries_keep evs). unfold deliver; simpl; rewrite Hg; reflexivity.
  - apply IH; [exact Hin|].
    destruct (deliver_preserves w e) as (_ & -> & _); exact Hg.
Qed.

(** *** [Promise.all] *)

Lemma promiseAll_rejects (A : Type) (l : list (A + Thrown)) (e : Thrown) :
  In (inr e) l -> exists e', promiseAll l = inr e'.
Proof.
  induction l as [|x l IH]; simpl; [contradiction|].
  intros [->|Hin]; [eauto|].
  destruct x as [a|e0]; [|eauto].
  destruct (IH Hin) as [e' ->]; eauto.
Qed.

Lemma promiseAll_resolves (A : Type) (P : A -> Prop) (l : list (A + Thrown)) :
  Forall (fun x => exists a, x = inl a /\ P a) l ->
  exists r, promiseAll l = inl r /\ List.length r = List.length l /\ Forall P r.
Proof.
  induction 1 as [|x l (a & -> & Ha) _ (r & Hr & Hl & Hp)]; simpl.
  - exists []; auto.
  - rewrite Hr; exists (a :: r); simpl; auto.
Qed.

Lemma mapi_from_In (A B : Type) (f : nat -> A -> B) (l : list A) :
  forall k i a, nth_error l i = Some a -> In (f (k + i) a) (mapi_from f k l).
Proof.
  induction l as [|x l IH]; intros k [|i] a H; simpl in *; try discriminate.
  - injection H as ->; rewrite Nat.add_0_r; auto.
  - right. rewrite <- Nat.add_succ_comm. apply IH; exact H.
Qed.

Lemma mapi_from_Forall (A B : Type) (P : B -> Prop) (f : nat -> A -> B)
      (l : list A) :
  (forall i a, P (f i a)) -> forall k, Forall P (mapi_from f k l).
Proof.
  intros H; induction l as [|x l IH]; intros k; simpl; constructor; auto.
Qed.

Lemma mapi_from_length (A B : Type) (f : nat -> A -> B) (l : list A) :
  forall k, List.length (mapi_from f k l) = List.length l.
Proof. induction l; intros k; simpl; auto. Qed.


(** *** One page *)

Lemma setMessage_preserves (m : jsstring) (w : World) : preserves w (setMessage m w).
Proof. repeat split; auto. Qed.

Lemma autoplay_audioSegments (b : bool) (o : option AudioSegment)
      (seg : AudioSegment) (st : App) :
  audioSegments (handleAutoplayFirstSegment b o seg st) = audioSegments st.
Proof. destruct b, o; reflexivity. Qed.

(** A turn of the loop appends nothing, or one segment tagged with its
    page; it preserves [isGenerating]; it breaks only on a cancellation. *)
Lemma processPage_playlist (c : Closure) (schedule : nat -> Await)
      (pageNum : nat) (w : World) :
  let r := processPage c schedule pageNum w in
  (audioSegments (app (fst r)) = audioSegments (app w)
   \/ exists seg,
       snd r = Continue
       /\ audioSegments (app (fst r)) = audioSegments (app w) ++ [seg]
       /\ pageRange seg = {| from := pageNum; to := pageNum |})
  /\ isGenerating (generationStatus (fst r)) = isGenerating (generationStatus w)
  /\ (snd r = Break -> isCancelledRef (fst r) = true).
Proof.
  unfold processPage.
  destruct (isCancelledRef w) eqn:Hc; [cbn; auto|].
  set (w1 := setMessage _ w).
  destruct (nth_error _ _) as [textToProcess|];
    [|cbn; repeat split; auto; discriminate].
  destruct (blank textToProcess); [cbn; repeat split; auto; discriminate|].
  set (a := schedule pageNum).
  pose proof (deliveries_keep (during a) w1) as (K1 & K2 & _).
  set (w2 := fold_left deliver (during a) w1) in *.
  destruct (promiseAll (mapi_from _ _ _)) as [base64AudioChunks|e];
    [|cbn; repeat split; auto; discriminate].
  destruct (promiseAll (map _ _)) as [audioBuffers|e];
    [|cbn; repeat split; auto; discriminate].
  destruct (isCancelledRef w2) eqn:Hc2; [cbn; auto|].
  destruct audioBuffers as [|first more];
    [cbn; repeat split; auto; discriminate|].
  cbn [fst snd]. split; [|split; [exact K2|discriminate]].
  match goal with
  | |- context [setAudioSegments (_ ++ [?s]) _] => set (newSegment := s)
  end.
  right; exists newSegment.
  split; [reflexivity|]. split; [|reflexivity].
  cbn [app incrementProgress setGenerationStatus set_app].
  match goal with
  | |- context [render ?n ?p ?s] =>
      destruct (PlaybackSpec.render_state n p s) as (-> & _)
  end.
  destruct (pageNum =? firstPage c);
    [rewrite autoplay_audioSegments|]; cbn; rewrite K1; reflexivity.
Qed.


(** *** The loop *)

(** The loop appends, in order, segments tagged with pages it was given,
    and preserves [isGenerating]. *)
Lemma pageLoop_playlist (c : Closure) (schedule : nat -> Await)
      (pageNums : list nat) :
  forall w w' exit,
    pageLoop c schedule pageNums w = (w', exit) ->
    (exists new,
        audioSegments (app w') = audioSegments (app w) ++ new
        /\ Forall (fun seg => In (from (pageRange seg)) pageNums
                             /\ to (pageRange seg) = from (pageRange seg))
                  new)
    /\ isGenerating (generationStatus w') = isGenerating (generationStatus w).
Proof.
  induction pageNums as [|pageNum rest IH]; intros w w' exit H; simpl in H.
  - injection H as <- _. split; [exists []; rewrite app_nil_r; auto|reflexivity].
  - pose proof (processPage_playlist c schedule pageNum w) as (Hp & Hg & _).
    destruct (processPage c schedule pageNum w) as [w1 e1]; cbn [fst snd] in *.
    assert (Hstep : exists one,
               audioSegments (app w1) = audioSegments (app w) ++ one
               /\ Forall (fun seg => In (from (pageRange seg)) (pageNum :: rest)
                                    /\ to (pageRange seg) = from (pageRange seg))
                         one).
    { destruct Hp as [Hp|(seg & _ & Hp & Hr)].
      - exists []; rewrite app_nil_r; auto.
      - exists [seg]; split; [exact Hp|].
        repeat constructor; rewrite Hr; simpl; auto. }
    destruct Hstep as (one & H1 & F1).
    destruct e1.
    + destruct (IH _ _ _ H) as ((new & H2 & F2) & Hg2).
      split; [|congruence].
      exists (one ++ new); split.
      * rewrite H2, H1, app_assoc; reflexivity.
      * apply Forall_app; split; [exact F1|].
        eapply Forall_impl; [|exact F2].
        intros seg [Hin Hto]; split; [right; exact Hin|exact Hto].
    + injection H as <- _. split; [exists one; auto|exact Hg].
    + injection H as <- _. split; [exists one; auto|exact Hg].
Qed.

Lemma pageLoop_app (c : Closure) (schedule : nat -> Await)
      (before after : list nat) :
  forall w entered,
    pageLoop c schedule before w = (entered, Continue) ->
    pageLoop c schedule (before ++ after) w
    = pageLoop c schedule after entered.
Proof.
  induction before as [|p before IH]; intros w entered H; simpl in *.
  - injection H as ->; reflexivity.
  - destruct (processPage c schedule p w) as [w1 []]; try discriminate.
    apply IH; exact H.
Qed.

Lemma seq_split_lt (a n : nat) (before after : list nat) (p : nat) :
  seq a n = before ++ p :: after -> forall q, In q before -> q < p.
Proof.
  revert a n; induction before as [|b before IH]; intros a n H q Hq;
    [contradiction|].
  destruct n as [|n]; [discriminate|].
  simpl in H; injection H as <- H.
  destruct Hq as [<-|Hq]; [|eapply IH; eassumption].
  assert (In p (seq (S a) n)) by (rewrite H; apply in_elt).
  apply in_seq in H0; lia.
Qed.

(** *** Entering and leaving the run *)

Lemma startRun_facts (bk : Book) (from to : nat) (w : World) :
  audioSegments (app (startRun bk from to w)) = audioSegments (app w)
  /\ isGenerating (generationStatus (startRun bk from to w)) = true
  /\ isCancelledRef (startRun bk from to w) = false
  /\ progress (generationStatus (startRun bk from to w)) = 0
  /\ total (generationStatus (startRun bk from to w)) = to - from + 1
  /\ currentSegment (app (startRun bk from to w)) = currentSegment (app w)
  /\ isPlaying (app (startRun bk from to w)) = isPlaying (app w).
Proof. repeat split. Qed.

Lemma finishRun_facts (w : World) (exit : Exit) :
  let final := finishRun (w, exit) in
  audioSegments (app final) = audioSegments (app w)
  /\ generationStatus final = idleStatus
  /\ isCancelledRef final = false
  /\ (isCancelledRef w = true -> error (app final) = Some cancelledMessage)
  /\ (isCancelledRef w = false ->
      match exit with
      | Throw (ErrorObject msg) => error (app final) = Some msg
      | Throw OtherValue => error (app final) <> None
      | _ => error (app final) = error (app w)
      end).
Proof.
  unfold finishRun.
  destruct (isCancelledRef w) eqn:Hc.
  - destruct exit; cbn; rewrite ?Hc; cbn; rewrite ?Hc; repeat split;
      intros; discriminate.
  - destruct exit as [| |[msg|]]; cbn; rewrite ?Hc; cbn; rewrite ?Hc;
      repeat split; intros; discriminate.
Qed.


(** *** The ways a page ends *)

Lemma processPage_rejected (c : Closure) (schedule : nat -> Await)
      (pageNum : nat) (w : World) (text : jsstring) :
  nth_error (pages (book c)) (pageNum - 1) = Some text ->
  blank text = false ->
  failsOn (schedule pageNum) text ->
  let r := processPage c schedule pageNum w in
  snd r <> Continue
  /\ audioSegments (app (fst r)) = audioSegments (app w).
Proof.
  intros Ht Hb (i & chunk & e & Hi & Hs).
  unfold processPage.
  destruct (isCancelledRef w); [cbn; split; [discriminate|reflexivity]|].
  rewrite Ht, Hb.
  set (w1 := setMessage _ w).
  pose proof (deliveries_keep (during (schedule pageNum)) w1) as (K1 & _).
  destruct (promiseAll_rejects _
              (mapi_from (fun i chunk =>
                            replyResult (speech (schedule pageNum) i chunk))
                         0 (calculateChunks text)) e) as (e' & ->).
  - apply (mapi_from_In _ _
             (fun i chunk => replyResult (speech (schedule pageNum) i chunk))
             (calculateChunks text) 0 i chunk) in Hi.
    cbn [Nat.add] in Hi; rewrite Hs in Hi; exact Hi.
  - cbn; split; [discriminate|exact K1].
Qed.

Lemma processPage_stopped (c : Closure) (schedule : nat -> Await)
      (pageNum : nat) (w : World) (text : jsstring) :
  isGenerating (generationStatus w) = true ->
  nth_error (pages (book c)) (pageNum - 1) = Some text ->
  blank text = false ->
  stopped (schedule pageNum) ->
  let r := processPage c schedule pageNum w in
  snd r <> Continue
  /\ audioSegments (app (fst r)) = audioSegments (app w)
  /\ isCancelledRef (fst r) = true.
Proof.
  intros Hg Ht Hb (now & Hstop).
  unfold processPage.
  destruct (isCancelledRef w) eqn:Hc;
    [cbn; repeat split; [discriminate|exact Hc]|].
  rewrite Ht, Hb.
  set (w1 := setMessage _ w).
  pose proof (deliveries_keep (during (schedule pageNum)) w1) as (K1 & _).
  pose proof (deliveries_stopped (during (schedule pageNum)) now Hstop w1 Hg)
    as K2.
  set (w2 := fold_left deliver (during (schedule pageNum)) w1) in *.
  destruct (promiseAll (mapi_from _ _ _));
    [|cbn; repeat split; [discriminate|exact K1|exact K2]].
  destruct (promiseAll (map _ _));
    [|cbn; repeat split; [discriminate|exact K1|exact K2]].
  rewrite K2. cbn; repeat split; [discriminate|exact K1|exact K2].
Qed.

Lemma processPage_blank (c : Closure) (schedule : nat -> Await)
      (pageNum : nat) (w : World) (text : jsstring) :
  isCancelledRef w = false ->
  nth_error (pages (book c)) (pageNum - 1) = Some text ->
  blank text = true ->
  exists w',
    processPage c schedule pageNum w = (w', Continue)
    /\ app w' = app w
    /\ isCancelledRef w' = false
    /\ progress (generationStatus w') = progress (generationStatus w) + 1
    /\ total (generationStatus w') = total (generationStatus w).
Proof.
  intros Hc Ht Hb; unfold processPage; rewrite Hc, Ht, Hb.
  eexists; split; [reflexivity|]. repeat split; exact Hc.
Qed.

(** A text that is not blank has a chunk. *)
Lemma calculateChunks_nonempty (text : jsstring) :
  blank text = false -> calculateChunks text <> [].
Proof.
  intros Hb Hnil.
  assert (Hmax : 0 < MAX_CHARS_PER_REQUEST) by (unfold MAX_CHARS_PER_REQUEST; lia).
  pose proof (ChunkerSpec.calculateChunksWith_concat
                MAX_CHARS_PER_REQUEST text Hmax) as E.
  pose proof (ChunkerSpec.getSentencesFromText_dw text) as D.
  rewrite <- E in D. fold calculateChunks in D. rewrite Hnil in D.
  apply ChunkerSpec.dw_visible in D. cbn in D.
  rewrite ChunkerSpec.blank_forallb in Hb.
  clear - Hb D. unfold visible in D.
  induction text as [|ch text IH]; [discriminate|].
  simpl in *. destruct (is_ws ch); simpl in *; [auto|discriminate].
Qed.

Lemma processPage_succeeds (c : Closure) (schedule : nat -> Await)
      (pageNum : nat) (w : World) (text : jsstring) :
  isCancelledRef w = false ->
  nth_error (pages (book c)) (pageNum - 1) = Some text ->
  blank text = false ->
  succeeds (schedule pageNum) ->
  undisturbed (schedule pageNum) ->
  exists w' seg,
    processPage c schedule pageNum w = (w', Continue)
    /\ audioSegments (app w') = audioSegments (app w) ++ [seg]
    /\ pageRange seg = {| from := pageNum; to := pageNum |}
    /\ Audio.text seg = text
    /\ isCancelledRef w' = false
    /\ progress (generationStatus w') = progress (generationStatus w) + 1
    /\ total (generationStatus w') = total (generationStatus w).
Proof.
  intros Hc Ht Hb Hok Hquiet.
  pose proof (processPage_playlist c schedule pageNum w) as (Hp & _ & _).
  revert Hp.
  unfold processPage; rewrite Hc, Ht, Hb.
  set (w1 := setMessage _ w).
  pose proof (deliveries_keep (during (schedule pageNum)) w1)
    as (K1 & _ & K3 & K4 & _).
  pose proof (deliveries_undisturbed (during (schedule pageNum)) Hquiet w1)
    as K2.
  change (isCancelledRef w1) with (isCancelledRef w) in K2.
  rewrite Hc in K2.
  set (w2 := fold_left deliver (during (schedule pageNum)) w1) in *.
  destruct (promiseAll_resolves (list Z)
              (fun bytes => exists buf, decodeAudioData bytes = Some buf)
              (mapi_from (fun i chunk =>
                            replyResult (speech (schedule pageNum) i chunk))
                         0 (calculateChunks text)))
    as (payloads & -> & Hlen & Hdec).
  { apply mapi_from_Forall. intros i chunk.
    destruct (Hok i chunk) as (bytes & buf & -> & Hbuf).
    exists bytes; split; [reflexivity|eauto]. }
  rewrite mapi_from_length in Hlen.
  destruct (promiseAll_resolves AudioBuffer (fun _ => True)
              (map decodeResult payloads))
    as (buffers & -> & Hlen2 & _).
  { apply Forall_map. eapply Forall_impl; [|exact Hdec].
    intros bytes (buf & Hbuf). exists buf. unfold decodeResult.
    rewrite Hbuf; auto. }
  rewrite length_map in Hlen2.
  rewrite K2.
  destruct buffers as [|first more].
  { exfalso. apply (calculateChunks_nonempty text Hb).
    apply length_zero_iff_nil. simpl in Hlen2. congruence. }
  cbn [fst snd]. intros [Hp|(seg & _ & Hp & Hr)].
  - exfalso.
    cbn [app incrementProgress setGenerationStatus set_app] in Hp.
    match type of Hp with
    | context [render ?n ?p ?s] =>
        destruct (PlaybackSpec.render_state n p s) as (E & _);
          rewrite E in Hp; clear E
    end.
    destruct (pageNum =? firstPage c);
      [rewrite autoplay_audioSegments in Hp|]; cbn in Hp;
      rewrite K1 in Hp; cbn in Hp;
      apply (f_equal (@List.length _)) in Hp;
      rewrite length_app in Hp; simpl in Hp; lia.
  - match goal with
    | |- context [setAudioSegments (_ ++ [?s]) _] => set (newSegment := s) in *
    end.
    eexists; exists newSegment.
    split; [reflexivity|].
    cbn [app incrementProgress setGenerationStatus set_app generationStatus
         isCancelledRef progress total].
    match goal with
    | |- context [render ?n ?p ?s] =>
        destruct (PlaybackSpec.render_state n p s) as (-> & _)
    end.
    repeat split.
    + destruct (pageNum =? firstPage c);
        [rewrite autoplay_audioSegments|]; cbn; rewrite K1; reflexivity.
    + exact K2.
    + rewrite K3; reflexivity.
    + rewrite K4; reflexivity.
Qed.


(** *** The claims on the pipeline *)

(** The run is halted at page [p]: what both a rejection and a
    cancellation come to. *)
Lemma halted_at (bk : Book) (schedule : nat -> Await) (w : World)
      (before after : list nat) (p : nat) (entered : World) :
  let lo := Number (fromPage w) in
  let hi := Number (toPage w) in
  let r := processPage (closureOf bk lo w) schedule p entered in
  invalidRange bk lo hi = false ->
  seq lo (hi - lo + 1) = before ++ p :: after ->
  pageLoop (closureOf bk lo w) schedule before (startRun bk lo hi w)
  = (entered, Continue) ->
  snd r <> Continue ->
  audioSegments (app (fst r)) = audioSegments (app entered) ->
  handleGenerate bk schedule w = finishRun r
  /\ audioSegments (app (handleGenerate bk schedule w))
     = audioSegments (app entered)
  /\ (exists earlier,
         audioSegments (app (handleGenerate bk schedule w))
         = audioSegments (app w) ++ earlier
         /\ Forall (fun seg => from (pageRange seg) < p
                              /\ to (pageRange seg) = from (pageRange seg))
                   earlier)
  /\ generationStatus (handleGenerate bk schedule w) = idleStatus
  /\ isGenerating (generationStatus entered) = true.
Proof.
  intros lo hi r Hv Hseq Hloop Hexit Hsame.
  assert (Hrun : handleGenerate bk schedule w = finishRun r).
  { unfold handleGenerate, runLoop. fold lo hi. rewrite Hv, Hseq.
    rewrite (pageLoop_app _ _ before (p :: after) _ entered Hloop).
    simpl. fold r. destruct r as [w2 []]; cbn in Hexit; congruence. }
  destruct (pageLoop_playlist _ _ _ _ _ _ Hloop) as ((earlier & He & Fe) & Hg).
  destruct (startRun_facts bk lo hi w) as (S1 & S2 & _).
  destruct r as [w2 exit] eqn:Er; cbn [fst snd] in *.
  destruct (finishRun_facts w2 exit) as (F1 & F2 & _).
  rewrite Hrun. split; [reflexivity|]. split; [congruence|].
  split; [|split; [exact F2|congruence]].
  exists earlier; split; [congruence|].
  eapply Forall_impl; [|exact Fe].
  intros seg [Hin Hto]; split; [|exact Hto].
  eapply seq_split_lt; eassumption.
Qed.

(** C4: when the call for a chunk of page [p] is rejected, the run is
    over at that page (the pages after it are not visited and the status
    is cleared), the playlist is the one the run had when it entered the
    page, which is the playlist before the run followed by the segments
    of earlier pages only, and the failure is reported. *)
Theorem synthesis_failure_halts_run
        (bk : Book) (schedule : nat -> Await) (w : World)
        (before after : list nat) (p : nat) (text : jsstring)
        (entered : World) :
  let lo := Number (fromPage w) in
  let hi := Number (toPage w) in
  let final := handleGenerate bk schedule w in
  invalidRange bk lo hi = false ->
  seq lo (hi - lo + 1) = before ++ p :: after ->
  pageLoop (closureOf bk lo w) schedule before (startRun bk lo hi w)
  = (entered, Continue) ->
  nth_error (pages bk) (p - 1) = Some text ->
  blank text = false ->
  failsOn (schedule p) text ->
  final = finishRun (processPage (closureOf bk lo w) schedule p entered)
  /\ audioSegments (app final) = audioSegments (app entered)
  /\ (exists earlier,
         audioSegments (app final) = audioSegments (app w) ++ earlier
         /\ Forall (fun seg => from (pageRange seg) < p
                              /\ to (pageRange seg) = from (pageRange seg))
                   earlier)
  /\ generationStatus final = idleStatus
  /\ error (app final) <> None.
Proof.
  intros lo hi final Hv Hseq Hloop Ht Hb Hfail.
  destruct (processPage_rejected (closureOf bk lo w) schedule p entered text
              Ht Hb Hfail) as (Hexit & Hsame).
  fold lo in Hexit, Hsame.
  destruct (halted_at bk schedule w before after p entered
              Hv Hseq Hloop Hexit Hsame) as (Hrun & H1 & H2 & H3 & _).
  subst final. repeat apply conj; auto.
  rewrite Hrun. fold lo.
  pose proof (processPage_playlist (closureOf bk lo w) schedule p entered)
    as (_ & _ & Hbreak).
  destruct (processPage (closureOf bk lo w) schedule p entered)
    as [w2 exit]; cbn [fst snd] in *.
  destruct (finishRun_facts w2 exit) as (_ & _ & _ & Fc & Fe).
  destruct (isCancelledRef w2) eqn:Hc.
  - rewrite (Fc eq_refl); discriminate.
  - specialize (Fe eq_refl).
    destruct exit as [| |[msg|]];
      [congruence|specialize (Hbreak eq_refl); discriminate
      |rewrite Fe; discriminate|exact Fe].
Qed.

Lemma synthesis_failure_halts_run_witness :
  let w := idle mounted (Some 2) (Some 5) in
  let final := handleGenerate novel (failingAt 3) w in
  failsOn (failingAt 3 3) (lit "Third page.")
  /\ (exists earlier,
         audioSegments (app final) = audioSegments (app w) ++ earlier
         /\ Forall (fun seg => from (pageRange seg) < 3
                              /\ to (pageRange seg) = from (pageRange seg))
                   earlier)
  /\ generationStatus final = idleStatus
  /\ error (app final) <> None.
Proof.
  intros w final.
  assert (Hfail : failsOn (failingAt 3 3) (lit "Third page.")).
  { exists 0, (lit "Third page."), (ErrorObject (lit "503 Service Unavailable")).
    split; vm_compute; reflexivity. }
  split; [exact Hfail|].
  set (entered := fst (pageLoop (closureOf novel 2 w) (failingAt 3) [2]
                                (startRun novel 2 5 w))).
  assert (Hv : invalidRange novel 2 5 = false) by (vm_compute; reflexivity).
  assert (Hseq : seq 2 (5 - 2 + 1) = [2] ++ 3 :: [4; 5]) by reflexivity.
  assert (Hloop : pageLoop (closureOf novel 2 w) (failingAt 3) [2]
                           (startRun novel 2 5 w) = (entered, Continue))
    by (vm_compute; reflexivity).
  assert (Ht : nth_error (pages novel) (3 - 1) = Some (lit "Third page."))
    by reflexivity.
  assert (Hb : blank (lit "Third page.") = false) by (vm_compute; reflexivity).
  destruct (synthesis_failure_halts_run novel (failingAt 3) w
              [2] [4; 5] 3 (lit "Third page.") entered
              Hv Hseq Hloop Ht Hb Hfail) as (_ & _ & H2 & H3 & H4).
  exact (conj H2 (conj H3 H4)).
Defined.

(** C5, as the specification states it, fails in its last point: the
    run has one channel for what it reports, [setError], the state behind
    the error banner of the page, and a cancellation goes through it. *)
Lemma cancellation_sets_error :
  let final := handleGenerate novel (stoppedAt 3) (idle mounted (Some 2) (Some 5)) in
  stopped (stoppedAt 3 3)
  /\ error (app final)
     = Some cancelledMessage
  /\ error (app final) <> None.
Proof.
  repeat apply conj.
  - exists (inject_Z 3); left; reflexivity.
  - vm_compute; reflexivity.
  - vm_compute; discriminate.
Qed.

(** C5, amended: when the stop button is clicked while the calls for
    page [p] are awaited, the run is over at that page, the playlist is
    the one the run had when it entered the page (every segment completed
    before is kept and none is appended), the status is cleared, and the
    cancellation is reported through the error state, as the message
    "Audio generation was cancelled by the user." in place of any
    failure message. *)
Theorem cancellation_halts_run
        (bk : Book) (schedule : nat -> Await) (w : World)
        (before after : list nat) (p : nat) (text : jsstring)
        (entered : World) :
  let lo := Number (fromPage w) in
  let hi := Number (toPage w) in
  let final := handleGenerate bk schedule w in
  invalidRange bk lo hi = false ->
  seq lo (hi - lo + 1) = before ++ p :: after ->
  pageLoop (closureOf bk lo w) schedule before (startRun bk lo hi w)
  = (entered, Continue) ->
  nth_error (pages bk) (p - 1) = Some text ->
  blank text = false ->
  stopped (schedule p) ->
  final = finishRun (processPage (closureOf bk lo w) schedule p entered)
  /\ audioSegments (app final) = audioSegments (app entered)
  /\ (exists earlier,
         audioSegments (app final) = audioSegments (app w) ++ earlier
         /\ Forall (fun seg => from (pageRange seg) < p
                              /\ to (pageRange seg) = from (pageRange seg))
                   earlier)
  /\ generationStatus final = idleStatus
  /\ error (app final)
     = Some cancelledMessage.
Proof.
  intros lo hi final Hv Hseq Hloop Ht Hb Hstop.
  destruct (pageLoop_playlist _ _ _ _ _ _ Hloop) as (_ & Hg).
  destruct (startRun_facts bk lo hi w) as (_ & Sg & _).
  rewrite Sg in Hg.
  destruct (processPage_stopped (closureOf bk lo w) schedule p entered text
              Hg Ht Hb Hstop) as (Hexit & Hsame & Hc).
  destruct (halted_at bk schedule w before after p entered
              Hv Hseq Hloop Hexit Hsame) as (Hrun & H1 & H2 & H3 & _).
  subst final. repeat apply conj; auto.
  rewrite Hrun. fold lo.
  destruct (processPage (closureOf bk lo w) schedule p entered)
    as [w2 exit]; cbn [fst snd] in *.
  destruct (finishRun_facts w2 exit) as (_ & _ & _ & Fc & _).
  exact (Fc Hc).
Qed.

Lemma cancellation_halts_run_witness :
  let w := idle mounted (Some 2) (Some 5) in
  let final := handleGenerate novel (stoppedAt 3) w in
  stopped (stoppedAt 3 3)
  /\ audioSegments (app final)
     = audioSegments
         (app (fst (pageLoop (closureOf novel 2 w) (stoppedAt 3) [2]
                             (startRun novel 2 5 w))))
  /\ generationStatus final = idleStatus
  /\ error (app final)
     = Some cancelledMessage.
Proof.
  intros w final.
  assert (Hstop : stopped (stoppedAt 3 3))
    by (exists (inject_Z 3); left; reflexivity).
  split; [exact Hstop|].
  set (entered := fst (pageLoop (closureOf novel 2 w) (stoppedAt 3) [2]
                                (startRun novel 2 5 w))).
  assert (Hv : invalidRange novel 2 5 = false) by (vm_compute; reflexivity).
  assert (Hseq : seq 2 (5 - 2 + 1) = [2] ++ 3 :: [4; 5]) by reflexivity.
  assert (Hloop : pageLoop (closureOf novel 2 w) (stoppedAt 3) [2]
                           (startRun novel 2 5 w) = (entered, Continue))
    by (vm_compute; reflexivity).
  assert (Ht : nth_error (pages novel) (3 - 1) = Some (lit "Third page."))
    by reflexivity.
  assert (Hb : blank (lit "Third page.") = false) by (vm_compute; reflexivity).
  destruct (cancellation_halts_run novel (stoppedAt 3) w
              [2] [4; 5] 3 (lit "Third page.") entered
              Hv Hseq Hloop Ht Hb Hstop) as (_ & H1 & _ & H3 & H4).
  exact (conj H1 (conj H3 H4)).
Defined.


(** C8: over the range 3 to 5 with page 4 blank and pages 3 and 5 not,
    when the calls succeed and the run is not stopped, the loop ends
    normally having appended exactly two segments, tagged 3-3 and 5-5,
    with progress 3 out of a total of 3; the finished run leaves those
    two segments in the playlist. *)
Theorem blank_page_counts_without_segment
        (bk : Book) (schedule : nat -> Await) (w : World)
        (text3 text4 text5 : jsstring) :
  fromPage w = Some 3 ->
  toPage w = Some 5 ->
  nth_error (pages bk) 2 = Some text3 ->
  nth_error (pages bk) 3 = Some text4 ->
  nth_error (pages bk) 4 = Some text5 ->
  blank text3 = false ->
  blank text4 = true ->
  blank text5 = false ->
  succeeds (schedule 3) -> undisturbed (schedule 3) ->
  succeeds (schedule 5) -> undisturbed (schedule 5) ->
  exists seg3 seg5 w',
    runLoop bk schedule w = (w', Continue)
    /\ audioSegments (app w') = audioSegments (app w) ++ [seg3; seg5]
    /\ pageRange seg3 = {| from := 3; to := 3 |}
    /\ pageRange seg5 = {| from := 5; to := 5 |}
    /\ progress (generationStatus w') = 3
    /\ total (generationStatus w') = 3
    /\ audioSegments (app (handleGenerate bk schedule w))
       = audioSegments (app w) ++ [seg3; seg5].
Proof.
  intros Hf Ht H3 H4 H5 B3 B4 B5 S3 U3 S5 U5.
  assert (Hv : invalidRange bk 3 5 = false).
  { unfold invalidRange.
    assert (4 < List.length (pages bk)) by (apply nth_error_Some; congruence).
    destruct (Nat.ltb_spec (List.length (pages bk)) 5); [lia|reflexivity]. }
  destruct (startRun_facts bk 3 5 w) as (A0 & _ & C0 & P0 & T0 & _).
  set (c := closureOf bk 3 w).
  destruct (processPage_succeeds c schedule 3 (startRun bk 3 5 w) text3
              C0 H3 B3 S3 U3)
    as (w1 & seg3 & E1 & A1 & R1 & _ & C1 & P1 & T1).
  destruct (processPage_blank c schedule 4 w1 text4 C1 H4 B4)
    as (w2 & E2 & A2 & C2 & P2 & T2).
  destruct (processPage_succeeds c schedule 5 w2 text5 C2 H5 B5 S5 U5)
    as (w3 & seg5 & E3 & A3 & R3 & _ & C3 & P3 & T3).
  assert (Hloop : runLoop bk schedule w = (w3, Continue)).
  { unfold runLoop; rewrite Hf, Ht; cbn [Number Nat.sub Nat.add seq pageLoop].
    fold c. rewrite E1, E2, E3. reflexivity. }
  assert (Hlist : audioSegments (app w3) = audioSegments (app w) ++ [seg3; seg5]).
  { rewrite A3, A2, A1, A0, <- app_assoc; reflexivity. }
  exists seg3, seg5, w3.
  repeat apply conj; auto.
  - rewrite P3, P2, P1, P0; reflexivity.
  - rewrite T3, T2, T1, T0; reflexivity.
  - unfold handleGenerate; rewrite Hf, Ht; cbn [Number]; rewrite Hv.
    change (runLoop bk schedule w) with
      (pageLoop (closureOf bk (Number (fromPage w)) w) schedule
         (seq (Number (fromPage w))
              (Number (toPage w) - Number (fromPage w) + 1))
         (startRun bk (Number (fromPage w)) (Number (toPage w)) w)) in Hloop.
    rewrite Hf, Ht in Hloop; cbn [Number] in Hloop.
    unfold runLoop; rewrite Hf, Ht; cbn [Number].
    rewrite Hloop.
    destruct (finishRun_facts w3 Continue) as (-> & _). exact Hlist.
Qed.

Lemma blank_page_counts_without_segment_witness :
  let w := idle mounted (Some 3) (Some 5) in
  succeeds (quiet 3) /\ undisturbed (quiet 3)
  /\ exists seg3 seg5 w',
      runLoop novel quiet w = (w', Continue)
      /\ audioSegments (app w') = audioSegments (app w) ++ [seg3; seg5]
      /\ pageRange seg3 = {| from := 3; to := 3 |}
      /\ pageRange seg5 = {| from := 5; to := 5 |}
      /\ progress (generationStatus w') = 3
      /\ total (generationStatus w') = 3
      /\ audioSegments (app (handleGenerate novel quiet w))
         = audioSegments (app w) ++ [seg3; seg5].
Proof.
  intros w.
  assert (Hs : forall n, succeeds (quiet n)).
  { intros n i chunk; eexists; eexists; split; reflexivity. }
  assert (Hu : forall n, undisturbed (quiet n)) by (intros n; constructor).
  split; [apply Hs|]. split; [apply Hu|].
  apply (blank_page_counts_without_segment novel quiet w
           (lit "Third page.") (lit " ") (lit "Fifth page!"));
    try reflexivity; try apply Hs; try apply Hu; vm_compute; reflexivity.
Defined.

Lemma deliver_app (w w' : World) (e : Q * PageEvent) :
  app w = app w' -> app (deliver w e) = app (deliver w' e).
Proof.
  intros H; unfold deliver; destruct (snd e).
  - cbn; rewrite H; reflexivity.
  - destruct (isGenerating (generationStatus w)),
             (isGenerating (generationStatus w')); exact H.
Qed.

Lemma deliveries_app (evs : list (Q * PageEvent)) :
  forall w w', app w = app w' ->
               app (fold_left deliver evs w) = app (fold_left deliver evs w').
Proof.
  induction evs as [|e evs IH]; intros w w' H; simpl; [exact H|].
  apply IH, deliver_app, H.
Qed.

(** Where the closure does not let the page autoplay, the page leaves the
    selection and [isPlaying] as they were when it was entered or, past
    the await, as the events of the await left them. *)
Lemma selection_kept_without_autoplay (c : Closure) (schedule : nat -> Await)
      (pageNum : nat) (w : World) :
  autoplays c pageNum = false ->
  let r := processPage c schedule pageNum w in
  let resumed := fold_left deliver (during (schedule pageNum)) w in
  (currentSegment (app (fst r)) = currentSegment (app w)
   /\ isPlaying (app (fst r)) = isPlaying (app w))
  \/ (currentSegment (app (fst r)) = currentSegment (app resumed)
      /\ isPlaying (app (fst r)) = isPlaying (app resumed)).
Proof.
  intros Hno r resumed; subst r.
  unfold processPage.
  destruct (isCancelledRef w); [left; split; reflexivity|].
  set (w1 := setMessage _ w).
  destruct (nth_error _ _) as [textToProcess|]; [|left; split; reflexivity].
  destruct (blank textToProcess); [left; split; reflexivity|].
  right.
  assert (Happ : app (fold_left deliver (during (schedule pageNum)) w1)
                 = app resumed)
    by (apply deliveries_app; reflexivity).
  set (w2 := fold_left deliver (during (schedule pageNum)) w1) in *.
  rewrite <- Happ.
  destruct (promiseAll (mapi_from _ _ _)); [|split; reflexivity].
  destruct (promiseAll (map _ _)) as [audioBuffers|]; [|split; reflexivity].
  destruct (isCancelledRef w2); [split; reflexivity|].
  destruct audioBuffers as [|first more]; [split; reflexivity|].
  cbn [fst app incrementProgress setGenerationStatus set_app].
  match goal with
  | |- context [render ?n ?p ?s] =>
      destruct (PlaybackSpec.render_state n p s) as (_ & -> & -> & _)
  end.
  unfold autoplays in Hno.
  destruct (pageNum =? firstPage c); [|split; reflexivity].
  unfold handleAutoplayFirstSegment.
  destruct (closedIsPlaying c); [split; reflexivity|].
  destruct (closedSegment c); [split; reflexivity|discriminate].
Qed.

(** [handleAutoplayFirstSegment] never looks at the state it is applied
    to: the test is on the values its closure holds. *)
Lemma autoplay_ignores_current_state (seg : AudioSegment) (st : App) :
  handleAutoplayFirstSegment false None seg st
  = setIsPlaying true (setCurrentSegment (Some seg) st).
Proof. reflexivity. Qed.

(** C10: the claim is that the segment of the first page is played
    automatically only if nothing is selected and nothing plays at that
    moment.  The code tests the [isPlaying] and [currentSegment] of the
    render in which the run was started.  A first run over pages 1 to 2,
    page 1 blank, leaves the segment of page 2 with nothing selected; a
    second run is started for page 3; while its call is awaited the play
    button is clicked and the segment of page 2 plays; when the run
    resumes, the segment of page 3 is selected in its place. *)
Lemma autoplay_tests_stale_state :
  let clicked := secondRequest in
  let awaiting :=
    fold_left deliver (during (playClickedAt 3 3)) (startRun novel 3 3 clicked) in
  let final := handleGenerate novel (playClickedAt 3) clicked in
  (currentSegment (app clicked) = None /\ isPlaying (app clicked) = false)
  /\ (option_map pageRange (currentSegment (app awaiting))
      = Some {| from := 2; to := 2 |}
      /\ isPlaying (app awaiting) = true)
  /\ (option_map pageRange (currentSegment (app final))
      = Some {| from := 3; to := 3 |}
      /\ isPlaying (app final) = true).
Proof.
  repeat apply conj; vm_compute; reflexivity.
Qed.

End GenerationSpec.

(** * Further properties *)

Module ChunkerFacts.
Import JsString Chunker ChunkerTerms ChunkerSpec.

(** *** Where the chunker returns nothing *)

Lemma visible_nil_blank (text : jsstring) :
  visible text = [] <-> blank text = true.
Proof.
  rewrite blank_forallb; unfold visible.
  induction text as [|c text IH]; simpl; [tauto|].
  destruct (is_ws c); simpl; [exact IH|].
  split; discriminate.
Qed.

(** X1: with a positive budget the chunker returns no chunk exactly
    for a text that is empty or holds only whitespace. *)
Theorem no_chunks_iff_blank (maxChars : nat) (text : jsstring) :
  0 < maxChars ->
  (calculateChunksWith maxChars text = [] <-> blank text = true).
Proof.
  intros Hmax; split.
  - intros Hnil.
    pose proof (calculateChunksWith_concat maxChars text Hmax) as E.
    pose proof (getSentencesFromText_dw text) as D.
    rewrite <- E, Hnil in D. apply dw_visible in D.
    apply visible_nil_blank. symmetry; exact D.
  - intros Hb; unfold calculateChunksWith; rewrite Hb; reflexivity.
Qed.

Lemma no_chunks_iff_blank_witness :
  0 < 10
  /\ calculateChunksWith 10 (lit "  ") = []
  /\ blank (lit "Hi.") <> true.
Proof.
  split; [lia|]. split.
  - apply (no_chunks_iff_blank 10 (lit "  ")); [lia|vm_compute; reflexivity].
  - vm_compute; discriminate.
Defined.

(** *** No empty chunk *)

Lemma hardSplit_loop_nonempty (maxChars : nat) (sentence : jsstring) :
  0 < maxChars ->
  forall fuel i,
    Forall (fun c => c <> []) (hardSplit_loop fuel maxChars sentence i).
Proof.
  intros Hmax; induction fuel as [|fuel IH]; intros i; cbn [hardSplit_loop];
    [constructor|].
  destruct (i <? length sentence) eqn:E; constructor; [|apply IH].
  apply Nat.ltb_lt in E. unfold substring.
  intros H; apply (f_equal (@length _)) in H.
  rewrite length_firstn, length_skipn in H; simpl in H; lia.
Qed.

Lemma flush_nonempty (st : packing) :
  Forall (fun c => c <> []) (textChunks st) ->
  Forall (fun c => c <> []) (flush st).
Proof.
  intros H; unfold flush.
  destruct (currentChunk st) eqn:E; simpl; [exact H|].
  apply Forall_app; split; [exact H|].
  repeat constructor; discriminate.
Qed.

Lemma pack_nonempty (maxChars : nat) (st : packing) (sentence : jsstring) :
  0 < maxChars ->
  Forall (fun c => c <> []) (textChunks st) ->
  Forall (fun c => c <> []) (textChunks (pack maxChars st sentence)).
Proof.
  intros Hmax H; unfold pack.
  destruct (maxChars <? length sentence) eqn:E1; cbn [textChunks].
  - apply Forall_app; split; [apply flush_nonempty; exact H|].
    apply hardSplit_loop_nonempty; exact Hmax.
  - destruct (maxChars <? length (currentChunk st ++ sentence)) eqn:E2;
      cbn [textChunks]; [|exact H].
    apply Forall_app; split; [exact H|].
    constructor; [|constructor].
    intros Hnil; rewrite Hnil in E2; simpl in E2; congruence.
Qed.

Lemma fold_pack_nonempty (maxChars : nat) (sentences : list jsstring) :
  0 < maxChars ->
  forall st,
    Forall (fun c => c <> []) (textChunks st) ->
    Forall (fun c => c <> [])
           (textChunks (fold_left (pack maxChars) sentences st)).
Proof.
  intros Hmax; induction sentences as [|x xs IH]; intros st H; simpl;
    [exact H|].
  apply IH, pack_nonempty; assumption.
Qed.

(** X2: with a positive budget no chunk is the empty string, so no
    request is made for nothing. *)
Theorem chunks_never_empty (maxChars : nat) (text : jsstring) :
  0 < maxChars ->
  Forall (fun chunk => chunk <> []) (calculateChunksWith maxChars text).
Proof.
  intros Hmax; unfold calculateChunksWith.
  destruct (blank text); [constructor|].
  apply flush_nonempty, fold_pack_nonempty; [exact Hmax|constructor].
Qed.

Lemma chunks_never_empty_witness :
  0 < 6
  /\ Forall (fun chunk => chunk <> [])
            (calculateChunksWith 6 (lit "One. Two!  Three? Abcdefghijk.")).
Proof.
  split; [lia|].
  apply (chunks_never_empty 6 (lit "One. Two!  Three? Abcdefghijk.")); lia.
Defined.

(** *** A short text is one chunk *)

Lemma fold_pack_short (maxChars : nat) (sentences : list jsstring) :
  forall st,
    length (currentChunk st ++ concat sentences) <= maxChars ->
    fold_left (pack maxChars) sentences st
    = {| textChunks := textChunks st;
         currentChunk := currentChunk st ++ concat sentences |}.
Proof.
  induction sentences as [|x xs IH]; intros st H; simpl in *.
  - rewrite app_nil_r; destruct st; reflexivity.
  - rewrite !length_app in H.
    unfold pack at 2.
    destruct (Nat.ltb_spec maxChars (length x)); [lia|].
    destruct (Nat.ltb_spec maxChars (length (currentChunk st ++ x)));
      [rewrite length_app in *; lia|].
    rewrite IH; cbn [textChunks currentChunk].
    + rewrite <- app_assoc; reflexivity.
    + rewrite !length_app in *; lia.
Qed.

(** X3: a text that is not blank and whose sentence units together fit
    the budget is sent as one chunk, which is the text without the
    whitespace the sentence splitter drops. *)
Theorem short_text_is_one_chunk (maxChars : nat) (text : jsstring) :
  blank text = false ->
  length (stripped text) <= maxChars ->
  calculateChunksWith maxChars text = [stripped text].
Proof.
  intros Hb Hlen; unfold calculateChunksWith; rewrite Hb.
  pose proof (getSentencesFromText_stripped text) as E.
  rewrite fold_pack_short by (cbn [currentChunk app]; rewrite E; exact Hlen).
  unfold flush; cbn [currentChunk textChunks app]; rewrite E.
  destruct (stripped text) eqn:Es; [|reflexivity].
  exfalso.
  pose proof (getSentencesFromText_dw text) as D.
  rewrite E in D. apply dw_visible in D.
  assert (blank text = true) by (apply visible_nil_blank; symmetry; exact D).
  congruence.
Qed.

Lemma short_text_is_one_chunk_witness :
  blank (lit "Hi there. Bye.") = false
  /\ calculateChunksWith 20 (lit "Hi there. Bye.") = [lit "Hi there.Bye."].
Proof.
  assert (Hb : blank (lit "Hi there. Bye.") = false) by (vm_compute; reflexivity).
  split; [exact Hb|].
  rewrite (short_text_is_one_chunk 20 (lit "Hi there. Bye.") Hb);
    [vm_compute; reflexivity|vm_compute; lia].
Defined.

(** *** Sentence units end at their terminator *)

Lemma split_loop_pending (fuel : nat) :
  forall prev piece rest,
    pending prev piece ->
    Forall (fun p => terminatorFree (removelast p) = true)
           (split_loop fuel prev piece rest).
Proof.
  induction fuel as [|fuel IH]; intros prev piece rest Hp; [constructor|].
  assert (Hpiece : terminatorFree (removelast piece) = true).
  { destruct Hp as [->|(before & x & -> & _ & Hb)]; [reflexivity|].
    rewrite removelast_last; exact Hb. }
  assert (Hadv : forall c rest',
            piece = [] \/ after prev = false ->
            Forall (fun p => terminatorFree (removelast p) = true)
                   (split_loop fuel (Some c) (piece ++ [c]) rest')).
  { intros c rest' Hfree. apply IH. right. exists piece, c.
    split; [reflexivity|]. split; [reflexivity|].
    destruct Hp as [->|(before & x & -> & -> & Hb)]; [reflexivity|].
    destruct Hfree as [Hnil|Ha]; [destruct before; discriminate|].
    unfold terminatorFree in *; rewrite forallb_app, Hb; simpl in *.
    rewrite Ha; reflexivity. }
  destruct rest as [|c rest']; cbn [split_loop].
  - constructor; [exact Hpiece|constructor].
  - destruct (sep_match prev (c :: rest')) as [[w r]|] eqn:Em.
    + assert (Hpush : forall prev',
                Forall (fun p => terminatorFree (removelast p) = true)
                       (piece :: split_loop fuel prev' [] r)).
      { intros prev'; constructor; [exact Hpiece|].
        apply IH; left; reflexivity. }
      destruct piece as [|a piece], w as [|b w]; try apply Hpush.
      apply Hadv; left; reflexivity.
    + apply Hadv; right.
      unfold sep_match in Em. destruct prev as [p|]; [|reflexivity].
      simpl. destruct (is_terminator p); [discriminate|reflexivity].
Qed.

(** X4: in a sentence unit no code unit before the last is a
    terminator ('.', '!', '?' or a line break): a unit ends at its first
    terminator or at the end of the text. *)
Theorem sentences_end_at_terminator (text : jsstring) :
  Forall (fun sentence => terminatorFree (removelast sentence) = true)
         (getSentencesFromText text).
Proof.
  unfold getSentencesFromText.
  destruct (negb (truthy text) || blank text); [constructor|].
  apply Forall_forall; intros x Hx.
  apply filter_In in Hx as [Hx _].
  pose proof (split_loop_pending (2 * length text + 2) None [] text
                (or_introl eq_refl)) as H.
  rewrite Forall_forall in H; apply H; exact Hx.
Qed.

(** *** The slices of a hard split *)

Lemma hardSplit_loop_shape (maxChars : nat) (sentence : jsstring) :
  0 < maxChars ->
  forall fuel i,
    length sentence - i < fuel ->
    i < length sentence ->
    exists full last,
      hardSplit_loop fuel maxChars sentence i = full ++ [last]
      /\ Forall (fun c => length c = maxChars) full
      /\ 0 < length last <= maxChars
      /\ length full = (length sentence - i - 1) / maxChars.
Proof.
  intros Hmax; induction fuel as [|fuel IH]; intros i Hf Hi; [lia|].
  cbn [hardSplit_loop].
  destruct (Nat.ltb_spec i (length sentence)); [|lia].
  assert (Hslice : length (substring i (i + maxChars) sentence)
                   = Nat.min maxChars (length sentence - i)).
  { unfold substring. rewrite length_firstn, length_skipn.
    f_equal; lia. }
  destruct (Nat.ltb_spec (i + maxChars) (length sentence)) as [Hmore|Hlast].
  - destruct (IH (i + maxChars)) as (full & last & -> & Hfull & Hlen & Hcount);
      [lia|exact Hmore|].
    exists (substring i (i + maxChars) sentence :: full), last.
    split; [reflexivity|]. split; [constructor; [lia|exact Hfull]|].
    split; [exact Hlen|].
    cbn [length]; rewrite Hcount.
    replace (length sentence - i - 1)
      with (length sentence - (i + maxChars) - 1 + 1 * maxChars) by lia.
    rewrite Nat.div_add by lia. lia.
  - exists [], (substring i (i + maxChars) sentence).
    split.
    + destruct fuel as [|fuel']; [reflexivity|].
      cbn [hardSplit_loop].
      destruct (Nat.ltb_spec (i + maxChars) (length sentence)); [lia|reflexivity].
    + split; [constructor|]. split; [lia|].
      symmetry; apply Nat.div_small; lia.
Qed.

(** X5: the hard split of a sentence that is not empty gives slices of
    exactly the budget followed by a last slice that is not empty and
    not longer than the budget; there are (length - 1) / budget full
    slices, and the slices put together give the sentence. *)
Theorem hardSplit_slices (maxChars : nat) (sentence : jsstring) :
  0 < maxChars ->
  sentence <> [] ->
  exists full last,
    hardSplit maxChars sentence = full ++ [last]
    /\ Forall (fun c => length c = maxChars) full
    /\ 0 < length last <= maxChars
    /\ length full = (length sentence - 1) / maxChars
    /\ concat (full ++ [last]) = sentence.
Proof.
  intros Hmax Hne.
  assert (0 < length sentence) by (destruct sentence; [congruence|simpl; lia]).
  destruct (hardSplit_loop_shape maxChars sentence Hmax
              (S (length sentence)) 0) as (full & last & E & Hf & Hl & Hc);
    [lia|lia|].
  exists full, last. unfold hardSplit. rewrite E.
  repeat split; try tauto.
  - rewrite Hc; f_equal; lia.
  - rewrite <- E. apply (hardSplit_concat maxChars sentence Hmax).
Qed.

Lemma hardSplit_slices_witness :
  0 < 4 /\ lit "abcdefghij" <> []
  /\ exists full last,
      hardSplit 4 (lit "abcdefghij") = full ++ [last]
      /\ Forall (fun c => length c = 4) full
      /\ 0 < length last <= 4
      /\ length full = (length (lit "abcdefghij") - 1) / 4
      /\ concat (full ++ [last]) = lit "abcdefghij".
Proof.
  assert (H0 : 0 < 4) by lia.
  assert (H1 : lit "abcdefghij" <> []) by (vm_compute; discriminate).
  exact (conj H0 (conj H1 (hardSplit_slices 4 (lit "abcdefghij") H0 H1))).
Defined.

End ChunkerFacts.

Module AudioFacts.
Import JsString Audio AudioTerms.

Lemma pairs_ind (A : Type) (P : list A -> Prop) :
  P [] -> (forall x, P [x]) ->
  (forall x y l, P l -> P (x :: y :: l)) ->
  forall l, P l.
Proof.
  intros H0 H1 H2.
  assert (H : forall l, P l /\ forall x, P (x :: l)).
  { induction l as [|y l [IH1 IH2]]; [split; auto|].
    split; [apply IH2|]. intros x; apply H2; exact IH1. }
  intros l; apply H.
Qed.




(** *** Samples *)

Lemma int16Array_range (data : list Z) :
  bytes data ->
  forall values, int16Array data = Some values ->
  Forall (fun v => (-32768 <= v < 32768)%Z) values.
Proof.
  induction data as [|x|lo hi data IH] using pairs_ind; intros Hb values H.
  - injection H as <-; constructor.
  - discriminate.
  - cbn [int16Array] in H.
    inversion Hb as [|? ? Hlo Hb1]; subst.
    inversion Hb1 as [|? ? Hhi Hb2]; subst.
    remember (lo + 256 * hi)%Z as raw eqn:Hraw.
    destruct (int16Array data) as [rest|]; [|discriminate].
    cbv zeta in H; cbn [option_map] in H.
    injection H as <-.
    constructor; [|apply IH; auto].
    destruct (Z.leb_spec 32768 raw); lia.
Qed.

(** X7: every sample decoded from bytes is at least -1 and below 1. *)
Theorem decoded_samples_in_range (data : list Z) (b : AudioBuffer) :
  bytes data ->
  decodeAudioData data = Some b ->
  Forall (fun sample => (-1 <= sample /\ sample < 1)%Q) (getChannelData b 0).
Proof.
  intros Hb H; unfold decodeAudioData in H.
  destruct (int16Array data) as [values|] eqn:E; [|discriminate].
  injection H as <-.
  cbn [getChannelData channelData nth].
  apply Forall_map.
  eapply Forall_impl; [|apply (int16Array_range data Hb values E)].
  intros v [Hlo Hhi]; cbv beta.
  unfold Qdiv, Qle, Qlt; simpl. lia.
Qed.

Lemma decoded_samples_in_range_witness :
  bytes [0; 128; 255; 127]%Z
  /\ Forall (fun sample => (-1 <= sample /\ sample < 1)%Q)
            [(-32768 # 32768)%Q; (32767 # 32768)%Q].
Proof.
  assert (Hb : bytes [0; 128; 255; 127]%Z)
    by (repeat constructor; lia).
  split; [exact Hb|].
  assert (E : decodeAudioData [0; 128; 255; 127]%Z
              = Some {| numberOfChannels := 1; Audio.length := 2;
                        sampleRate := 24000%Q;
                        channelData :=
                          [[(-32768 # 32768)%Q; (32767 # 32768)%Q]] |})
    by (vm_compute; reflexivity).
  exact (decoded_samples_in_range _ _ Hb E).
Defined.

(** *** Concatenation *)







End AudioFacts.

Module FormatFacts.
Import JsString Audio Format.
Local Open Scope Q_scope.

Lemma Qfloor_unique (x : Q) (k : Z) :
  inject_Z k <= x -> x < inject_Z (k + 1) -> Qfloor x = k.
Proof.
  intros Hlo Hhi.
  assert (k <= Qfloor x)%Z.
  { rewrite <- (Qfloor_Z k). apply Qfloor_resp_le; exact Hlo. }
  assert (Qfloor x < k + 1)%Z.
  { rewrite Zlt_Qlt. eapply Qle_lt_trans; [apply Qfloor_le|exact Hhi]. }
  lia.
Qed.

Lemma Qfloor_minus_Z (x : Q) (z : Z) :
  Qfloor (x - inject_Z z) = (Qfloor x - z)%Z.
Proof.
  apply Qfloor_unique.
  - unfold Zminus; rewrite inject_Z_plus, inject_Z_opp.
    pose proof (Qfloor_le x). lra.
  - replace (Qfloor x - z + 1)%Z with ((Qfloor x + 1) + - z)%Z by lia.
    rewrite inject_Z_plus, inject_Z_opp.
    pose proof (Qlt_floor x). lra.
Qed.

Lemma Qfloor_div_60 (x : Q) : Qfloor (x / 60) = (Qfloor x / 60)%Z.
Proof.
  destruct x as [n d]; unfold Qdiv, Qmult, Qinv, Qfloor; simpl.
  rewrite Z.mul_1_r, Pos2Z.inj_mul, Z.div_div by lia.
  reflexivity.
Qed.

(** X10: for a time that is not negative [formatTime] prints the whole
    minutes and the whole seconds left over, each padded to two digits;
    the seconds are below 60, and 60 times the minutes plus the seconds
    is the time rounded down. *)
Theorem formatTime_parts (seconds : Q) :
  0 <= seconds ->
  let minutes := Qfloor (seconds / 60) in
  let remainingSeconds := Qfloor (remainder seconds 60) in
  formatTime seconds
  = padStart2 (String_ minutes) ++ lit ":" ++ padStart2 (String_ remainingSeconds)
  /\ (0 <= minutes)%Z
  /\ (0 <= remainingSeconds < 60)%Z
  /\ (minutes * 60 + remainingSeconds = Qfloor seconds)%Z.
Proof.
  intros Hs minutes remainingSeconds.
  assert (Hfl : (0 <= Qfloor seconds)%Z).
  { rewrite <- (Qfloor_Z 0). apply Qfloor_resp_le; exact Hs. }
  assert (Hm : minutes = (Qfloor seconds / 60)%Z) by apply Qfloor_div_60.
  assert (Hr : remainingSeconds = (Qfloor seconds - 60 * (Qfloor seconds / 60))%Z).
  { subst remainingSeconds; unfold remainder, truncate.
    assert (H0 : Qle_bool 0 (seconds / 60) = true).
    { apply Qle_bool_iff. unfold Qdiv.
      apply Qmult_le_0_compat; [exact Hs|discriminate]. }
    rewrite H0, Qfloor_div_60.
    setoid_replace (60 * inject_Z (Qfloor seconds / 60))
      with (inject_Z (60 * (Qfloor seconds / 60)))
      by (rewrite inject_Z_mult; reflexivity).
    apply Qfloor_minus_Z. }
  split.
  - unfold formatTime.
    replace (Qle_bool 0 seconds) with true
      by (symmetry; apply Qle_bool_iff; exact Hs).
    reflexivity.
  - rewrite Hm, Hr.
    pose proof (Z.div_mod (Qfloor seconds) 60 ltac:(lia)).
    pose proof (Z.mod_pos_bound (Qfloor seconds) 60 ltac:(lia)).
    pose proof (Z.div_pos (Qfloor seconds) 60 Hfl ltac:(lia)).
    lia.
Qed.

Lemma formatTime_parts_witness :
  0 <= 1259 # 10
  /\ formatTime (1259 # 10) = lit "02:05".
Proof.
  assert (H : 0 <= 1259 # 10) by (vm_compute; discriminate).
  split; [exact H|].
  destruct (formatTime_parts (1259 # 10) H) as (-> & _).
  vm_compute; reflexivity.
Defined.

Lemma Qceiling_nonpos (x : Q) : (Qceiling x <= 0)%Z <-> x <= 0.
Proof.
  split.
  - intros H. eapply Qle_trans; [apply Qle_ceiling|].
    rewrite Zle_Qle in H; exact H.
  - intros H.
    assert (Qceiling x - 1 < 0)%Z; [|lia].
    rewrite Zlt_Qlt. eapply Qlt_le_trans; [apply Qceiling_lt|exact H].
Qed.

Lemma Qceiling_below (x : Q) (k : Z) : (Qceiling x <= k)%Z <-> x <= inject_Z k.
Proof.
  split.
  - intros H. eapply Qle_trans; [apply Qle_ceiling|].
    rewrite Zle_Qle in H; exact H.
  - intros H.
    assert (Qceiling x - 1 < k)%Z; [|lia].
    rewrite Zlt_Qlt. eapply Qlt_le_trans; [apply Qceiling_lt|exact H].
Qed.

(** X11: [formatCountdown] shows nothing exactly when the estimate is
    0 or less, and the notice that the run is finishing exactly when the
    estimate is above 0 and at most 4 seconds. *)
Theorem formatCountdown_ends (seconds : Q) :
  (formatCountdown seconds = [] <-> seconds <= 0)
  /\ (formatCountdown seconds = lit "Finishing up..." <-> 0 < seconds <= 4).
Proof.
  unfold formatCountdown.
  pose proof (Qceiling_below seconds 0) as H0.
  pose proof (Qceiling_below seconds 4) as H4.
  change (inject_Z 0) with 0 in H0. change (inject_Z 4) with 4 in H4.
  destruct (Z.leb_spec (Qceiling seconds) 0) as [L0|L0].
  - split; [tauto|].
    split; [discriminate|]. intros [Hs _].
    apply H0 in L0. lra.
  - assert (Hpos : 0 < seconds).
    { apply Qnot_le_lt; intros Hle; apply H0 in Hle; lia. }
    destruct (Z.ltb_spec (Qceiling seconds) 5) as [L5|L5].
    + split; [split; [discriminate|intros; lra]|].
      split; [intros _; split; [exact Hpos|apply H4; lia]|reflexivity].
    + assert (Hbig : ~ seconds <= 4) by (intros Hle; apply H4 in Hle; lia).
      destruct (Z.ltb_spec (Qceiling seconds) 60).
      * split; (split; [discriminate|intros; lra]).
      * destruct (Z.rem (Qceiling seconds) 60 =? 0)%Z;
          split; (split; [discriminate|intros; lra]).
Qed.

Lemma formatCountdown_ends_witness :
  0 < 7 # 2 <= 4 /\ formatCountdown (7 # 2) = lit "Finishing up...".
Proof.
  assert (H : 0 < 7 # 2 <= 4)
    by (split; [vm_compute; reflexivity|vm_compute; discriminate]).
  exact (conj H (proj2 (proj2 (formatCountdown_ends (7 # 2))) H)).
Defined.


End FormatFacts.

Module GenerationFacts.
Import JsString Chunker Audio Playback Generation GenerationTerms GenerationSpec.
Import AudioTerms.

(** *** Segment ids *)







(** *** What a page appends *)

Lemma processPage_appends (c : Closure) (schedule : nat -> Await)
      (pageNum : nat) (w : World) :
  let r := processPage c schedule pageNum w in
  audioSegments (app (fst r)) = audioSegments (app w)
  \/ exists seg,
      snd r = Continue
      /\ audioSegments (app (fst r)) = audioSegments (app w) ++ [seg]
      /\ pageRange seg = {| from := pageNum; to := pageNum |}
      /\ id seg = segmentId (dateNow (schedule pageNum)) pageNum
      /\ nth_error (pages (book c)) (pageNum - 1) = Some (text seg).
Proof.
  unfold processPage.
  destruct (isCancelledRef w) eqn:Hc; [cbn; auto|].
  set (w1 := setMessage _ w).
  destruct (nth_error _ _) as [textToProcess|]; [|cbn; auto].
  destruct (blank textToProcess); [cbn; auto|].
  set (a := schedule pageNum).
  pose proof (deliveries_keep (during a) w1) as (K1 & _).
  set (w2 := fold_left deliver (during a) w1) in *.
  destruct (promiseAll (mapi_from _ _ _)); [|cbn; auto].
  destruct (promiseAll (map _ _)) as [audioBuffers|]; [|cbn; auto].
  destruct (isCancelledRef w2); [cbn; auto|].
  destruct audioBuffers as [|first more]; [cbn; auto|].
  cbn [fst snd].
  match goal with
  | |- context [setAudioSegments (_ ++ [?s]) _] => set (newSegment := s)
  end.
  right; exists newSegment.
  split; [reflexivity|].
  split; [|repeat split].
  cbn [app incrementProgress setGenerationStatus set_app].
  match goal with
  | |- context [render ?n ?p ?s] =>
      destruct (PlaybackSpec.render_state n p s) as (-> & _)
  end.
  destruct (pageNum =? firstPage c);
    [rewrite autoplay_audioSegments|]; cbn; rewrite K1; reflexivity.
Qed.

(** *** Every run *)

Lemma pageLoop_ascending (c : Closure) (schedule : nat -> Await) (n : nat) :
  forall a w w' exit,
    pageLoop c schedule (seq a n) w = (w', exit) ->
    exists new,
      audioSegments (app w') = audioSegments (app w) ++ new
      /\ StronglySorted lt (map pageOf new)
      /\ Forall (fun seg =>
                   a <= pageOf seg < a + n
                   /\ pageRange seg = {| from := pageOf seg; to := pageOf seg |}
                   /\ id seg = segmentId (dateNow (schedule (pageOf seg)))
                                         (pageOf seg)
                   /\ nth_error (pages (book c)) (pageOf seg - 1)
                      = Some (text seg))
                new.
Proof.
  induction n as [|n IH]; intros a w w' exit H; simpl in H.
  - injection H as <- _. exists []; rewrite app_nil_r.
    repeat split; constructor.
  - pose proof (processPage_appends c schedule a w) as Hp.
    destruct (processPage c schedule a w) as [w1 e1]; cbn [fst snd] in *.
    assert (Hone : exists one,
               audioSegments (app w1) = audioSegments (app w) ++ one
               /\ (one = [] \/ exists seg,
                      one = [seg] /\ pageOf seg = a
                      /\ pageRange seg = {| from := a; to := a |}
                      /\ id seg = segmentId (dateNow (schedule a)) a
                      /\ nth_error (pages (book c)) (a - 1) = Some (text seg))).
    { destruct Hp as [Hp|(seg & _ & Hp & Hr & Hi & Ht)].
      - exists []; rewrite app_nil_r; auto.
      - exists [seg]; split; [exact Hp|right; exists seg].
        unfold pageOf; rewrite Hr; auto. }
    destruct Hone as (one & H1 & Hshape).
    assert (Hfirst : StronglySorted lt (map pageOf one)
                     /\ Forall (fun seg =>
                                  a <= pageOf seg < a + S n
                                  /\ pageRange seg
                                     = {| from := pageOf seg; to := pageOf seg |}
                                  /\ id seg
                                     = segmentId (dateNow (schedule (pageOf seg)))
                                                 (pageOf seg)
                                  /\ nth_error (pages (book c)) (pageOf seg - 1)
                                     = Some (text seg)) one
                     /\ Forall (fun seg => pageOf seg = a) one).
    { destruct Hshape as [->|(seg & -> & Hpg & Hr & Hi & Ht)].
      - repeat split; constructor.
      - repeat split; repeat constructor; rewrite ?Hpg; auto; lia. }
    destruct Hfirst as (S1 & F1 & P1).
    assert (Hstop : exit = e1 -> w' = w1 ->
              exists new,
                audioSegments (app w') = audioSegments (app w) ++ new
                /\ StronglySorted lt (map pageOf new)
                /\ Forall (fun seg =>
                             a <= pageOf seg < a + S n
                             /\ pageRange seg
                                = {| from := pageOf seg; to := pageOf seg |}
                             /\ id seg
                                = segmentId (dateNow (schedule (pageOf seg)))
                                            (pageOf seg)
                             /\ nth_error (pages (book c)) (pageOf seg - 1)
                                = Some (text seg)) new).
    { intros _ ->; exists one; auto. }
    destruct e1; try (injection H as <- <-; apply Hstop; reflexivity).
    destruct (IH (S a) w1 w' exit H) as (new & H2 & S2 & F2).
    exists (one ++ new). split; [rewrite H2, H1, app_assoc; reflexivity|].
    split.
    + rewrite map_app.
      destruct Hshape as [->|(seg & -> & Hpg & _)]; [exact S2|].
      cbn [map app]. constructor; [exact S2|].
      apply Forall_map. eapply Forall_impl; [|exact F2].
      intros x (Hx & _); cbv beta. lia.
    + apply Forall_app; split; [exact F1|].
      eapply Forall_impl; [|exact F2].
      intros x (Hx & Hrest); split; [lia|exact Hrest].
Qed.





(** *** The error state during a run *)

Lemma render_error (now : Q) (prev st : App) :
  error (render now prev st) = error st.
Proof.
  assert (Hc : forall p s, error (commit now p s) = error s).
  { intros p s; unfold commit.
    assert (R : error (rateEffect s) = error s)
      by (unfold rateEffect; destruct (sourceNodeRef s); reflexivity).
    assert (P : forall x, error (playbackEffect now x) = error x).
    { intros x; unfold playbackEffect.
      destruct (currentSegment x); [|reflexivity].
      destruct (negb (audioContextRef x)); [reflexivity|].
      destruct (isPlaying x); [reflexivity|].
      destruct (sourceNodeRef x); reflexivity. }
    assert (G : forall x, error (segmentEffect x) = error x)
      by (intros x; unfold segmentEffect; destruct (currentSegment x); reflexivity).
    destruct (negb _), (playbackDepsChanged p s), (segmentChanged _ _);
      rewrite ?G, ?P, ?R; reflexivity. }
  unfold render; rewrite !Hc; reflexivity.
Qed.

Lemma dispatch_error (now : Q) (ev : Playback.Event) (st : App) :
  error (dispatch now ev st) = error st.
Proof.
  destruct ev; cbn [dispatch]; rewrite ?render_error.
  - unfold handlePlaybackRequest; destruct (sameId _ _); reflexivity.
  - unfold handleMainPlayPause.
    destruct (currentSegment st); [reflexivity|].
    destruct (audioSegments st); reflexivity.
  - assert (H : error (handleSeek newTime st) = error st).
    { unfold handleSeek; destruct (negb _); [reflexivity|].
      cbn [isPlaying set_startOffsetRef setCurrentTime].
      destruct (isPlaying st); reflexivity. }
    destruct (isPlaying st && audioContextRef st);
      rewrite ?render_error; cbn; rewrite ?render_error; exact H.
  - reflexivity.
  - unfold tick; destruct (animationFrameRef st); reflexivity.
  - unfold onended. destruct (sourceNodeRef st); [|reflexivity].
    destruct (_ =? _); [|reflexivity].
    destruct (Qle_bool _ _); [|reflexivity].
    unfold handleTrackEnd. destruct (findIndex _ _); [|reflexivity].
    destruct (_ <? _)%Z; reflexivity.
Qed.

Lemma deliveries_error (evs : list (Q * PageEvent)) :
  forall w, error (app (fold_left deliver evs w)) = error (app w).
Proof.
  induction evs as [|e evs IH]; intros w; simpl; [reflexivity|].
  rewrite IH. unfold deliver. destruct (snd e).
  - apply dispatch_error.
  - destruct (isGenerating (generationStatus w)); reflexivity.
Qed.

Lemma processPage_error (c : Closure) (schedule : nat -> Await)
      (pageNum : nat) (w : World) :
  error (app (fst (processPage c schedule pageNum w))) = error (app w).
Proof.
  unfold processPage.
  destruct (isCancelledRef w); [reflexivity|].
  set (w1 := setMessage _ w).
  destruct (nth_error _ _) as [textToProcess|]; [|reflexivity].
  destruct (blank textToProcess); [reflexivity|].
  pose proof (deliveries_error (during (schedule pageNum)) w1) as K.
  set (w2 := fold_left deliver (during (schedule pageNum)) w1) in *.
  destruct (promiseAll (mapi_from _ _ _)); [|exact K].
  destruct (promiseAll (map _ _)) as [audioBuffers|]; [|exact K].
  destruct (isCancelledRef w2); [exact K|].
  destruct audioBuffers as [|first more]; [exact K|].
  cbn [fst app incrementProgress setGenerationStatus set_app].
  rewrite render_error.
  destruct (pageNum =? firstPage c); [|exact K].
  unfold handleAutoplayFirstSegment.
  destruct (closedIsPlaying c), (closedSegment c); exact K.
Qed.

(** *** A run that nothing disturbs *)

Lemma pageLoop_completes (c : Closure) (schedule : nat -> Await)
      (pageNums : list nat) :
  forall w,
    isCancelledRef w = false ->
    Forall (fun p => p - 1 < List.length (pages (book c))
                     /\ succeeds (schedule p) /\ undisturbed (schedule p))
           pageNums ->
    exists w' new,
      pageLoop c schedule pageNums w = (w', Continue)
      /\ audioSegments (app w') = audioSegments (app w) ++ new
      /\ map pageOf new = spokenPages (book c) pageNums
      /\ isCancelledRef w' = false
      /\ progress (generationStatus w')
         = progress (generationStatus w) + List.length pageNums
      /\ total (generationStatus w') = total (generationStatus w)
      /\ error (app w') = error (app w).
Proof.
  induction pageNums as [|p rest IH]; intros w Hc Hall.
  - exists w, []; cbn. rewrite app_nil_r, Nat.add_0_r. auto 10.
  - inversion Hall as [|? ? (Hlen & Hs & Hu) Hrest]; subst.
    destruct (nth_error (pages (book c)) (p - 1)) as [text|] eqn:Ht;
      [|apply nth_error_None in Ht; lia].
    pose proof (processPage_error c schedule p w) as He.
    assert (Hnth : nth (p - 1) (pages (book c)) [] = text)
      by (apply nth_error_nth; exact Ht).
    cbn [pageLoop spokenPages filter]. rewrite Hnth.
    destruct (blank text) eqn:Hb.
    + destruct (processPage_blank c schedule p w text Hc Ht Hb)
        as (w1 & E1 & A1 & C1 & P1 & T1).
      rewrite E1 in *; cbn [fst] in He.
      destruct (IH w1 C1 Hrest) as (w' & new & E & A & M & C' & P & T & Er).
      exists w', new. rewrite E. cbn [negb].
      repeat split; try assumption; try congruence.
      rewrite P, P1; cbn [List.length]; lia.
    + destruct (processPage_succeeds c schedule p w text Hc Ht Hb Hs Hu)
        as (w1 & seg & E1 & A1 & R1 & _ & C1 & P1 & T1).
      rewrite E1 in *; cbn [fst] in He.
      destruct (IH w1 C1 Hrest) as (w' & new & E & A & M & C' & P & T & Er).
      exists w', (seg :: new). rewrite E. cbn [negb map].
      repeat split; try assumption; try congruence.
      * rewrite A, A1, <- app_assoc; reflexivity.
      * unfold pageOf at 1; rewrite R1; cbn [from]. f_equal; exact M.
      * rewrite P, P1; cbn [List.length]; lia.
Qed.

(** X13: when every call of a run answers with audio that decodes and
    the stop button is not clicked, the loop is left at its end with the
    progress equal to the total, the number of pages of the range; no
    error is set, and the segments appended are those of the pages of
    the range that are not blank, in page order. *)
Theorem undisturbed_run_speaks_every_page
        (bk : Book) (schedule : nat -> Await) (w : World) :
  let lo := Number (fromPage w) in
  let hi := Number (toPage w) in
  invalidRange bk lo hi = false ->
  (forall p, lo <= p <= hi -> succeeds (schedule p) /\ undisturbed (schedule p)) ->
  let final := handleGenerate bk schedule w in
  snd (runLoop bk schedule w) = Continue
  /\ progress (generationStatus (fst (runLoop bk schedule w))) = hi - lo + 1
  /\ total (generationStatus (fst (runLoop bk schedule w))) = hi - lo + 1
  /\ generationStatus final = idleStatus
  /\ error (app final) = None
  /\ exists new,
      audioSegments (app final) = audioSegments (app w) ++ new
      /\ map pageOf new = spokenPages bk (seq lo (hi - lo + 1)).
Proof.
  intros lo hi Hv Hall final; subst final.
  assert (Hr : lo <= hi /\ 1 <= lo /\ hi <= List.length (pages bk)).
  { unfold invalidRange in Hv.
    apply orb_false_elim in Hv as [Hv H3].
    apply orb_false_elim in Hv as [H1 H2].
    apply Nat.ltb_ge in H1, H2, H3. lia. }
  destruct (startRun_facts bk lo hi w) as (S1 & _ & S3 & S4 & S5 & _).
  destruct (pageLoop_completes (closureOf bk lo w) schedule
              (seq lo (hi - lo + 1)) (startRun bk lo hi w) S3)
    as (w' & new & E & A & M & C & P & T & Er).
  { apply Forall_forall; intros p Hp. apply in_seq in Hp.
    split; [cbn [book closureOf]; lia|apply Hall; lia]. }
  assert (Hloop : runLoop bk schedule w = (w', Continue)) by exact E.
  unfold handleGenerate. fold lo hi. rewrite Hv, Hloop. cbn [fst snd].
  destruct (finishRun_facts w' Continue) as (F1 & F2 & _ & _ & F5).
  split; [reflexivity|].
  split; [rewrite P, S4, length_seq; reflexivity|].
  split; [rewrite T, S5; reflexivity|].
  split; [exact F2|].
  split; [rewrite (F5 C), Er; reflexivity|].
  exists new. split; [rewrite F1, A, S1; reflexivity|exact M].
Qed.

Lemma undisturbed_run_speaks_every_page_witness :
  let w := idle mounted (Some 1) (Some 5) in
  invalidRange Scenario.novel 1 5 = false
  /\ error (app (handleGenerate Scenario.novel Scenario.quiet w)) = None.
Proof.
  intros w.
  assert (Hv : invalidRange Scenario.novel 1 5 = false)
    by (vm_compute; reflexivity).
  split; [exact Hv|].
  assert (Hall : forall p, 1 <= p <= 5 ->
             succeeds (Scenario.quiet p) /\ undisturbed (Scenario.quiet p)).
  { intros p _; split.
    - intros i chunk; eexists; eexists; split; reflexivity.
    - constructor. }
  destruct (undisturbed_run_speaks_every_page Scenario.novel Scenario.quiet w
              Hv Hall) as (_ & _ & _ & _ & He & _).
  exact He.
Defined.


(** *** The countdown *)

Lemma qmax_step (x e k : Q) :
  (x == Qmax 0 (e - k))%Q ->
  (Qmax 0 (x - 1) == Qmax 0 (e - (k + 1)))%Q.
Proof.
  intros E.
  pose proof (Q.max_spec 0 (e - k)) as H1.
  pose proof (Q.max_spec 0 (x - 1)) as H2.
  pose proof (Q.max_spec 0 (e - (k + 1))) as H3.
  lra.
Qed.

Lemma qmax_stay (x e k : Q) :
  (x == Qmax 0 (e - k))%Q -> (x == 0)%Q ->
  (x == Qmax 0 (e - (k + 1)))%Q.
Proof.
  intros E Hz.
  pose proof (Q.max_spec 0 (e - k)) as H1.
  pose proof (Q.max_spec 0 (e - (k + 1))) as H3.
  lra.
Qed.

(** X14: while a run is generating, [n] firings of the one-second timer
    lower the estimate by [n] seconds, but not below 0, and leave
    the rest of the status, the player and the cancellation flag as
    they are. *)
Theorem countdown_runs_down (n : nat) (w : World) :
  isGenerating (generationStatus w) = true ->
  (0 <= estimatedTime (generationStatus w))%Q ->
  let w' := ticks n w in
  (estimatedTime (generationStatus w')
   == Qmax 0 (estimatedTime (generationStatus w) - inject_Z (Z.of_nat n)))%Q
  /\ (0 <= estimatedTime (generationStatus w'))%Q
  /\ app w' = app w
  /\ isGenerating (generationStatus w') = true
  /\ progress (generationStatus w') = progress (generationStatus w)
  /\ total (generationStatus w') = total (generationStatus w)
  /\ message (generationStatus w') = message (generationStatus w)
  /\ isCancelledRef w' = isCancelledRef w.
Proof.
  intros Hg He; induction n as [|n IH]; intros w'; subst w'.
  - cbn. repeat split; auto.
    change (inject_Z 0) with 0%Q.
    symmetry. rewrite Q.max_r; [ring|lra].
  - change (ticks (S n) w) with (countdown (ticks n w)).
    destruct IH as (E & H0 & A & G & P & T & M & C).
    set (v := ticks n w) in *.
    unfold countdown; cbv zeta. rewrite G; cbn [andb].
    rewrite Nat2Z.inj_succ, <- Z.add_1_r, inject_Z_plus.
    change (inject_Z 1) with 1%Q.
    destruct (Qle_bool (estimatedTime (generationStatus v)) 0) eqn:Q0;
      cbn [negb].
    + apply Qle_bool_iff in Q0.
      repeat split; auto.
      apply (qmax_stay _ _ _ E); lra.
    + assert (Hpos : ~ (estimatedTime (generationStatus v) <= 0)%Q).
      { intros Hle; apply Qle_bool_iff in Hle; congruence. }
      cbn [generationStatus setGenerationStatus estimatedTime app isGenerating
           progress total message isCancelledRef].
      repeat split; auto; [|apply Q.le_max_l].
      apply (qmax_step _ _ _ E).
Qed.

Lemma countdown_runs_down_witness :
  let w := startRun Scenario.novel 3 5 (idle mounted (Some 3) (Some 5)) in
  isGenerating (generationStatus w) = true
  /\ (0 <= estimatedTime (generationStatus w))%Q
  /\ (estimatedTime (generationStatus (ticks 4 w)) == 0)%Q.
Proof.
  intros w.
  assert (Hg : isGenerating (generationStatus w) = true) by reflexivity.
  assert (He : (0 <= estimatedTime (generationStatus w))%Q)
    by (vm_compute; discriminate).
  split; [exact Hg|]. split; [exact He|].
  destruct (countdown_runs_down 4 w Hg He) as (E & _).
  rewrite E. vm_compute; reflexivity.
Defined.

(** X15: when a page field is empty, the first page is 0, the last
    page is before the first or beyond the book, [handleGenerate] only
    sets the error for an invalid range: no call is made, the playlist,
    the selection, the status and the cancellation flag stay. *)
Theorem refused_range_does_no_work
        (bk : Book) (schedule : nat -> Await) (w : World) :
  fromPage w = None \/ toPage w = None
  \/ Number (fromPage w) = 0
  \/ Number (toPage w) < Number (fromPage w)
  \/ List.length (pages bk) < Number (toPage w) ->
  let final := handleGenerate bk schedule w in
  error (app final) = Some (lit "Invalid page range.")
  /\ audioSegments (app final) = audioSegments (app w)
  /\ currentSegment (app final) = currentSegment (app w)
  /\ isPlaying (app final) = isPlaying (app w)
  /\ generationStatus final = generationStatus w
  /\ isCancelledRef final = isCancelledRef w
  /\ forall schedule', handleGenerate bk schedule' w = final.
Proof.
  intros H final; subst final.
  assert (Hv : invalidRange bk (Number (fromPage w)) (Number (toPage w)) = true).
  { unfold invalidRange.
    destruct (Nat.ltb_spec (Number (toPage w)) (Number (fromPage w)));
      [reflexivity|].
    destruct (Nat.ltb_spec (Number (fromPage w)) 1); [reflexivity|].
    destruct (Nat.ltb_spec (List.length (pages bk)) (Number (toPage w)));
      [reflexivity|].
    exfalso.
    destruct H as [H|[H|[H|[H|H]]]]; try rewrite H in *; cbn in *; lia. }
  unfold handleGenerate; rewrite Hv. repeat split.
Qed.

Lemma refused_range_does_no_work_witness :
  let w := idle mounted None (Some 3) in
  fromPage w = None
  /\ error (app (handleGenerate Scenario.novel Scenario.quiet w))
     = Some (lit "Invalid page range.").
Proof.
  intros w.
  assert (H : fromPage w = None) by reflexivity.
  split; [exact H|].
  apply (refused_range_does_no_work Scenario.novel Scenario.quiet w
           (or_introl H)).
Defined.

(** *** The audio of a segment *)








End GenerationFacts.

Module PlaybackFacts.
Import JsString Audio Playback Controls PlaybackSpec.
Local Open Scope Q_scope.

(** *** Starting a source *)

Lemma play_render (now : Q) (st : App) (cur : AudioSegment) :
  audioContextRef st = true ->
  isPlaying st = false ->
  currentSegment st = Some cur ->
  render now st (setIsPlaying true st)
  = set_animationFrameRef (Some (duration st))
      (set_contextStartTimeRef now
         (set_sourceNodeRef
            (Some {| nodeId := nodesCreated st; buffer := audio cur;
                     nodePlaybackRate := playbackRate st;
                     startedAt := startOffsetRef st;
                     closureDuration := duration st |})
            (set_nodesCreated (S (nodesCreated st))
               (cleanupAudio (setIsPlaying true st))))).
Proof.
  intros Ha Hp Hc.
  set (R := set_animationFrameRef _ _).
  assert (R1 : commit now st (setIsPlaying true st) = R).
  { unfold commit, playbackDepsChanged.
    cbn [playbackRate currentSegment isPlaying duration setIsPlaying].
    rewrite !Qeq_bool_same, segmentChanged_refl, Hp. cbn [negb Bool.eqb orb].
    unfold playbackEffect.
    cbn [playbackRate currentSegment isPlaying duration setIsPlaying
         audioContextRef sourceNodeRef].
    rewrite Hc, Ha. reflexivity. }
  unfold render. rewrite R1.
  assert (R2 : commit now (setIsPlaying true st) R = R).
  { apply commit_quiet; [apply Qeq_bool_same|].
    unfold playbackDepsChanged; cbn.
    rewrite segmentChanged_refl, Qeq_bool_same; reflexivity. }
  rewrite R2.
  apply commit_quiet; [apply Qeq_bool_same|apply playbackDepsChanged_refl].
Qed.

(** X17: pausing keeps the position reached, capped at the duration, and
    releases the source and the frame callback; playing again creates a
    source on the same buffer that starts at the kept position. *)
Theorem pause_then_play_continues
        (st : App) (cur : AudioSegment) (source : SourceNode) (now later : Q) :
  rendering st cur source ->
  let paused := dispatch now ClickPlayPause st in
  let resumed := dispatch later ClickPlayPause paused in
  isPlaying paused = false
  /\ currentSegment paused = Some cur
  /\ sourceNodeRef paused = None
  /\ animationFrameRef paused = None
  /\ startOffsetRef paused = Qmin (computedPosition now st) (duration st)
  /\ isPlaying resumed = true
  /\ currentSegment resumed = Some cur
  /\ sourceNodeRef resumed
     = Some {| nodeId := nodesCreated st; buffer := audio cur;
               nodePlaybackRate := playbackRate st;
               startedAt := startOffsetRef paused;
               closureDuration := duration st |}
  /\ animationFrameRef resumed = Some (duration st)
  /\ computedPosition later resumed == startOffsetRef paused.
Proof.
  intros (Ha & Hp & Hc & Hs & Hd) paused resumed.
  assert (E : paused
              = cleanupAudio
                  (set_startOffsetRef
                     (Qmin (computedPosition now st) (duration st))
                     (setIsPlaying false st))).
  { unfold paused, dispatch. rewrite Hp. unfold handleMainPlayPause.
    rewrite Hc. cbn [negb]. apply (pause_render now st cur source Ha Hp Hc Hs). }
  assert (Pp : isPlaying paused = false) by (rewrite E; reflexivity).
  assert (Pc : currentSegment paused = Some cur) by (rewrite E; exact Hc).
  assert (Pa : audioContextRef paused = true) by (rewrite E; exact Ha).
  assert (E' : resumed = render later paused (setIsPlaying true paused)).
  { unfold resumed, dispatch, handleMainPlayPause.
    rewrite Pp, Pc; reflexivity. }
  rewrite (play_render later paused cur Pa Pp Pc) in E'.
  split; [rewrite E; reflexivity|].
  split; [rewrite E; exact Hc|].
  split; [rewrite E; reflexivity|].
  split; [rewrite E; reflexivity|].
  split; [rewrite E; reflexivity|].
  rewrite E'.
  split; [reflexivity|].
  split; [rewrite E; exact Hc|].
  split; [rewrite E; reflexivity|].
  split; [rewrite E; reflexivity|].
  unfold computedPosition.
  cbn [startOffsetRef contextStartTimeRef playbackRate set_animationFrameRef
       set_contextStartTimeRef set_sourceNodeRef set_nodesCreated cleanupAudio
       setIsPlaying].
  ring.
Qed.

Lemma pause_then_play_continues_witness :
  rendering Scenario.playingFirst (Scenario.segmentOf 1)
            (Scenario.sourceOf Scenario.playingFirst)
  /\ isPlaying
       (dispatch (3 # 20) ClickPlayPause
          (dispatch (1 # 10) ClickPlayPause Scenario.playingFirst)) = true.
Proof.
  assert (R : rendering Scenario.playingFirst (Scenario.segmentOf 1)
                        (Scenario.sourceOf Scenario.playingFirst))
    by (unfold rendering; repeat apply conj; vm_compute; reflexivity).
  split; [exact R|].
  destruct (pause_then_play_continues Scenario.playingFirst
              (Scenario.segmentOf 1) (Scenario.sourceOf Scenario.playingFirst)
              (1 # 10) (3 # 20) R) as (_ & _ & _ & _ & _ & H & _).
  exact H.
Defined.

(** *** Selecting a segment *)

Lemma segmentChanged_some (a : option AudioSegment) (b : AudioSegment) :
  segmentChanged a (Some b) = negb (sameId a b).
Proof. destruct a; reflexivity. Qed.

Lemma select_render (now : Q) (st : App) (seg : AudioSegment) :
  audioContextRef st = true ->
  sameId (currentSegment st) seg = false ->
  let st0 := setIsPlaying true (setCurrentSegment (Some seg) st) in
  let A1 := segmentEffect (playbackEffect now st0) in
  render now st st0
  = if Qeq_bool (duration st) (audioDuration (audio seg))
    then A1 else playbackEffect now A1.
Proof.
  intros Ha Hn st0 A1.
  assert (C1 : commit now st st0 = A1).
  { unfold commit, playbackDepsChanged. subst A1 st0.
    cbn [playbackRate currentSegment isPlaying duration setIsPlaying
         setCurrentSegment].
    rewrite !Qeq_bool_same, segmentChanged_some, Hn. reflexivity. }
  assert (F : playbackRate A1 = playbackRate st
              /\ currentSegment A1 = Some seg
              /\ isPlaying A1 = true
              /\ duration A1 = audioDuration (audio seg)
              /\ audioContextRef A1 = true).
  { subst A1 st0. unfold segmentEffect, playbackEffect.
    cbn [currentSegment isPlaying audioContextRef setIsPlaying
         setCurrentSegment].
    rewrite Ha. cbn. repeat split; exact Ha. }
  destruct F as (Fr & Fc & Fp & Fd & Fa).
  unfold render. rewrite C1.
  assert (C2 : commit now st0 A1
               = if Qeq_bool (duration st) (audioDuration (audio seg))
                 then A1 else playbackEffect now A1).
  { unfold commit, playbackDepsChanged.
    rewrite Fr, Fc, Fp, Fd. subst st0.
    cbn [playbackRate currentSegment isPlaying duration setIsPlaying
         setCurrentSegment].
    rewrite !Qeq_bool_same, segmentChanged_refl. cbn [negb Bool.eqb orb].
    destruct (Qeq_bool (duration st) (audioDuration (audio seg)));
      reflexivity. }
  rewrite C2.
  destruct (Qeq_bool (duration st) (audioDuration (audio seg))) eqn:Q.
  - apply commit_quiet; [apply Qeq_bool_same|apply playbackDepsChanged_refl].
  - apply commit_quiet.
    + unfold playbackEffect; rewrite Fc, Fa, Fp; cbn. apply Qeq_bool_same.
    + unfold playbackDepsChanged, playbackEffect; rewrite Fc, Fa, Fp; cbn.
      rewrite Fc, Fp, jsstring_eqb_refl, Qeq_bool_same; reflexivity.
Qed.

(** X18: clicking a segment other than the current one selects it and
    plays it: the duration is the one of its audio, position and offset
    are 0, the reader is turned to its page and a source plays its
    buffer.  The source starts at 0 when that duration differs from the
    one held before; when the two are equal the main effect is not run
    again and the source has started at the offset of the segment left. *)
Theorem selecting_another_segment_plays_it
        (st : App) (seg : AudioSegment) (now : Q) :
  audioContextRef st = true ->
  sameId (currentSegment st) seg = false ->
  let st' := dispatch now (ClickSegment seg) st in
  currentSegment st' = Some seg
  /\ isPlaying st' = true
  /\ duration st' = audioDuration (audio seg)
  /\ currentTime st' = 0
  /\ startOffsetRef st' = 0
  /\ currentPage st' = from (pageRange seg)
  /\ contextStartTimeRef st' = now
  /\ audioSegments st' = audioSegments st
  /\ exists node,
      sourceNodeRef st' = Some node
      /\ buffer node = audio seg
      /\ nodePlaybackRate node = playbackRate st
      /\ if Qeq_bool (duration st) (audioDuration (audio seg))
         then startedAt node = startOffsetRef st
              /\ closureDuration node = duration st
         else startedAt node = 0
              /\ closureDuration node = audioDuration (audio seg).
Proof.
  intros Ha Hn st'; subst st'.
  unfold dispatch, handlePlaybackRequest. rewrite Hn.
  rewrite (select_render now st seg Ha Hn).
  destruct (Qeq_bool (duration st) (audioDuration (audio seg))) eqn:Q;
    unfold segmentEffect, playbackEffect;
    cbn [currentSegment isPlaying audioContextRef setIsPlaying
         setCurrentSegment];
    rewrite Ha; cbn; rewrite ?Ha; cbn;
    (repeat split; try reflexivity);
    eexists; (repeat split; try reflexivity).
Qed.

Lemma selecting_another_segment_plays_it_witness :
  audioContextRef Scenario.playingFirst = true
  /\ sameId (currentSegment Scenario.playingFirst) (Scenario.segmentOf 2)
     = false
  /\ currentPage
       (dispatch (1 # 10) (ClickSegment (Scenario.segmentOf 2))
          Scenario.playingFirst) = 2%nat.
Proof.
  assert (Ha : audioContextRef Scenario.playingFirst = true)
    by (vm_compute; reflexivity).
  assert (Hn : sameId (currentSegment Scenario.playingFirst)
                      (Scenario.segmentOf 2) = false)
    by (vm_compute; reflexivity).
  split; [exact Ha|]. split; [exact Hn|].
  destruct (selecting_another_segment_plays_it Scenario.playingFirst
              (Scenario.segmentOf 2) (1 # 10) Ha Hn)
    as (_ & _ & _ & _ & _ & H & _).
  exact H.
Defined.

(** *** The end of a track *)

Lemma jsstring_eqb_neq (a b : jsstring) : a <> b -> jsstring_eqb a b = false.
Proof.
  intros H; unfold jsstring_eqb.
  destruct (list_eq_dec N.eq_dec a b); [contradiction|reflexivity].
Qed.

Lemma findIndex_distinct (cur : AudioSegment) (segments : list AudioSegment) :
  NoDup (map id segments) ->
  forall i, nth_error segments i = Some cur ->
            findIndex (fun s => sameId (Some cur) s) segments = Some i.
Proof.
  induction segments as [|x l IH]; intros Hd [|i] Hi; simpl in *;
    try discriminate.
  - injection Hi as ->. rewrite jsstring_eqb_refl; reflexivity.
  - inversion Hd as [|? ? Hx Hd']; subst.
    rewrite jsstring_eqb_neq.
    + rewrite (IH Hd' i Hi); reflexivity.
    + intros E. apply Hx. rewrite <- E.
      apply in_map, (nth_error_In _ _ Hi).
Qed.

(** X19: in a playlist whose ids are distinct, the end of the segment at
    position [i] selects the segment at position [i + 1], and stops
    playback when there is none; nothing else changes. *)
Theorem track_end_follows_playlist
        (st : App) (i : nat) (cur : AudioSegment) :
  NoDup (map id (audioSegments st)) ->
  nth_error (audioSegments st) i = Some cur ->
  currentSegment st = Some cur ->
  currentIndex st = Some i
  /\ handleTrackEnd st
     = match nth_error (audioSegments st) (i + 1) with
       | Some next => setCurrentSegment (Some next) st
       | None => setIsPlaying false st
       end.
Proof.
  intros Hd Hi Hc.
  assert (I : currentIndex st = Some i).
  { unfold currentIndex; rewrite Hc. apply findIndex_distinct; assumption. }
  split; [exact I|].
  destruct (nth_error (audioSegments st) (i + 1)) as [next|] eqn:E.
  - apply (handleTrackEnd_next st i next I E).
  - apply (handleTrackEnd_last st i I E).
Qed.

Lemma track_end_follows_playlist_witness :
  NoDup (map id (audioSegments Scenario.playingFirst))
  /\ nth_error (audioSegments Scenario.playingFirst) 0
     = Some (Scenario.segmentOf 1)
  /\ currentSegment Scenario.playingFirst = Some (Scenario.segmentOf 1)
  /\ currentIndex Scenario.playingFirst = Some 0%nat.
Proof.
  assert (Hd : NoDup (map id (audioSegments Scenario.playingFirst))).
  { assert (E : map id (audioSegments Scenario.playingFirst)
                = [id (Scenario.segmentOf 1); id (Scenario.segmentOf 2)])
      by (vm_compute; reflexivity).
    rewrite E. constructor.
    - intros [H|[]]. vm_compute in H. discriminate.
    - constructor; [intros []|constructor]. }
  assert (Hi : nth_error (audioSegments Scenario.playingFirst) 0
               = Some (Scenario.segmentOf 1)) by (vm_compute; reflexivity).
  assert (Hc : currentSegment Scenario.playingFirst
               = Some (Scenario.segmentOf 1)) by (vm_compute; reflexivity).
  exact (conj Hd (conj Hi (conj Hc
    (proj1 (track_end_follows_playlist Scenario.playingFirst 0
              (Scenario.segmentOf 1) Hd Hi Hc))))).
Defined.

(** *** The reported position *)

Lemma percent_bounds (d x : Q) :
  0 <= x -> x <= d -> 0 <= progressPercent d x <= 100.
Proof.
  intros H0 H1; unfold progressPercent.
  destruct (Qle_bool d 0) eqn:E; cbn [negb]; [lra|].
  assert (Hd : 0 < d).
  { apply Qnot_le_lt; intros Hle; apply Qle_bool_iff in Hle; congruence. }
  assert (L : 0 <= x / d) by (apply Qle_shift_div_l; [exact Hd|lra]).
  assert (U : x / d <= 1) by (apply Qle_shift_div_r; [exact Hd|lra]).
  lra.
Qed.

(** X20: while a source plays at a rate that is not negative, the
    position that successive frames report never decreases and never
    exceeds the duration the frame callback was created with; a frame
    changes nothing but the position; and the seek bar stays between 0
    and 100 percent. *)
Theorem frames_report_forward (st : App) (now now' : Q) :
  animationFrameRef st = Some (duration st) ->
  0 <= playbackRate st ->
  0 <= startOffsetRef st ->
  contextStartTimeRef st <= now -> now <= now' ->
  let first := dispatch now AnimationFrame st in
  let second := dispatch now' AnimationFrame first in
  currentTime first == Qmin (computedPosition now st) (duration st)
  /\ currentTime second == Qmin (computedPosition now' st) (duration st)
  /\ currentTime first <= currentTime second
  /\ currentTime second <= duration second
  /\ second = setCurrentTime (currentTime second) st
  /\ (0 <= duration st ->
      0 <= progressPercent (duration second) (currentTime second) <= 100).
Proof.
  intros Hf Hr Ho Hc Hn first second.
  assert (E1 : first
               = setCurrentTime (Qmin (computedPosition now st) (duration st))
                                st).
  { unfold first, dispatch. rewrite tick_render. unfold tick; rewrite Hf.
    reflexivity. }
  assert (E2 : second
               = setCurrentTime (Qmin (computedPosition now' st) (duration st))
                                st).
  { unfold second, dispatch. rewrite tick_render. unfold tick.
    rewrite E1. cbn [animationFrameRef setCurrentTime]. rewrite Hf.
    reflexivity. }
  assert (M : (now - contextStartTimeRef st) * playbackRate st
              <= (now' - contextStartTimeRef st) * playbackRate st)
    by (apply Qmult_le_compat_r; [lra|exact Hr]).
  assert (P : 0 <= (now' - contextStartTimeRef st) * playbackRate st)
    by (apply Qmult_le_0_compat; [lra|exact Hr]).
  rewrite E2, E1. cbn [currentTime duration setCurrentTime].
  unfold computedPosition.
  pose proof (Q.min_spec (startOffsetRef st
                + (now - contextStartTimeRef st) * playbackRate st)
                (duration st)) as S1.
  pose proof (Q.min_spec (startOffsetRef st
                + (now' - contextStartTimeRef st) * playbackRate st)
                (duration st)) as S2.
  split; [reflexivity|]. split; [reflexivity|].
  split; [lra|]. split; [lra|]. split; [reflexivity|].
  intros Hd. apply percent_bounds; lra.
Qed.

Lemma frames_report_forward_witness :
  let st := Scenario.playingFirst in
  animationFrameRef st = Some (duration st)
  /\ 0 <= playbackRate st
  /\ 0 <= startOffsetRef st
  /\ contextStartTimeRef st <= 1 # 20
  /\ (1 # 20 <= 1 # 10)
  /\ currentTime (dispatch (1 # 20) AnimationFrame st)
     <= currentTime
          (dispatch (1 # 10) AnimationFrame
             (dispatch (1 # 20) AnimationFrame st)).
Proof.
  intros st.
  assert (Hf : animationFrameRef st = Some (duration st))
    by (vm_compute; reflexivity).
  assert (Hr : 0 <= playbackRate st) by (vm_compute; discriminate).
  assert (Ho : 0 <= startOffsetRef st) by (vm_compute; discriminate).
  assert (Hc : contextStartTimeRef st <= 1 # 20) by (vm_compute; discriminate).
  assert (Hn : 1 # 20 <= 1 # 10) by (vm_compute; discriminate).
  exact (conj Hf (conj Hr (conj Ho (conj Hc (conj Hn
    (proj1 (proj2 (proj2 (frames_report_forward st (1 # 20) (1 # 10)
                            Hf Hr Ho Hc Hn))))))))).
Defined.

(** *** Seeking while a source plays *)

Lemma commit_prev (now : Q) (prev prev' st : App) :
  playbackRate prev = playbackRate prev' ->
  currentSegment prev = currentSegment prev' ->
  isPlaying prev = isPlaying prev' ->
  duration prev = duration prev' ->
  commit now prev st = commit now prev' st.
Proof.
  intros Hr Hc Hp Hd; unfold commit, playbackDepsChanged.
  rewrite Hr, Hc, Hp, Hd; reflexivity.
Qed.

Lemma render_prev (now : Q) (prev prev' st : App) :
  playbackRate prev = playbackRate prev' ->
  currentSegment prev = currentSegment prev' ->
  isPlaying prev = isPlaying prev' ->
  duration prev = duration prev' ->
  render now prev st = render now prev' st.
Proof.
  intros Hr Hc Hp Hd; unfold render.
  rewrite (commit_prev now prev prev' st Hr Hc Hp Hd); reflexivity.
Qed.

(** X21: a seek while a source plays stops that source and starts a new
    one on the same buffer; the new source does not start at the time
    asked for but at that time plus what the old source had played since
    its start, capped at the duration, while the position shown is the
    time asked for. *)
Theorem seek_while_playing_restarts
        (st : App) (cur : AudioSegment) (source : SourceNode) (now t : Q) :
  rendering st cur source ->
  let st' := dispatch now (SeekTo t) st in
  let landing :=
    Qmin (t + (now - contextStartTimeRef st) * playbackRate st)
         (duration st) in
  isPlaying st' = true
  /\ currentSegment st' = Some cur
  /\ currentTime st' = t
  /\ startOffsetRef st' = landing
  /\ contextStartTimeRef st' = now
  /\ duration st' = duration st
  /\ sourceNodeRef st'
     = Some {| nodeId := nodesCreated st; buffer := audio cur;
               nodePlaybackRate := playbackRate st;
               startedAt := landing;
               closureDuration := duration st |}
  /\ animationFrameRef st' = Some (duration st).
Proof.
  intros (Ha & Hp & Hc & Hs & Hd) st' landing.
  set (sought := set_startOffsetRef t (setCurrentTime t st)).
  assert (E1 : render now st (handleSeek t st)
               = cleanupAudio
                   (set_startOffsetRef landing (setIsPlaying false sought))).
  { unfold handleSeek. rewrite Ha. cbn [negb]. fold sought.
    replace (isPlaying sought) with true by (symmetry; exact Hp).
    rewrite (render_prev now st sought (setIsPlaying false sought));
      try reflexivity.
    apply (pause_render now sought cur source); assumption. }
  set (stopped := cleanupAudio _) in E1.
  assert (Sa : audioContextRef stopped = true) by exact Ha.
  assert (Sp : isPlaying stopped = false) by reflexivity.
  assert (Sc : currentSegment stopped = Some cur) by exact Hc.
  assert (E : st' = render now stopped (seekTimeout stopped)).
  { unfold st', dispatch. rewrite Hp, Ha, E1. reflexivity. }
  unfold seekTimeout in E.
  rewrite (play_render now stopped cur Sa Sp Sc) in E.
  rewrite E. repeat split; try reflexivity. exact Hc.
Qed.

Lemma seek_while_playing_restarts_witness :
  let st := Scenario.playingFirst in
  rendering st (Scenario.segmentOf 1) (Scenario.sourceOf st)
  /\ startOffsetRef (dispatch (1 # 10) (SeekTo (1 # 20)) st)
     = Qmin ((1 # 20) + ((1 # 10) - contextStartTimeRef st) * playbackRate st)
            (duration st).
Proof.
  intros st.
  assert (R : rendering st (Scenario.segmentOf 1) (Scenario.sourceOf st))
    by (unfold rendering; repeat apply conj; vm_compute; reflexivity).
  exact (conj R
    (proj1 (proj2 (proj2 (proj2
       (seek_while_playing_restarts st (Scenario.segmentOf 1)
          (Scenario.sourceOf st) (1 # 10) (1 # 20) R)))))).
Defined.

(** *** A new book *)

Lemma nothing_to_play (newIsPlayingState : bool) (st : App) :
  currentSegment st = None -> audioSegments st = [] ->
  handleMainPlayPause newIsPlayingState st = st.
Proof.
  intros Hc Ha; unfold handleMainPlayPause; rewrite Hc, Ha; reflexivity.
Qed.

(** X22: the button for a new book, pressed while a segment is selected,
    empties the playlist, selects nothing, clears the error, turns to
    page 1, releases the source and the frame callback and sets duration
    and position to 0; what follows is not playing. *)
Theorem new_book_stops_playback (st : App) (cur : AudioSegment) (now : Q) :
  currentSegment st = Some cur ->
  let st' := newBook now st in
  audioSegments st' = []
  /\ currentSegment st' = None
  /\ isPlaying st' = false
  /\ error st' = None
  /\ currentPage st' = 1%nat
  /\ sourceNodeRef st' = None
  /\ animationFrameRef st' = None
  /\ duration st' = 0
  /\ currentTime st' = 0
  /\ dispatch now ClickPlayPause st' = st'.
Proof.
  intros Hc st'.
  set (B := setCurrentTime 0 (setDuration 0 (cleanupAudio (resetState st)))).
  assert (C1 : commit now st (resetState st) = B).
  { unfold commit, playbackDepsChanged.
    cbn [playbackRate currentSegment isPlaying duration resetState
         setCurrentPage setIsPlaying setError setCurrentSegment
         setAudioSegments].
    rewrite !Qeq_bool_same, Hc. cbn [segmentChanged negb orb].
    unfold segmentEffect, playbackEffect.
    cbn [currentSegment resetState setCurrentPage setIsPlaying setError
         setCurrentSegment setAudioSegments setCurrentTime setDuration
         cleanupAudio set_animationFrameRef set_sourceNodeRef].
    reflexivity. }
  assert (C2 : forall prev,
             currentSegment prev = None -> playbackRate prev = playbackRate st ->
             commit now prev B = B).
  { intros prev Hn Hr. unfold commit, playbackDepsChanged.
    rewrite Hn, Hr. cbn [playbackRate currentSegment B resetState
      setCurrentPage setIsPlaying setError setCurrentSegment setAudioSegments
      setCurrentTime setDuration cleanupAudio set_animationFrameRef
      set_sourceNodeRef segmentChanged].
    rewrite Qeq_bool_same. cbn [negb].
    destruct (_ || _); reflexivity. }
  assert (E : st' = B).
  { unfold st', newBook, render. rewrite C1.
    rewrite (C2 (resetState st)); try reflexivity.
    apply C2; reflexivity. }
  rewrite E. repeat split.
  unfold dispatch.
  rewrite (nothing_to_play (negb (isPlaying B)) B eq_refl eq_refl).
  apply render_quiet; [apply Qeq_bool_same|apply playbackDepsChanged_refl].
Qed.

Lemma new_book_stops_playback_witness :
  currentSegment Scenario.playingFirst = Some (Scenario.segmentOf 1)
  /\ sourceNodeRef (newBook (1 # 10) Scenario.playingFirst) = None.
Proof.
  assert (Hc : currentSegment Scenario.playingFirst
               = Some (Scenario.segmentOf 1)) by (vm_compute; reflexivity).
  split; [exact Hc|].
  destruct (new_book_stops_playback Scenario.playingFirst
              (Scenario.segmentOf 1) (1 # 10) Hc)
    as (_ & _ & _ & _ & _ & H & _).
  exact H.
Defined.

End PlaybackFacts.

Module BookParserFacts.
Import JsString Chunker BookParser ChunkerSpec.

(** *** Pages of an EPUB *)

Lemma epubPages_loop_hardSplit (fullText : jsstring) :
  forall fuel i,
    epubPages_loop fuel fullText i
    = hardSplit_loop fuel CHARS_PER_PAGE_EPUB fullText i.
Proof.
  induction fuel as [|fuel IH]; intros i; [reflexivity|].
  cbn [epubPages_loop hardSplit_loop]. rewrite IH; reflexivity.
Qed.

Lemma hardSplit_loop_nth (maxChars : nat) (sentence : jsstring) :
  0 < maxChars ->
  forall fuel i p,
    length sentence - i < fuel ->
    nth_error (hardSplit_loop fuel maxChars sentence i) p
    = if i + p * maxChars <? length sentence
      then Some (substring (i + p * maxChars) (i + p * maxChars + maxChars)
                           sentence)
      else None.
Proof.
  intros Hmax; induction fuel as [|fuel IH]; intros i p Hf; [lia|].
  cbn [hardSplit_loop].
  destruct (Nat.ltb_spec i (length sentence)) as [Hi|Hi].
  - destruct p as [|p]; cbn [nth_error].
    + cbn [Nat.mul]. rewrite Nat.add_0_r.
      destruct (Nat.ltb_spec i (length sentence)); [reflexivity|lia].
    + rewrite IH by lia.
      replace (i + maxChars + p * maxChars) with (i + S p * maxChars)
        by (cbn [Nat.mul]; lia).
      reflexivity.
  - destruct (Nat.ltb_spec (i + p * maxChars) (length sentence)); [lia|].
    destruct p; reflexivity.
Qed.

Lemma hardSplit_loop_positive (maxChars : nat) (sentence : jsstring) :
  0 < maxChars ->
  forall fuel i,
    Forall (fun c => 0 < length c)
           (hardSplit_loop fuel maxChars sentence i).
Proof.
  intros Hmax; induction fuel as [|fuel IH]; intros i; cbn [hardSplit_loop].
  - constructor.
  - destruct (Nat.ltb_spec i (length sentence)); constructor; [|apply IH].
    unfold substring. rewrite length_firstn, length_skipn. lia.
Qed.

Lemma hardSplit_loop_length (maxChars : nat) (sentence : jsstring) :
  0 < maxChars ->
  forall fuel i,
    length sentence - i < fuel ->
    length (hardSplit_loop fuel maxChars sentence i)
    = (length sentence - i + (maxChars - 1)) / maxChars.
Proof.
  intros Hmax; induction fuel as [|fuel IH]; intros i Hf; [lia|].
  cbn [hardSplit_loop].
  destruct (Nat.ltb_spec i (length sentence)) as [Hi|Hi].
  - cbn [length]. rewrite IH by lia.
    destruct (Nat.le_gt_cases (length sentence - i) maxChars) as [Hs|Hs].
    + replace (length sentence - (i + maxChars) + (maxChars - 1))
        with (maxChars - 1) by lia.
      replace (length sentence - i + (maxChars - 1))
        with (length sentence - i - 1 + 1 * maxChars) by lia.
      rewrite Nat.div_add by lia.
      rewrite !Nat.div_small by lia. reflexivity.
    + replace (length sentence - i + (maxChars - 1))
        with (length sentence - (i + maxChars) + (maxChars - 1)
              + 1 * maxChars) by lia.
      rewrite Nat.div_add by lia. lia.
  - cbn [length]. symmetry. apply Nat.div_small. lia.
Qed.

(** X23: the pages cut from the text of an EPUB put together give the
    text again; there are as many as the length divided by 2000, rounded
    up; page [p], counted from 0, is the slice of the text from
    [2000 * p] to [2000 * p + 2000]; no page is empty or longer than
    2000 code units. *)
Theorem epub_pages_slice_the_text (fullText : jsstring) :
  let bookPages := epubPages fullText in
  concat bookPages = fullText
  /\ length bookPages
     = (length fullText + (CHARS_PER_PAGE_EPUB - 1)) / CHARS_PER_PAGE_EPUB
  /\ Forall (fun page => 0 < length page <= CHARS_PER_PAGE_EPUB) bookPages
  /\ forall p,
      nth_error bookPages p
      = if p * CHARS_PER_PAGE_EPUB <? length fullText
        then Some (substring (p * CHARS_PER_PAGE_EPUB)
                             (p * CHARS_PER_PAGE_EPUB + CHARS_PER_PAGE_EPUB)
                             fullText)
        else None.
Proof.
  intros bookPages; subst bookPages; unfold epubPages.
  rewrite epubPages_loop_hardSplit.
  assert (Hmax : 0 < CHARS_PER_PAGE_EPUB) by (unfold CHARS_PER_PAGE_EPUB; lia).
  generalize dependent CHARS_PER_PAGE_EPUB; intros maxChars Hmax.
  split; [apply (hardSplit_concat maxChars fullText Hmax)|].
  split.
  { rewrite hardSplit_loop_length by lia. rewrite Nat.sub_0_r; reflexivity. }
  split.
  { pose proof (hardSplit_loop_bound maxChars fullText
                  (S (length fullText)) 0) as Hb.
    pose proof (hardSplit_loop_positive maxChars fullText Hmax
                  (S (length fullText)) 0) as Hp.
    rewrite Forall_forall in *. intros page Hin.
    split; [apply Hp|apply Hb]; exact Hin. }
  intros p. rewrite hardSplit_loop_nth by lia. reflexivity.
Qed.

End BookParserFacts.

Module ReaderFacts.
Import JsString Audio Playback Generation Reader PlaybackSpec.

(** *** Turning pages *)

Lemma page_render (now : Q) (st : App) (p : nat) :
  render now st (setCurrentPage p st) = setCurrentPage p st.
Proof.
  apply render_quiet; [apply Qeq_bool_same|].
  apply (playbackDepsChanged_refl st).
Qed.

Lemma click_page (bk : Book) (st : App) (e : Q * Button) :
  inBook bk st ->
  click bk st e
  = setCurrentPage
      (match snd e with
       | PreviousPage => Nat.max 1 (currentPage st - 1)
       | NextPage => Nat.min (List.length (pages bk)) (currentPage st + 1)
       end) st.
Proof.
  intros [H1 H2]; unfold click, disabled, onPageChange.
  destruct (snd e).
  - destruct (Nat.leb_spec (currentPage st) 1).
    + replace (Nat.max 1 (currentPage st - 1)) with (currentPage st) by lia.
      destruct st; reflexivity.
    + rewrite page_render. f_equal; lia.
  - destruct (Nat.leb_spec (List.length (pages bk)) (currentPage st)).
    + replace (Nat.min _ _) with (currentPage st) by lia.
      destruct st; reflexivity.
    + rewrite page_render. f_equal; lia.
Qed.

(** X24: however the two page buttons are clicked, a reader that shows a
    page of the book goes on showing one: the page number stays between
    1 and the number of pages, the text shown is the text of that page
    and never the notice for a missing page, a click moves by at most one
    page, and nothing of the player changes but the page. *)
Theorem reader_stays_in_book
        (bk : Book) (clicks : list (Q * Button)) (st : App) :
  inBook bk st ->
  let st' := fold_left (click bk) clicks st in
  inBook bk st'
  /\ nth_error (pages bk) (currentPage st' - 1)
     = Some (pageText bk (currentPage st'))
  /\ st' = setCurrentPage (currentPage st') st
  /\ currentPage st - List.length clicks <= currentPage st'
     <= currentPage st + List.length clicks.
Proof.
  revert st; induction clicks as [|e clicks IH]; intros st Hin st'.
  - subst st'; cbn [fold_left List.length].
    split; [exact Hin|].
    split.
    { destruct Hin as [H1 H2]. unfold pageText.
      destruct (currentPage st) as [|pageIndex] eqn:E; [lia|].
      cbn [Nat.sub]. rewrite Nat.sub_0_r.
      destruct (nth_error (pages bk) pageIndex) eqn:N; [reflexivity|].
      apply nth_error_None in N; lia. }
    split; [destruct st; reflexivity|lia].
  - subst st'; cbn [fold_left List.length].
    pose proof (click_page bk st e Hin) as E.
    set (st1 := click bk st e) in *.
    assert (Hin1 : inBook bk st1).
    { destruct Hin as [H1 H2]; unfold inBook; rewrite E.
      cbn [currentPage setCurrentPage]. destruct (snd e); lia. }
    destruct (IH st1 Hin1) as (I1 & I2 & I3 & I4).
    split; [exact I1|]. split; [exact I2|].
    split.
    { rewrite I3 at 1. rewrite E. reflexivity. }
    assert (currentPage st - 1 <= currentPage st1 <= currentPage st + 1).
    { destruct Hin as [H1 H2]; rewrite E.
      cbn [currentPage setCurrentPage]. destruct (snd e); lia. }
    lia.
Qed.

Lemma reader_stays_in_book_witness :
  let bk := Scenario.novel in
  let clicks := [(0%Q, NextPage); (0%Q, NextPage); (0%Q, PreviousPage)] in
  inBook bk mounted
  /\ inBook bk (fold_left (click bk) clicks mounted).
Proof.
  intros bk clicks.
  assert (Hin : inBook bk mounted) by (unfold inBook; cbn; lia).
  exact (conj Hin (proj1 (reader_stays_in_book bk clicks mounted Hin))).
Defined.

End ReaderFacts.

Module SessionFacts.
Import JsString Chunker Audio Playback Generation.
Import GenerationTerms Controls Reader.
Import PlaybackSpec GenerationSpec.

(** *** From the generator to the reader *)

Lemma select_page (now : Q) (st : App) (seg : AudioSegment) :
  audioContextRef st = true ->
  sameId (currentSegment st) seg = false ->
  currentPage (dispatch now (ClickSegment seg) st) = from (pageRange seg).
Proof.
  intros Ha Hn.
  unfold dispatch, handlePlaybackRequest. rewrite Hn.
  rewrite (PlaybackFacts.select_render now st seg Ha Hn).
  destruct (Qeq_bool (duration st) (audioDuration (audio seg)));
    unfold segmentEffect, playbackEffect;
    cbn [currentSegment isPlaying audioContextRef setIsPlaying
         setCurrentSegment];
    rewrite Ha; cbn; rewrite ?Ha; reflexivity.
Qed.

Lemma pageText_of_page (bk : Book) (p : nat) (pageContent : jsstring) :
  1 <= p ->
  nth_error (pages bk) (p - 1) = Some pageContent ->
  pageText bk p = pageContent.
Proof.
  intros Hp Hn. destruct p as [|pageIndex]; [lia|].
  cbn [Nat.sub] in Hn. rewrite Nat.sub_0_r in Hn.
  unfold pageText. rewrite Hn. reflexivity.
Qed.

(** X25: every segment a run adds is titled with the single page it
    reads, and selecting it in the playlist turns the reader to that
    page, which is a page of the book and whose text is the text the
    segment speaks. *)
Theorem reader_shows_the_spoken_page
        (bk : Book) (schedule : nat -> Await) (w : World) :
  invalidRange bk (Number (fromPage w)) (Number (toPage w)) = false ->
  exists new,
    audioSegments (app (handleGenerate bk schedule w))
    = audioSegments (app w) ++ new
    /\ Forall
         (fun seg =>
            getSegmentTitle seg
            = lit "Page " ++ decimal (N.of_nat (pageOf seg))
            /\ pageText bk (pageOf seg) = text seg
            /\ forall now st,
                audioContextRef st = true ->
                sameId (currentSegment st) seg = false ->
                let st' := dispatch now (ClickSegment seg) st in
                currentSegment st' = Some seg
                /\ inBook bk st'
                /\ pageText bk (currentPage st') = text seg)
         new.
Proof.
  intros Hv.
  unfold handleGenerate; rewrite Hv. unfold runLoop.
  set (lo := Number (fromPage w)) in *. set (hi := Number (toPage w)) in *.
  destruct (pageLoop (closureOf bk lo w) schedule (seq lo (hi - lo + 1))
                     (startRun bk lo hi w)) as [w' exit] eqn:E.
  destruct (GenerationFacts.pageLoop_ascending _ _ _ _ _ _ _ E)
    as (new & Hn & _ & Hf).
  destruct (finishRun_facts w' exit) as (F1 & _).
  exists new. split; [rewrite F1, Hn; reflexivity|].
  assert (Hr : 1 <= lo /\ lo + (hi - lo + 1) <= S (List.length (pages bk))).
  { unfold invalidRange in Hv.
    apply orb_false_elim in Hv as [Hv H3].
    apply orb_false_elim in Hv as [H1 H2].
    apply Nat.ltb_ge in H1, H2, H3. lia. }
  eapply Forall_impl; [|exact Hf].
  intros seg (Hb & Hp & _ & Ht). cbn [book closureOf] in Ht.
  assert (Hx : pageText bk (pageOf seg) = text seg)
    by (apply pageText_of_page; [lia|exact Ht]).
  split.
  { unfold getSegmentTitle. rewrite Hp. cbn [from to].
    rewrite Nat.eqb_refl. reflexivity. }
  split; [exact Hx|].
  intros clock st Ha Hs; cbv zeta.
  set (st' := dispatch clock (ClickSegment seg) st).
  assert (Hc : currentPage st' = pageOf seg)
    by apply (select_page clock st seg Ha Hs).
  split.
  { unfold st', dispatch.
    match goal with
    | |- context [render ?n ?p ?s] =>
        destruct (render_state n p s) as (_ & -> & _)
    end.
    unfold handlePlaybackRequest; rewrite Hs; reflexivity. }
  split; [unfold inBook; rewrite Hc; lia|rewrite Hc; exact Hx].
Qed.

Lemma reader_shows_the_spoken_page_witness :
  let w := idle mounted (Some 2) (Some 5) in
  invalidRange Scenario.novel (Number (fromPage w)) (Number (toPage w)) = false
  /\ exists new,
      audioSegments (app (handleGenerate Scenario.novel Scenario.quiet w))
      = audioSegments (app w) ++ new
      /\ Forall (fun seg => pageText Scenario.novel (pageOf seg) = text seg)
                new.
Proof.
  intros w.
  assert (Hv : invalidRange Scenario.novel (Number (fromPage w))
                            (Number (toPage w)) = false)
    by (vm_compute; reflexivity).
  split; [exact Hv|].
  destruct (reader_shows_the_spoken_page Scenario.novel Scenario.quiet w Hv)
    as (new & Hn & Hf).
  exists new. split; [exact Hn|].
  eapply Forall_impl; [|exact Hf]. intros seg (_ & H & _); exact H.
Defined.

End SessionFacts.
